(** * Firestate: optimistic synchronisation engine

    A shallow embedding of the diff algebra ([diff.ts]), the undo/redo
    manager ([undo.ts]) and the document and collection subscriptions
    ([document.ts], [collection.ts]), followed by the properties the
    specification states about them.

    Conventions of the embedding.
    - A JavaScript object literal is an association list in insertion
      order with pairwise distinct keys; [obj[k] = v] keeps the position of
      an existing key and appends a new one.  Keys are assumed not to be
      array indices (which JavaScript would enumerate first).
    - A plain object also has the members it inherits from
      [Object.prototype].  They are functions, not values of the embedding:
      [inherited] names them, the tests [k in obj] and
      [obj[k] === undefined] take them into account, and a path walk that
      reaches one is [Unmodelled].  Where [computeDiff] reads [from[k]] the
      embedding sees an own property or nothing; the properties that depend
      on it are stated for field names that are not inherited.
    - [undefined] is the absence of a value ([option]); stored fields are
      never [undefined].
    - A number is an integer or [NaN]; strings are sequences of one-byte
      characters.
    - Object identity ([===] on objects) is not visible in a value, so the
      functions that test it take an oracle [sameInstance]; every property
      is proved for an arbitrary oracle. *)

From Stdlib Require Import String Ascii List ZArith Bool Lia Arith.
From Stdlib Require Import Numbers.DecimalString.
Import ListNotations.

Local Open Scope string_scope.
Local Open Scope list_scope.

(** ** Values *)

(** A number as far as [===] tells numbers apart: an integer, or [NaN],
    which is equal to nothing, itself included. *)
Inductive number : Type :=
| Int (z : Z)
| NaN.

Coercion Int : Z >-> number.
Bind Scope Z_scope with number.

#[warnings="-register-all"]
Inductive value : Type :=
| VNull
| VBool (b : bool)
| VNum (n : number)
| VStr (s : string)
| VTimestamp (seconds nanoseconds : Z)
| VDeleteField
| VServerTimestamp
| VArr (items : list value)
| VObj (fields : list (string * value)).

Definition record : Type := list (string * value).

Module Js.

(** [obj[k]] on a plain object. *)
Fixpoint lookup (k : string) (r : record) : option value :=
  match r with
  | [] => None
  | (k', v) :: rest => if String.eqb k k' then Some v else lookup k rest
  end.

(** [obj[k] = v]. *)
Fixpoint assign (k : string) (v : value) (r : record) : record :=
  match r with
  | [] => [(k, v)]
  | (k', v') :: rest =>
      if String.eqb k k' then (k, v) :: rest else (k', v') :: assign k v rest
  end.

(** [delete obj[k]]. *)
Fixpoint remove (k : string) (r : record) : record :=
  match r with
  | [] => []
  | (k', v') :: rest =>
      if String.eqb k k' then remove k rest else (k', v') :: remove k rest
  end.

(** [Object.assign(target, source)]. *)
Definition assignAll (target source : record) : record :=
  fold_left (fun acc kv => assign (fst kv) (snd kv) acc) source target.

Definition keys (r : record) : list string := map fst r.

(** [obj] has a property [k] of its own. *)
Definition hasKey (k : string) (r : record) : bool :=
  match lookup k r with Some _ => true | None => false end.

(** The names of the members a plain object inherits from
    [Object.prototype]. *)
Definition inherited (k : string) : bool :=
  existsb (String.eqb k)
    ["constructor"; "__defineGetter__"; "__defineSetter__"; "hasOwnProperty";
     "__lookupGetter__"; "__lookupSetter__"; "isPrototypeOf";
     "propertyIsEnumerable"; "toString"; "valueOf"; "__proto__";
     "toLocaleString"].

(** [k in obj] for a plain object. *)
Definition isIn (k : string) (r : record) : bool :=
  hasKey k r || inherited k.

(** The decimal spelling of an array index. *)
Definition indexKey (i : nat) : string :=
  NilEmpty.string_of_uint (Nat.to_uint i).

Fixpoint findIndex (k : string) (start count : nat) : option nat :=
  match count with
  | O => None
  | S count' =>
      if String.eqb k (indexKey start) then Some start
      else findIndex k (S start) count'
  end.

Definition charAt (s : string) (i : nat) : option value :=
  match String.get i s with
  | Some c => Some (VStr (String c EmptyString))
  | None => None
  end.

(** [Object.keys(v)]: own enumerable property names. *)
Definition objectKeys (v : value) : list string :=
  match v with
  | VObj r => keys r
  | VArr items => map indexKey (seq 0 (List.length items))
  | VStr s => map indexKey (seq 0 (String.length s))
  | VTimestamp _ _ => ["seconds"; "nanoseconds"]
  | VDeleteField | VServerTimestamp => ["_methodName"]
  | VNull | VBool _ | VNum _ => []
  end.

(** [v[k]] for a value that is read as if it were a record. *)
Definition getProp (v : value) (k : string) : option value :=
  match v with
  | VObj r => lookup k r
  | VArr items =>
      if String.eqb k "length" then Some (VNum (Z.of_nat (List.length items)))
      else match findIndex k 0 (List.length items) with
           | Some i => nth_error items i
           | None => None
           end
  | VStr s =>
      if String.eqb k "length" then Some (VNum (Z.of_nat (String.length s)))
      else match findIndex k 0 (String.length s) with
           | Some i => charAt s i
           | None => None
           end
  | VTimestamp sec nano =>
      if String.eqb k "seconds" then Some (VNum sec)
      else if String.eqb k "nanoseconds" then Some (VNum nano)
      else None
  | VDeleteField =>
      if String.eqb k "_methodName" then Some (VStr "deleteField") else None
  | VServerTimestamp =>
      if String.eqb k "_methodName" then Some (VStr "serverTimestamp") else None
  | VNull | VBool _ | VNum _ => None
  end.

(** [Object.entries(v)]. *)
Definition entries (v : value) : record :=
  match v with
  | VObj r => r
  | _ =>
      flat_map
        (fun k => match getProp v k with Some x => [(k, x)] | None => [] end)
        (objectKeys v)
  end.

(** [typeof v === 'object'] (true of [null] as well). *)
Definition typeofObject (v : value) : bool :=
  match v with
  | VNull | VTimestamp _ _ | VDeleteField | VServerTimestamp
  | VArr _ | VObj _ => true
  | VBool _ | VNum _ | VStr _ => false
  end.

(** [path.split('.')]. *)
Fixpoint split (s : string) : list string :=
  match s with
  | EmptyString => [""]
  | String c s' =>
      if Ascii.eqb c "."%char then "" :: split s'
      else match split s' with
           | [] => [String c ""]
           | p :: ps => String c p :: ps
           end
  end.

(** Structural identity of two numbers. *)
Definition number_eqb (x y : number) : bool :=
  match x, y with
  | Int a, Int b => Z.eqb a b
  | NaN, NaN => true
  | _, _ => false
  end.

(** [x === y] on numbers. *)
Definition sameNumber (x y : number) : bool :=
  match x, y with
  | Int a, Int b => Z.eqb a b
  | _, _ => false
  end.

(** Structural identity of two values. *)
Fixpoint value_eqb (a b : value) {struct a} : bool :=
  match a, b with
  | VNull, VNull => true
  | VBool x, VBool y => Bool.eqb x y
  | VNum x, VNum y => number_eqb x y
  | VStr x, VStr y => String.eqb x y
  | VTimestamp s n, VTimestamp s' n' => Z.eqb s s' && Z.eqb n n'
  | VDeleteField, VDeleteField => true
  | VServerTimestamp, VServerTimestamp => true
  | VArr xs, VArr ys =>
      (fix go (xs ys : list value) : bool :=
         match xs, ys with
         | [], [] => true
         | x :: xs', y :: ys' => value_eqb x y && go xs' ys'
         | _, _ => false
         end) xs ys
  | VObj xs, VObj ys =>
      (fix go (xs ys : record) : bool :=
         match xs, ys with
         | [], [] => true
         | (k, x) :: xs', (k', y) :: ys' =>
             String.eqb k k' && value_eqb x y && go xs' ys'
         | _, _ => false
         end) xs ys
  | _, _ => false
  end.

Section Identity.

(** Whether two object-typed values are one and the same object. *)
Variable sameInstance : value -> value -> bool.

(** [a === b]. *)
Definition strictEq (a b : value) : bool :=
  match a, b with
  | VNull, VNull => true
  | VBool x, VBool y => Bool.eqb x y
  | VNum x, VNum y => sameNumber x y
  | VStr x, VStr y => String.eqb x y
  | (VTimestamp _ _ | VDeleteField | VServerTimestamp | VArr _ | VObj _),
    (VTimestamp _ _ | VDeleteField | VServerTimestamp | VArr _ | VObj _) =>
      value_eqb a b && sameInstance a b
  | _, _ => false
  end.

(** [a === b] where [a] may be [undefined] and [b] is not. *)
Definition strictEqU (a : option value) (b : value) : bool :=
  match a with
  | Some a' => strictEq a' b
  | None => false
  end.

End Identity.

End Js.

(** ** Diff algebra ([diff.ts]) *)

Module Diff.

Import Js.

(** [isPlainObject]: the embedding has no class instances other than
    timestamps and the two sentinels, so a plain object is a [VObj]. *)
Definition isPlainObject (v : value) : bool :=
  match v with VObj _ => true | _ => false end.

Definition isArray (v : value) : bool :=
  match v with VArr _ => true | _ => false end.

(** [isFieldValueSentinel]: a non-null object with an [isEqual] method;
    true of timestamps as well as of the two sentinels. *)
Definition isFieldValueSentinel (v : value) : bool :=
  match v with
  | VTimestamp _ _ | VDeleteField | VServerTimestamp => true
  | _ => false
  end.

(** [isDiffEmpty]. *)
Definition isDiffEmpty (diff : record) : bool :=
  match diff with [] => true | _ :: _ => false end.

(** [value ?? {}]. *)
Definition orEmpty (v : option value) : value :=
  match v with
  | None | Some VNull => VObj []
  | Some v' => v'
  end.

Section Identity.

Variable sameInstance : value -> value -> bool.

(** [isDeepEqual]. *)
Fixpoint isDeepEqual (a b : value) {struct a} : bool :=
  if strictEq sameInstance a b then true
  else
    match a, b with
    | VArr xs, VArr ys =>
        Nat.eqb (List.length xs) (List.length ys) &&
        (fix every (xs ys : list value) : bool :=
           match xs with
           | [] => true
           | x :: xs' =>
               match ys with
               | y :: ys' => isDeepEqual x y && every xs' ys'
               | [] => false
               end
           end) xs ys
    | VTimestamp s n, VTimestamp s' n' => Z.eqb s s' && Z.eqb n n'
    | VObj fa, VObj fb =>
        Nat.eqb (List.length fa) (List.length fb) &&
        (fix every (fs : record) : bool :=
           match fs with
           | [] => true
           | (k, x) :: fs' =>
               match lookup k fb with
               | Some y => isDeepEqual x y
               | None => false
               end && every fs'
           end) fa
    | _, _ => false
    end.

(** [isDeepEqual(a, b)] where [a] may be [undefined]. *)
Definition isDeepEqualU (a : option value) (b : value) : bool :=
  match a with
  | Some a' => isDeepEqual a' b
  | None => false
  end.

(** Second loop of [computeDiff]: every key of [from] for which [to[key]]
    is [undefined] or [null] is marked for deletion.  Under a name that [to]
    inherits [to[key]] is a function. *)
Definition markRemoved (from : value) (to diff : record) : record :=
  fold_left
    (fun diff key =>
       match lookup key to with
       | None => if inherited key then diff else assign key VDeleteField diff
       | Some VNull => assign key VDeleteField diff
       | Some _ => diff
       end)
    (objectKeys from) diff.

(** Body of [computeDiff] for a target that is present.  [to] is a record
    by its type; the recursion only ever passes plain objects. *)
Fixpoint computeDiffValue (from to : value) {struct to} : record :=
  match to with
  | VObj tfs =>
      markRemoved from tfs
        ((fix changed (fs : record) (diff : record) : record :=
            match fs with
            | [] => diff
            | (key, toValue) :: rest =>
                let fromValue := getProp from key in
                changed rest
                  match toValue with
                  | VArr _ =>
                      if isDeepEqualU fromValue toValue then diff
                      else assign key toValue diff
                  | VObj _ =>
                      if isDeepEqualU fromValue toValue then diff
                      else
                        let nestedDiff :=
                          computeDiffValue (orEmpty fromValue) toValue in
                        if isDiffEmpty nestedDiff then diff
                        else assign key (VObj nestedDiff) diff
                  | _ =>
                      if strictEqU sameInstance fromValue toValue then diff
                      else assign key toValue diff
                  end
            end) tfs [])
  | _ => []
  end.

(** [computeDiff(from, to)]; [to = None] is [undefined]. *)
Definition computeDiff (from : record) (to : option record) : value :=
  match to with
  | None => VDeleteField
  | Some t => VObj (computeDiffValue (VObj from) (VObj t))
  end.

End Identity.

(** [deepClone]. *)
Fixpoint deepClone (v : value) : value :=
  match v with
  | VNull | VBool _ | VNum _ | VStr _ => v
  | VTimestamp s n => VTimestamp s n
  | VArr items => VArr (map deepClone items)
  | VObj fs =>
      VObj ((fix copy (fs : record) (result : record) : record :=
               match fs with
               | [] => result
               | (k, x) :: rest => copy rest (assign k (deepClone x) result)
               end) fs [])
  | VDeleteField => VObj [("_methodName", VStr "deleteField")]
  | VServerTimestamp => VObj [("_methodName", VStr "serverTimestamp")]
  end.

Definition cloneRecord (r : record) : record :=
  match deepClone (VObj r) with
  | VObj r' => r'
  | _ => r
  end.

(** [applyDiffMutable(target, diff)], returning the mutated target.
    [now] is the reading of [Timestamp.now()] during the call. *)
Fixpoint applyDiffValue (now : Z * Z) (target : record) (diff : value)
  {struct diff} : record :=
  match diff with
  | VObj dfs =>
      (fix each (fs : record) (target : record) : record :=
         match fs with
         | [] => target
         | (key, v) :: rest =>
             each rest
               match v with
               | VDeleteField => remove key target
               | VServerTimestamp =>
                   assign key (VTimestamp (fst now) (snd now)) target
               | VObj _ =>
                   let existing :=
                     match lookup key target with
                     | Some (VObj e) => e
                     | _ => []
                     end in
                   assign key (VObj (applyDiffValue now existing v)) target
               | _ => assign key v target
               end
         end) dfs target
  | _ => target
  end.

Definition applyDiffMutable (now : Z * Z) (target : record) (diff : value)
  : record :=
  applyDiffValue now target (VObj (entries diff)).

(** [applyDiff(state, diff)]. *)
Definition applyDiff (now : Z * Z) (state : record) (diff : value) : record :=
  applyDiffMutable now (cloneRecord state) diff.

(** [flattenDiff(diff, prefix)] on a plain object. *)
Fixpoint flattenValue (diff : value) (prefix : string) {struct diff}
  : record :=
  match diff with
  | VObj dfs =>
      (fix each (fs : record) (result : record) : record :=
         match fs with
         | [] => result
         | (key, v) :: rest =>
             let path :=
               if String.eqb prefix "" then key
               else (prefix ++ "." ++ key)%string in
             each rest
               (if isFieldValueSentinel v then assign path v result
                else if isArray v then assign path v result
                else
                  match v with
                  | VObj _ => assignAll result (flattenValue v path)
                  | _ => assign path v result
                  end)
         end) dfs []
  | _ => []
  end.

Definition flattenDiff (diff : value) (prefix : string) : record :=
  flattenValue (VObj (entries diff)) prefix.

(** Outcome of a call that may throw, or that leaves the values this
    embedding can express (a named property set on an array or on a class
    instance). *)
Inductive attempt (A : Type) : Type :=
| Ok (a : A)
| Throws
| Unmodelled.

Arguments Ok {A} a.
Arguments Throws {A}.
Arguments Unmodelled {A}.

(** One iteration of [unflattenDiff]: walk [parts] from [current], creating
    objects on the way, and store [v] under the last part. *)
Fixpoint setPath (parts : list string) (v : value) (current : record)
  : attempt record :=
  match parts with
  | [] => Ok current
  | [lastPart] => Ok (assign lastPart v current)
  | part :: rest =>
      let descend (sub : record) :=
        match setPath rest v sub with
        | Ok sub' => Ok (assign part (VObj sub') current)
        | Throws => Throws
        | Unmodelled => Unmodelled
        end in
      match lookup part current with
      | Some (VObj sub) => descend sub
      | Some VNull => Throws
      | Some (VArr _) | Some (VTimestamp _ _)
      | Some VDeleteField | Some VServerTimestamp => Unmodelled
      | Some (VBool _) | Some (VNum _) | Some (VStr _) | None => descend []
      end
  end.

Fixpoint unflattenInto (flat : record) (result : record) : attempt record :=
  match flat with
  | [] => Ok result
  | (path, v) :: rest =>
      match setPath (split path) v result with
      | Ok result' => unflattenInto rest result'
      | Throws => Throws
      | Unmodelled => Unmodelled
      end
  end.

(** [unflattenDiff(flatDiff)]. *)
Definition unflattenDiff (flatDiff : record) : attempt record :=
  unflattenInto flatDiff [].

Section Undo.

Variable sameInstance : value -> value -> bool.

(** [computeUndoDiff(startState, diff)]. *)
Definition computeUndoDiff (now : Z * Z) (startState : record) (diff : value)
  : value :=
  let endState := applyDiff now startState diff in
  computeDiff sameInstance endState (Some startState).

End Undo.

(** [mergeDiffs(first, second)]; both are records by their type. *)
Fixpoint mergeValue (first : record) (second : value) {struct second}
  : record :=
  match second with
  | VObj sfs =>
      (fix each (fs : record) (result : record) : record :=
         match fs with
         | [] => result
         | (key, secondValue) :: rest =>
             each rest
               match lookup key result, secondValue with
               | Some (VObj firstValue), VObj _ =>
                   assign key (VObj (mergeValue firstValue secondValue)) result
               | _, _ => assign key secondValue result
               end
         end) sfs (cloneRecord first)
  | _ => cloneRecord first
  end.

Definition mergeDiffs (first second : record) : record :=
  mergeValue first (VObj second).

Definition isNull (v : value) : bool :=
  match v with VNull => true | _ => false end.

(** [part in current] followed by [current[part]], for a [current] that
    passed the object test.  A plain object has its own properties and the
    inherited ones, whose values the embedding does not express.  Of an
    array or a class instance the embedding knows the properties of its
    own; whether any other name is inherited is not expressed. *)
Definition member (current : value) (part : string) : attempt (option value) :=
  match current with
  | VObj r =>
      match lookup part r with
      | Some next => Ok (Some next)
      | None => if inherited part then Unmodelled else Ok None
      end
  | _ =>
      match getProp current part with
      | Some next => Ok (Some next)
      | None => Unmodelled
      end
  end.

(** The loop of [diffContainsPath]. *)
Fixpoint containsFrom (parts : list string) (current : value) : attempt bool :=
  match parts with
  | [] => Ok true
  | part :: rest =>
      if isNull current || negb (typeofObject current) then Ok false
      else
        match member current part with
        | Ok (Some next) => containsFrom rest next
        | Ok None => Ok false
        | Throws => Throws
        | Unmodelled => Unmodelled
        end
  end.

(** [diffContainsPath(diff, path)]. *)
Definition diffContainsPath (diff : record) (path : string) : attempt bool :=
  containsFrom (split path) (VObj diff).

(** The loop of [extractDiffValue]; [Ok None] is [undefined]. *)
Fixpoint extractFrom (parts : list string) (current : value)
  : attempt (option value) :=
  match parts with
  | [] => Ok (Some current)
  | part :: rest =>
      if isNull current || negb (typeofObject current) then Ok None
      else
        match member current part with
        | Ok (Some next) => extractFrom rest next
        | Ok None => Ok None
        | Throws => Throws
        | Unmodelled => Unmodelled
        end
  end.

(** [extractDiffValue(diff, path)]. *)
Definition extractDiffValue (diff : record) (path : string)
  : attempt (option value) :=
  extractFrom (split path) (VObj diff).

(** The object [createDiffAtPath] builds below [current]: every object on
    the way is created empty and receives one property. *)
Fixpoint nestAt (parts : list string) (v : value) : record :=
  match parts with
  | [] => []
  | [lastPart] => assign lastPart v []
  | part :: rest => assign part (VObj (nestAt rest v)) []
  end.

(** [createDiffAtPath(path, value)]. *)
Definition createDiffAtPath (path : string) (v : value) : record :=
  nestAt (split path) v.

End Diff.

(** ** Undo/redo manager ([undo.ts]) *)

Module Undo.

(** [s] as a condition: a string is truthy unless absent or empty. *)
Definition truthy (s : option string) : bool :=
  match s with
  | Some s' => negb (String.eqb s' "")
  | None => false
  end.

(** [a === b] on optional strings. *)
Definition sameString (a b : option string) : bool :=
  match a, b with
  | Some x, Some y => String.eqb x y
  | None, None => true
  | _, _ => false
  end.

(** [a ?? b]. *)
Definition orElse {A : Type} (a b : option A) : option A :=
  match a with Some _ => a | None => b end.

(** [stack.pop()]: the remaining stack and the removed top, the top being
    the last element of the array. *)
Definition pop {A : Type} (stack : list A) : option (list A * A) :=
  match rev stack with
  | [] => None
  | top :: below => Some (rev below, top)
  end.

(** Drop the oldest entry ([shift]) when the bound is exceeded. *)
Definition enforceMaxLength {A : Type} (maxLength : Z) (stack : list A)
  : list A :=
  if (Z.of_nat (List.length stack) >? maxLength)%Z then tl stack else stack.

Section Manager.

(** What the reversal procedures act on. *)
Variable World : Type.

(** A reversal procedure: the world it leaves and whether it resolves
    ([true]) or rejects ([false]).  Its effect on the world is taken at the
    moment it is started; its outcome reaches the manager when the awaiting
    call is resumed. *)
Definition procedure : Type := World -> World * bool.

(** [await first(); await second()]. *)
Definition andThen (first second : procedure) : procedure :=
  fun w =>
    let (w1, resolved) := first w in
    if resolved then second w1 else (w1, false).

Record UndoAction : Type := {
  undo : procedure;
  redo : procedure;
  groupId : option string;
  path : option string;
  description : option string
}.

Record UndoManagerConfig : Type := {
  maxLength : Z;
  onNavigate : bool
}.

(** The manager's two stacks, oldest entry first, with the calls it made
    to [onNavigate] and the snapshots [(canUndo, canRedo)] it sent to its
    subscribers. *)
Record Manager : Type := {
  undoStack : list UndoAction;
  redoStack : list UndoAction;
  navigated : list string;
  notified : list (bool * bool)
}.

Definition create : Manager :=
  {| undoStack := []; redoStack := []; navigated := []; notified := [] |}.

Definition nonEmpty {A : Type} (l : list A) : bool :=
  match l with [] => false | _ :: _ => true end.

Definition notify (m : Manager) : Manager :=
  {| undoStack := undoStack m;
     redoStack := redoStack m;
     navigated := navigated m;
     notified := notified m ++ [(nonEmpty (undoStack m), nonEmpty (redoStack m))] |}.

Definition withStacks (m : Manager) (u r : list UndoAction) : Manager :=
  {| undoStack := u; redoStack := r;
     navigated := navigated m; notified := notified m |}.

(** The entry that replaces the top when [action] joins its group. *)
Definition merge (last action : UndoAction) : UndoAction :=
  {| undo := andThen (undo last) (undo action);
     redo := andThen (redo action) (redo last);
     groupId := groupId action;
     path := orElse (path action) (path last);
     description := orElse (description action) (description last) |}.

Definition push (cfg : UndoManagerConfig) (action : UndoAction) (m : Manager)
  : Manager :=
  let plain :=
    notify (withStacks m
              (enforceMaxLength (maxLength cfg) (undoStack m ++ [action])) []) in
  if truthy (groupId action) && nonEmpty (undoStack m) then
    match pop (undoStack m) with
    | Some (below, last) =>
        if sameString (groupId last) (groupId action) then
          notify (withStacks m (below ++ [merge last action]) [])
        else plain
    | None => plain
    end
  else plain.

Definition navigate (cfg : UndoManagerConfig) (action : UndoAction)
  (m : Manager) : Manager :=
  match path action with
  | Some p =>
      if truthy (path action) && onNavigate cfg then
        {| undoStack := undoStack m; redoStack := redoStack m;
           navigated := navigated m ++ [p]; notified := notified m |}
      else m
  | None => m
  end.

(** A call of [undo()] or [redo()] that is suspended at its [await]: the
    entry it popped, whether the call is an [undo()], and whether the
    procedure it awaits resolves. *)
Record Suspended : Type := {
  entry : UndoAction;
  undoing : bool;
  resolves : bool
}.

(** [undo()] up to its [await]: the top entry is popped, [onNavigate] is
    called and the procedure is started.  Nothing is suspended when the
    stack is empty. *)
Definition undoBegin (cfg : UndoManagerConfig) (m : Manager) (w : World)
  : Manager * World * option Suspended :=
  match pop (undoStack m) with
  | None => (m, w, None)
  | Some (below, action) =>
      let m1 := navigate cfg action (withStacks m below (redoStack m)) in
      let (w', resolved) := undo action w in
      (m1, w',
       Some {| entry := action; undoing := true; resolves := resolved |})
  end.

(** [undo()] from its [await] on, run on the stacks as they are by then:
    the manager afterwards, and whether the call resolved ([true]) or
    rethrew the procedure's failure ([false]). *)
Definition undoSettle (call : Suspended) (m : Manager) : Manager * bool :=
  if resolves call then
    (notify (withStacks m (undoStack m) (redoStack m ++ [entry call])), true)
  else
    (withStacks m (undoStack m ++ [entry call]) (redoStack m), false).

(** [redo()] up to its [await]. *)
Definition redoBegin (cfg : UndoManagerConfig) (m : Manager) (w : World)
  : Manager * World * option Suspended :=
  match pop (redoStack m) with
  | None => (m, w, None)
  | Some (below, action) =>
      let m1 := navigate cfg action (withStacks m (undoStack m) below) in
      let (w', resolved) := redo action w in
      (m1, w',
       Some {| entry := action; undoing := false; resolves := resolved |})
  end.

(** [redo()] from its [await] on. *)
Definition redoSettle (cfg : UndoManagerConfig) (call : Suspended)
  (m : Manager) : Manager * bool :=
  if resolves call then
    (notify (withStacks m
               (enforceMaxLength (maxLength cfg) (undoStack m ++ [entry call]))
               (redoStack m)),
     true)
  else
    (withStacks m (undoStack m) (redoStack m ++ [entry call]), false).

Definition settle (cfg : UndoManagerConfig) (call : Suspended) (m : Manager)
  : Manager * bool :=
  if undoing call then undoSettle call m else redoSettle cfg call m.

(** A call that nothing interrupts at its [await]. *)
Definition awaited (cfg : UndoManagerConfig)
  (begun : Manager * World * option Suspended) : Manager * World * bool :=
  match begun with
  | (m, w, None) => (m, w, true)
  | (m, w, Some call) => (fst (settle cfg call m), w, snd (settle cfg call m))
  end.

(** [await undo()], named [undoOnce] because [undo] is the field of an
    action: the manager and world afterwards, and whether the call resolved
    ([true]) or rethrew the procedure's failure ([false]). *)
Definition undoOnce (cfg : UndoManagerConfig) (m : Manager) (w : World)
  : Manager * World * bool :=
  awaited cfg (undoBegin cfg m w).

(** [await redo()], named [redoOnce] for the same reason. *)
Definition redoOnce (cfg : UndoManagerConfig) (m : Manager) (w : World)
  : Manager * World * bool :=
  awaited cfg (redoBegin cfg m w).

Definition clear (m : Manager) : Manager :=
  notify (withStacks m [] []).

(** The calls a client can make, each awaited before the next. *)
Inductive call : Type :=
| Push (action : UndoAction)
| UndoCall
| RedoCall
| Clear.

Definition step (cfg : UndoManagerConfig) (c : call) (mw : Manager * World)
  : Manager * World :=
  match c with
  | Push action => (push cfg action (fst mw), snd mw)
  | UndoCall => fst (undoOnce cfg (fst mw) (snd mw))
  | RedoCall => fst (redoOnce cfg (fst mw) (snd mw))
  | Clear => (clear (fst mw), snd mw)
  end.

Definition run (cfg : UndoManagerConfig) (calls : list call)
  (mw : Manager * World) : Manager * World :=
  fold_left (fun mw c => step cfg c mw) calls mw.

(** What happens to a manager whose callers do not await: a call is made,
    or the procedure awaited by the [n]-th suspended call settles. *)
Inductive event : Type :=
| Called (c : call)
| Settled (n : nat).

(** The list without its [n]-th element. *)
Fixpoint without {A : Type} (n : nat) (l : list A) : list A :=
  match l, n with
  | [], _ => []
  | _ :: rest, O => rest
  | x :: rest, S n' => x :: without n' rest
  end.

(** The manager and the world with the calls that are suspended. *)
Definition Session : Type := Manager * World * list Suspended.

Definition suspend (begun : Manager * World * option Suspended)
  (suspended : list Suspended) : Session :=
  match begun with
  | (m, w, None) => (m, w, suspended)
  | (m, w, Some call) => (m, w, suspended ++ [call])
  end.

Definition occur (cfg : UndoManagerConfig) (e : event) (s : Session)
  : Session :=
  let '(m, w, suspended) := s in
  match e with
  | Called (Push action) => (push cfg action m, w, suspended)
  | Called UndoCall => suspend (undoBegin cfg m w) suspended
  | Called RedoCall => suspend (redoBegin cfg m w) suspended
  | Called Clear => (clear m, w, suspended)
  | Settled n =>
      match nth_error suspended n with
      | Some call => (fst (settle cfg call m), w, without n suspended)
      | None => s
      end
  end.

Definition interleave (cfg : UndoManagerConfig) (events : list event)
  (s : Session) : Session :=
  fold_left (fun s e => occur cfg e s) events s.

End Manager.

Arguments undo {World} _.
Arguments redo {World} _.
Arguments groupId {World} _.
Arguments path {World} _.
Arguments description {World} _.
Arguments undoStack {World} _.
Arguments redoStack {World} _.
Arguments navigated {World} _.
Arguments notified {World} _.
Arguments create {World}.
Arguments push {World} cfg action m.
Arguments undoOnce {World} cfg m w.
Arguments redoOnce {World} cfg m w.
Arguments entry {World} _.
Arguments undoing {World} _.
Arguments resolves {World} _.
Arguments undoBegin {World} cfg m w.
Arguments undoSettle {World} call m.
Arguments redoBegin {World} cfg m w.
Arguments redoSettle {World} cfg call m.
Arguments settle {World} cfg call m.
Arguments Called {World} c.
Arguments Settled {World} n.
Arguments occur {World} cfg e s.
Arguments interleave {World} cfg events s.
Arguments clear {World} m.
Arguments merge {World} last action.
Arguments Push {World} action.
Arguments UndoCall {World}.
Arguments RedoCall {World}.
Arguments Clear {World}.
Arguments step {World} cfg c mw.
Arguments run {World} cfg calls mw.

End Undo.

(** ** Shared types ([types.ts]) *)

Module Types.

Record UpdateOptions : Type := {
  undoable : option bool;
  undoGroupId : option string
}.

(** The default [{}]. *)
Definition noOptions : UpdateOptions :=
  {| undoable := None; undoGroupId := None |}.

(** [{ undoable: false }]. *)
Definition notUndoable : UpdateOptions :=
  {| undoable := Some false; undoGroupId := None |}.

(** [options?.undoable !== false]. *)
Definition undoEnabled (options : option UpdateOptions) : bool :=
  match options with
  | Some o => match undoable o with Some false => false | _ => true end
  | None => true
  end.

Record ErrorContext : Type := {
  type : string;
  path : string;
  operation : string
}.

End Types.

(** ** Store ([store.ts]) *)

Module Store.

Import Types.

Record FirestateConfig : Type := {
  autosave : option Z;
  minLoadTime : option Z;
  maxUndoLength : option Z;
  onError : bool
}.

(** [value ?? fallback] for a numeric option with a default. *)
Definition orDefault (v : option Z) (fallback : Z) : Z :=
  match v with Some z => z | None => fallback end.

(** The configuration [createStore] hands to [createUndoManager]. *)
Definition undoConfig (config : FirestateConfig) : Undo.UndoManagerConfig :=
  {| Undo.maxLength := orDefault (maxUndoLength config) 20;
     Undo.onNavigate := false |}.

(** What the store does to the outside: a subscriber called with the
    aggregate, the configured error handler called, or the error written to
    the console. *)
Inductive effect : Type :=
| Delivered (subscriber : nat) (isSynced : bool)
| HandledError (message : string) (context : ErrorContext)
| LoggedError (text : string) (message : string).

(** The two collections of the closure: [syncStates], a map in insertion
    order, and [syncSubscribers], a set of callbacks in insertion order; a
    callback is known by a number. *)
Record State : Type := {
  syncStates : list (string * bool);
  syncSubscribers : list nat
}.

Definition create : State := {| syncStates := []; syncSubscribers := [] |}.

(** [map.get(key)]. *)
Fixpoint get (key : string) (m : list (string * bool)) : option bool :=
  match m with
  | [] => None
  | (k, b) :: rest => if String.eqb key k then Some b else get key rest
  end.

(** [map.set(key, b)]. *)
Fixpoint set (key : string) (b : bool) (m : list (string * bool))
  : list (string * bool) :=
  match m with
  | [] => [(key, b)]
  | (k, b') :: rest =>
      if String.eqb key k then (key, b) :: rest else (k, b') :: set key b rest
  end.

(** [set.add(fn)]. *)
Definition add (fn : nat) (s : list nat) : list nat :=
  if existsb (Nat.eqb fn) s then s else s ++ [fn].

(** [set.delete(fn)]. *)
Definition delete (fn : nat) (s : list nat) : list nat :=
  filter (fun g => negb (Nat.eqb fn g)) s.

(** The loop of [computeIsSynced] over [syncStates.values()]. *)
Fixpoint allSynced (values : list bool) : bool :=
  match values with
  | [] => true
  | synced :: rest => if negb synced then false else allSynced rest
  end.

Definition computeIsSynced (st : State) : bool :=
  allSynced (map snd (syncStates st)).

Definition notifySyncSubscribers (st : State) : list effect :=
  map (fun fn => Delivered fn (computeIsSynced st)) (syncSubscribers st).

(** [prev !== isSynced] where [prev] may be [undefined]. *)
Definition differs (prev : option bool) (isSynced : bool) : bool :=
  match prev with
  | Some p => negb (Bool.eqb p isSynced)
  | None => true
  end.

Definition reportSyncState (key : string) (isSynced : bool) (st : State)
  : State * list effect :=
  if differs (get key (syncStates st)) isSynced then
    let st' := {| syncStates := set key isSynced (syncStates st);
                  syncSubscribers := syncSubscribers st |} in
    (st', notifySyncSubscribers st')
  else (st, []).

Definition subscribeToSyncState (fn : nat) (st : State)
  : State * list effect :=
  ({| syncStates := syncStates st;
      syncSubscribers := add fn (syncSubscribers st) |},
   [Delivered fn (computeIsSynced st)]).

(** The function [subscribeToSyncState] returns. *)
Definition unsubscribe (fn : nat) (st : State) : State :=
  {| syncStates := syncStates st;
     syncSubscribers := delete fn (syncSubscribers st) |}.

Definition reportError (config : FirestateConfig) (message : string)
  (context : ErrorContext) : list effect :=
  if onError config then [HandledError message context]
  else
    [LoggedError
       ("Firestate error in " ++ type context ++ " " ++ path context ++
        " during " ++ operation context ++ ":")%string
       message].

End Store.

(** ** Document subscription ([document.ts]) *)

Module Document.

Import Js Diff Types.

(** The closures handed to [onPushUndo], by the call they make. *)
Inductive command : Type :=
| CallUpdateState (diff : value) (options : UpdateOptions)
| CallSetData (data : record) (options : UpdateOptions)
| CallDeleteDocument (options : UpdateOptions).

(** What a call does to the outside, in order. *)
Inductive effect : Type :=
| Notified (data : option record) (isLoading isSynced : bool)
    (error : option string)
| ReportedSyncState (syncKey : string) (isSynced : bool)
| PushedUndo (undoAction redoAction : command)
    (options : option UpdateOptions)
| SetDoc (data : record)
| UpdateDoc (flatDiff : record)
| DeleteDoc
| ReportedError (message : string) (context : ErrorContext).

(** The options and definition a subscription is created with. *)
Record DocumentOptions : Type := {
  isReadOnly : bool;
  autosave : Z;
  onPushUndo : bool;
  collectionPath : string;
  documentId : string;
  retryOnError : bool
}.

(** [DocumentInternalState] together with the variables of the closure:
    [autosavePending] and [retryPending] say whether the autosave and the
    retry timer are armed. *)
Record State : Type := {
  syncState : option record;
  localState : option record;
  isLoading : bool;
  error : option string;
  waitingForUpdate : bool;
  inflightLocalState : option record;
  pendingUndoOptions : option UpdateOptions;
  isSetOperation : bool;
  autosavePending : bool;
  retryPending : bool;
  minLoadTimeElapsed : bool;
  loaded : bool
}.

Definition initial : State :=
  {| syncState := None; localState := None; isLoading := true;
     error := None; waitingForUpdate := false; inflightLocalState := None;
     pendingUndoOptions := None; isSetOperation := false;
     autosavePending := false; retryPending := false;
     minLoadTimeElapsed := false; loaded := false |}.

Section Subscription.

Variable sameInstance : value -> value -> bool.
Variable options : DocumentOptions.

Definition syncKey : string :=
  ("doc:" ++ collectionPath options ++ "/" ++ documentId options)%string.

Definition documentPath : string :=
  (collectionPath options ++ "/" ++ documentId options)%string.

Definition getMergedData (st : State) : option record :=
  match localState st with
  | Some l => Some l
  | None => syncState st
  end.

Definition isSynced (st : State) : bool :=
  match localState st with Some _ => false | None => true end.

Definition notify (st : State) : list effect :=
  [Notified (getMergedData st) (isLoading st) (isSynced st) (error st);
   ReportedSyncState syncKey (isSynced st)].

Definition scheduleAutosave (st : State) : State :=
  {| syncState := syncState st; localState := localState st;
     isLoading := isLoading st; error := error st;
     waitingForUpdate := waitingForUpdate st;
     inflightLocalState := inflightLocalState st;
     pendingUndoOptions := pendingUndoOptions st;
     isSetOperation := isSetOperation st;
     autosavePending := (autosave options >? 0)%Z;
     retryPending := retryPending st;
     minLoadTimeElapsed := minLoadTimeElapsed st; loaded := loaded st |}.

(** The three fields an edit writes. *)
Definition withEdit (st : State) (l : option record)
  (o : option UpdateOptions) (isSet : bool) : State :=
  {| syncState := syncState st; localState := l;
     isLoading := isLoading st; error := error st;
     waitingForUpdate := waitingForUpdate st;
     inflightLocalState := inflightLocalState st;
     pendingUndoOptions := o;
     isSetOperation := isSet;
     autosavePending := autosavePending st;
     retryPending := retryPending st;
     minLoadTimeElapsed := minLoadTimeElapsed st; loaded := loaded st |}.

(** The fields the write path maintains. *)
Definition withFlight (st : State) (l : option record) (waiting : bool)
  (inflight : option record) : State :=
  {| syncState := syncState st; localState := l;
     isLoading := isLoading st; error := error st;
     waitingForUpdate := waiting;
     inflightLocalState := inflight;
     pendingUndoOptions := pendingUndoOptions st;
     isSetOperation := isSetOperation st;
     autosavePending := autosavePending st;
     retryPending := retryPending st;
     minLoadTimeElapsed := minLoadTimeElapsed st; loaded := loaded st |}.

Definition updateState (now : Z * Z) (diff : value)
  (undoOptions : UpdateOptions) (st : State) : State * list effect :=
  if isReadOnly options then (st, [])
  else
    match getMergedData st with
    | None => (st, [])
    | Some currentData =>
        let newLocalState :=
          applyDiffMutable now (cloneRecord currentData) diff in
        let st' := withEdit st (Some newLocalState) (Some undoOptions) false in
        (scheduleAutosave st', notify st')
    end.

Definition setData (data : record) (undoOptions : UpdateOptions) (st : State)
  : State * list effect :=
  if isReadOnly options then (st, [])
  else
    let st' := withEdit st (Some (cloneRecord data)) (Some undoOptions) true in
    (scheduleAutosave st', notify st').

(** [deleteDocument] up to the point where it awaits [deleteDoc]. *)
Definition deleteDocument (undoOptions : UpdateOptions) (st : State)
  : State * list effect :=
  if isReadOnly options then (st, [])
  else
    (st,
     match getMergedData st with
     | Some currentData =>
         if undoEnabled (Some undoOptions) && onPushUndo options then
           [PushedUndo (CallSetData (cloneRecord currentData) notUndoable)
              (CallDeleteDocument notUndoable) (Some undoOptions)]
         else []
     | None => []
     end ++ [DeleteDoc]).

Definition writeContext : ErrorContext :=
  {| type := "document"; path := documentPath; operation := "write" |}.

(** The [catch] of [deleteDocument]. *)
Definition deleteRejected (message : string) (st : State)
  : State * list effect :=
  (st, [ReportedError message writeContext]).

(** [sync] up to the point where it awaits the write it dispatched. *)
Definition sync (st : State) : State * list effect :=
  match localState st, syncState st with
  | Some l, Some s =>
      if isDeepEqual sameInstance (VObj l) (VObj s) then
        let st' := withFlight st None (waitingForUpdate st) None in
        (st', notify st')
      else
        let diff := computeDiff sameInstance s (Some l) in
        let currentUndoOptions := pendingUndoOptions st in
        let pushed :=
          if undoEnabled currentUndoOptions && onPushUndo options then
            let undoDiff := computeDiff sameInstance l (Some s) in
            [PushedUndo (CallUpdateState undoDiff notUndoable)
               (CallUpdateState diff notUndoable) currentUndoOptions]
          else [] in
        let wasSetOperation := isSetOperation st in
        let st' :=
          withEdit (withFlight st (Some l) true (Some (cloneRecord l)))
            (Some l) None false in
        (st',
         pushed ++
         [if wasSetOperation then SetDoc l
          else UpdateDoc (flattenDiff diff "")])
  | _, _ => (st, [])
  end.

(** The [catch] of [sync]: the awaited write was rejected. *)
Definition writeRejected (message : string) (st : State)
  : State * list effect :=
  (withFlight st (localState st) false None,
   [ReportedError message writeContext]).

(** The autosave timer fires. *)
Definition autosaveFires (st : State) : State * list effect :=
  if autosavePending st then
    sync {| syncState := syncState st; localState := localState st;
            isLoading := isLoading st; error := error st;
            waitingForUpdate := waitingForUpdate st;
            inflightLocalState := inflightLocalState st;
            pendingUndoOptions := pendingUndoOptions st;
            isSetOperation := isSetOperation st;
            autosavePending := false;
            retryPending := retryPending st;
            minLoadTimeElapsed := minLoadTimeElapsed st;
            loaded := loaded st |}
  else (st, []).

Definition handleSnapshot (now : Z * Z) (newSyncData : record) (st : State)
  : State * list effect :=
  let st' :=
    {| syncState := Some newSyncData;
       localState :=
         if waitingForUpdate st then
           match inflightLocalState st, localState st with
           | Some inflightState, Some currentLocal =>
               if negb (isDeepEqual sameInstance (VObj currentLocal)
                          (VObj inflightState))
               then
                 let changesSinceInflight :=
                   computeDiff sameInstance inflightState (Some currentLocal) in
                 Some (applyDiffMutable now (cloneRecord newSyncData)
                         changesSinceInflight)
               else None
           | _, _ => None
           end
         else localState st;
       isLoading := if minLoadTimeElapsed st then false else isLoading st;
       error := error st;
       waitingForUpdate := false;
       inflightLocalState :=
         if waitingForUpdate st then None else inflightLocalState st;
       pendingUndoOptions := pendingUndoOptions st;
       isSetOperation := isSetOperation st;
       autosavePending := autosavePending st;
       retryPending := retryPending st;
       minLoadTimeElapsed := minLoadTimeElapsed st;
       loaded := true |} in
  (st', notify st').

Definition readContext : ErrorContext :=
  {| type := "document"; path := documentPath; operation := "read" |}.

(** The listener's error callback. *)
Definition handleError (message : string) (st : State)
  : State * list effect :=
  let st' :=
    {| syncState := syncState st; localState := localState st;
       isLoading := isLoading st;
       error := if retryOnError options then error st else Some message;
       waitingForUpdate := waitingForUpdate st;
       inflightLocalState := inflightLocalState st;
       pendingUndoOptions := pendingUndoOptions st;
       isSetOperation := isSetOperation st;
       autosavePending := autosavePending st;
       retryPending := if retryOnError options then true else retryPending st;
       minLoadTimeElapsed := minLoadTimeElapsed st; loaded := loaded st |} in
  if retryOnError options then (st', [])
  else (st', ReportedError message readContext :: notify st').

(** The callback [start] hands to [onSnapshot]; [snapshot = None] is a
    snapshot of a document that does not exist. *)
Definition snapshotCallback (now : Z * Z) (snapshot : option record)
  (fromCache : bool) (st : State) : State * list effect :=
  match snapshot with
  | Some data => handleSnapshot now data st
  | None =>
      if negb fromCache then handleError "Document not found" st
      else (st, [])
  end.

(** The timer [start] sets for the minimum load time fires. *)
Definition minLoadTimeFires (st : State) : State * list effect :=
  let st' :=
    {| syncState := syncState st; localState := localState st;
       isLoading := if loaded st then false else isLoading st;
       error := error st;
       waitingForUpdate := waitingForUpdate st;
       inflightLocalState := inflightLocalState st;
       pendingUndoOptions := pendingUndoOptions st;
       isSetOperation := isSetOperation st;
       autosavePending := autosavePending st;
       retryPending := retryPending st;
       minLoadTimeElapsed := true; loaded := loaded st |} in
  (st', if loaded st then notify st' else []).

End Subscription.

End Document.

(** ** Collection subscription ([collection.ts]) *)

Module Collection.

Import Js Diff Types.

Inductive command : Type :=
| CallUpdateState (diff : value) (options : UpdateOptions).

(** One operation of a write batch. *)
Inductive batchOp : Type :=
| BatchDelete (docId : string)
| BatchSet (docId : string) (data : value)
| BatchUpdate (docId : string) (flatDiff : record).

Inductive effect : Type :=
| Notified (data : record) (isLoading isSynced isActive : bool)
    (error : option string)
| ReportedSyncState (syncKey : string) (isSynced : bool)
| PushedUndo (undoAction redoAction : command)
    (options : option UpdateOptions)
| Committed (batch : list batchOp)
| ReportedError (message : string) (context : ErrorContext).

Record CollectionOptions : Type := {
  isReadOnly : bool;
  autosave : Z;
  onPushUndo : bool;
  collectionPath : string;
  lazy : bool
}.

Record State : Type := {
  syncState : option record;
  localState : option record;
  isLoading : bool;
  isActive : bool;
  error : option string;
  waitingForUpdate : bool;
  inflightLocalState : option record;
  pendingUndoOptions : option UpdateOptions;
  autosavePending : bool;
  minLoadTimeElapsed : bool;
  loaded : bool
}.

(** [docData.id = docId] for every entry that is a non-null object.  Only
    a plain object can show the property in this embedding. *)
Definition stampIds (r : record) : record :=
  map (fun entry =>
         match snd entry with
         | VObj docData =>
             (fst entry, VObj (assign "id" (VStr (fst entry)) docData))
         | _ => entry
         end) r.

(** [{ ...data, id }]. *)
Definition withId (id : string) (data : record) : value :=
  VObj (assign "id" (VStr id) data).

Section Subscription.

Variable sameInstance : value -> value -> bool.
Variable options : CollectionOptions.

Definition initial : State :=
  {| syncState := None; localState := None;
     isLoading := negb (lazy options); isActive := negb (lazy options);
     error := None; waitingForUpdate := false; inflightLocalState := None;
     pendingUndoOptions := None; autosavePending := false;
     minLoadTimeElapsed := false; loaded := false |}.

Definition syncKey : string := ("col:" ++ collectionPath options)%string.

Definition getMergedData (st : State) : record :=
  match localState st with
  | Some l => l
  | None => match syncState st with Some s => s | None => [] end
  end.

Definition isSynced (st : State) : bool :=
  match localState st with Some _ => false | None => true end.

Definition notify (st : State) : list effect :=
  [Notified (getMergedData st) (isLoading st) (isSynced st) (isActive st)
     (error st);
   ReportedSyncState syncKey (isSynced st)].

(** An edit: the new local state and its undo options are stored and the
    autosave timer is armed again ([scheduleAutosave]). *)
Definition edited (st : State) (l : record) (o : UpdateOptions) : State :=
  {| syncState := syncState st; localState := Some l;
     isLoading := isLoading st; isActive := isActive st; error := error st;
     waitingForUpdate := waitingForUpdate st;
     inflightLocalState := inflightLocalState st;
     pendingUndoOptions := Some o;
     autosavePending := (autosave options >? 0)%Z;
     minLoadTimeElapsed := minLoadTimeElapsed st; loaded := loaded st |}.

Definition notifyEdit (st : State) (l : record) (o : UpdateOptions)
  : list effect :=
  [Notified l (isLoading st) false (isActive st) (error st);
   ReportedSyncState syncKey false].

Definition updateState (now : Z * Z) (diff : value)
  (undoOptions : UpdateOptions) (st : State) : State * list effect :=
  if isReadOnly options then (st, [])
  else
    let currentData := getMergedData st in
    let newLocalState :=
      stampIds (applyDiffMutable now (cloneRecord currentData) diff) in
    (edited st newLocalState undoOptions,
     notifyEdit st newLocalState undoOptions).

Definition addDocument (id : string) (data : record)
  (undoOptions : UpdateOptions) (st : State) : State * list effect :=
  if isReadOnly options then (st, [])
  else
    let currentData := getMergedData st in
    let newLocalState := assign id (withId id data) (cloneRecord currentData) in
    (edited st newLocalState undoOptions,
     notifyEdit st newLocalState undoOptions).

Definition removeDocument (id : string) (undoOptions : UpdateOptions)
  (st : State) : State * list effect :=
  if isReadOnly options then (st, [])
  else
    let currentData := getMergedData st in
    if negb (isIn id currentData) then (st, [])
    else
      let newLocalState := remove id (cloneRecord currentData) in
      (edited st newLocalState undoOptions,
       notifyEdit st newLocalState undoOptions).

(** The fields the write path maintains. *)
Definition withFlight (st : State) (l : option record) (waiting : bool)
  (inflight : option record) (o : option UpdateOptions) : State :=
  {| syncState := syncState st; localState := l;
     isLoading := isLoading st; isActive := isActive st; error := error st;
     waitingForUpdate := waiting;
     inflightLocalState := inflight;
     pendingUndoOptions := o;
     autosavePending := autosavePending st;
     minLoadTimeElapsed := minLoadTimeElapsed st; loaded := loaded st |}.

(** The batch operation for one key of the outbound diff. *)
Definition batchFor (s : record) (docId : string) (docDiff : value) : batchOp :=
  match docDiff with
  | VDeleteField => BatchDelete docId
  | _ =>
      if negb (isIn docId s) then BatchSet docId docDiff
      else BatchUpdate docId (flattenDiff docDiff "")
  end.

(** [sync] up to the point where it awaits [batch.commit()]. *)
Definition sync (st : State) : State * list effect :=
  match localState st, syncState st with
  | Some l, Some s =>
      if isDeepEqual sameInstance (VObj l) (VObj s) then
        let st' :=
          withFlight st None (waitingForUpdate st) None
            (pendingUndoOptions st) in
        (st', notify st')
      else
        let diff := computeDiff sameInstance s (Some l) in
        let currentUndoOptions := pendingUndoOptions st in
        let pushed :=
          if undoEnabled currentUndoOptions && onPushUndo options then
            let undoDiff := computeDiff sameInstance l (Some s) in
            [PushedUndo (CallUpdateState undoDiff notUndoable)
               (CallUpdateState diff notUndoable) currentUndoOptions]
          else [] in
        (withFlight st (Some l) true (Some (cloneRecord l)) None,
         pushed ++
         [Committed (map (fun e => batchFor s (fst e) (snd e)) (entries diff))])
  | _, _ => (st, [])
  end.

Definition writeContext : ErrorContext :=
  {| type := "collection"; path := collectionPath options;
     operation := "write" |}.

(** The [catch] of [sync]: the batch was rejected. *)
Definition writeRejected (message : string) (st : State)
  : State * list effect :=
  (withFlight st (localState st) false None (pendingUndoOptions st),
   [ReportedError message writeContext]).

(** The keyed state built from the documents of a snapshot. *)
Definition ingest (docs : list (string * record)) : record :=
  fold_left (fun acc d => assign (fst d) (withId (fst d) (snd d)) acc) docs [].

Definition handleSnapshot (now : Z * Z) (docs : list (string * record))
  (st : State) : State * list effect :=
  let newSyncState := ingest docs in
  let st' :=
    {| syncState := Some newSyncState;
       localState :=
         if waitingForUpdate st then
           match inflightLocalState st, localState st with
           | Some inflightState, Some currentLocal =>
               if negb (isDeepEqual sameInstance (VObj currentLocal)
                          (VObj inflightState))
               then
                 let changesSinceInflight :=
                   computeDiff sameInstance inflightState (Some currentLocal) in
                 Some (stampIds
                         (applyDiffMutable now (cloneRecord newSyncState)
                            changesSinceInflight))
               else None
           | _, _ => None
           end
         else localState st;
       isLoading := if minLoadTimeElapsed st then false else isLoading st;
       isActive := isActive st;
       error := error st;
       waitingForUpdate := false;
       inflightLocalState :=
         if waitingForUpdate st then None else inflightLocalState st;
       pendingUndoOptions := pendingUndoOptions st;
       autosavePending := autosavePending st;
       minLoadTimeElapsed := minLoadTimeElapsed st;
       loaded := true |} in
  (st', notify st').

End Subscription.

End Collection.

(** * Vocabulary of the properties *)

Import Js Diff Types.

(** An oracle under which no two objects are ever the same instance. *)
Definition distinctInstances : value -> value -> bool := fun _ _ => false.

Definition epoch : Z * Z := (0%Z, 0%Z).

Definition docOptions : Document.DocumentOptions :=
  {| Document.isReadOnly := false; Document.autosave := 1000;
     Document.onPushUndo := true; Document.collectionPath := "projects";
     Document.documentId := "p1"; Document.retryOnError := false |}.


Definition isWrite (e : Document.effect) : bool :=
  match e with
  | Document.SetDoc _ | Document.UpdateDoc _ | Document.DeleteDoc => true
  | _ => false
  end.

Definition isPush (e : Document.effect) : bool :=
  match e with
  | Document.PushedUndo _ _ _ => true
  | _ => false
  end.

(** One optimistic edit: the clock reading, the diff and its options. *)
Definition edit : Type := (Z * Z) * value * UpdateOptions.

(** Several [update()] calls in a row, with everything they did. *)
Fixpoint updateAll (options : Document.DocumentOptions) (edits : list edit)
  (st : Document.State) : Document.State * list Document.effect :=
  match edits with
  | [] => (st, [])
  | (now, diff, o) :: rest =>
      let r := Document.updateState options now diff o st in
      let r' := updateAll options rest (fst r) in
      (fst r', snd r ++ snd r')
  end.

(** The merged value after the same edits. *)
Fixpoint applyEdits (edits : list edit) (current : record) : record :=
  match edits with
  | [] => current
  | (now, diff, _) :: rest =>
      applyEdits rest (applyDiffMutable now (cloneRecord current) diff)
  end.

Definition coalesceStart : Document.State :=
  fst (Document.handleSnapshot distinctInstances docOptions epoch
         [("name", VStr "Foo"); ("count", VNum 5)] Document.initial).

Definition unsyncedDocument : Document.State :=
  fst (Document.updateState docOptions epoch
         (VObj [("name", VStr "Bar")]) noOptions coalesceStart).

(** The undo stack respects the configured bound. *)
Definition bounded (World : Type) (cfg : Undo.UndoManagerConfig)
  (m : Undo.Manager World) : Prop :=
  (Z.of_nat (List.length (Undo.undoStack m)) <= Undo.maxLength cfg)%Z.

Definition traced (name : string) (group : option string)
  : Undo.UndoAction (list string) :=
  {| Undo.undo := fun w => (w ++ [("undo " ++ name)%string], true);
     Undo.redo := fun w => (w ++ [("redo " ++ name)%string], true);
     Undo.groupId := group;
     Undo.path := None;
     Undo.description := Some name |}.

Definition boundThree : Undo.UndoManagerConfig :=
  {| Undo.maxLength := 3; Undo.onNavigate := false |}.

(** A manager whose undo stack is full under [boundThree], with one
    entry to redo. *)
Definition fullStack : Undo.Manager (list string) :=
  {| Undo.undoStack := [traced "0" None; traced "1" None; traced "2" None];
     Undo.redoStack := [traced "3" None];
     Undo.navigated := [];
     Undo.notified := [] |}.

(** The closure behind a command, as a reversal procedure on the state of
    the document subscription that created it. *)
Definition perform (options : Document.DocumentOptions) (now : Z * Z)
  (c : Document.command) : Undo.procedure Document.State :=
  fun st =>
    match c with
    | Document.CallUpdateState diff o =>
        (fst (Document.updateState options now diff o st), true)
    | Document.CallSetData data o =>
        (fst (Document.setData options data o st), true)
    | Document.CallDeleteDocument o =>
        (fst (Document.deleteDocument options o st), true)
    end.

(** [onPushUndo] as [useDocument] wires it to the undo manager: every
    pushed pair becomes an action grouped by [undoGroupId]. *)
Definition pushAll (options : Document.DocumentOptions) (now : Z * Z)
  (cfg : Undo.UndoManagerConfig) (effects : list Document.effect)
  (m : Undo.Manager Document.State) : Undo.Manager Document.State :=
  fold_left
    (fun m e =>
       match e with
       | Document.PushedUndo undoAction redoAction o =>
           Undo.push cfg
             {| Undo.undo := perform options now undoAction;
                Undo.redo := perform options now redoAction;
                Undo.groupId :=
                  match o with Some o' => undoGroupId o' | None => None end;
                Undo.path := None;
                Undo.description := None |} m
       | _ => m
       end) effects m.

(** Two flushes of one document in one undo group: the name goes from
    ["A"] to ["B"] and, after the confirming snapshot, to ["C"]. *)
Definition twoGroupedFlushes
  : Document.State * Undo.Manager Document.State :=
  let grouped := {| undoable := None; undoGroupId := Some "g" |} in
  let snapshot name st :=
    fst (Document.handleSnapshot distinctInstances docOptions epoch
           [("name", VStr name)] st) in
  let edit name st :=
    fst (Document.updateState docOptions epoch
           (VObj [("name", VStr name)]) grouped st) in
  let flush (sm : Document.State * Undo.Manager Document.State) :=
    let r := Document.sync distinctInstances docOptions (fst sm) in
    (fst r, pushAll docOptions epoch boundThree (snd r) (snd sm)) in
  let s1 := flush (edit "B" (snapshot "A" Document.initial), Undo.create) in
  let s2 := flush (edit "C" (snapshot "B" (fst s1)), snd s1) in
  (snapshot "C" (fst s2), snd s2).

(** Pairwise distinct keys. *)
Fixpoint distinct (ks : list string) : bool :=
  match ks with
  | [] => true
  | k :: rest => negb (existsb (String.eqb k) rest) && distinct rest
  end.

(** Firestore data: no sentinel anywhere and, in every record, pairwise
    distinct keys. *)
Fixpoint isData (v : value) : bool :=
  match v with
  | VDeleteField | VServerTimestamp => false
  | VArr items => forallb isData items
  | VObj fs => distinct (keys fs) && forallb (fun kv => isData (snd kv)) fs
  | VNull | VBool _ | VNum _ | VStr _ | VTimestamp _ _ => true
  end.

(** A value that holds no [NaN], at any depth. *)
Fixpoint finite (v : value) : bool :=
  match v with
  | VNum NaN => false
  | VArr items => forallb finite items
  | VObj fs => forallb (fun kv => finite (snd kv)) fs
  | _ => true
  end.



(** One step of the first loop of [computeDiff]. *)
Definition changedStep (sameInstance : value -> value -> bool) (from : value)
  (diff : record) (entry : string * value) : record :=
  let fromValue := getProp from (fst entry) in
  match snd entry with
  | VArr _ =>
      if isDeepEqualU sameInstance fromValue (snd entry) then diff
      else assign (fst entry) (snd entry) diff
  | VObj _ =>
      if isDeepEqualU sameInstance fromValue (snd entry) then diff
      else
        let nestedDiff :=
          computeDiffValue sameInstance (orEmpty fromValue) (snd entry) in
        if isDiffEmpty nestedDiff then diff
        else assign (fst entry) (VObj nestedDiff) diff
  | _ =>
      if strictEqU sameInstance fromValue (snd entry) then diff
      else assign (fst entry) (snd entry) diff
  end.

(** One step of [applyDiffMutable]. *)
Definition applyStep (now : Z * Z) (target : record) (entry : string * value)
  : record :=
  match snd entry with
  | VDeleteField => remove (fst entry) target
  | VServerTimestamp =>
      assign (fst entry) (VTimestamp (fst now) (snd now)) target
  | VObj _ =>
      let existing :=
        match lookup (fst entry) target with
        | Some (VObj e) => e
        | _ => []
        end in
      assign (fst entry) (VObj (applyDiffValue now existing (snd entry))) target
  | _ => assign (fst entry) (snd entry) target
  end.

Section ValueInduction.

Variable P : value -> Prop.
Hypothesis Hnull : P VNull.
Hypothesis Hbool : forall b, P (VBool b).
Hypothesis Hnum : forall n, P (VNum n).
Hypothesis Hstr : forall s, P (VStr s).
Hypothesis Hts : forall s n, P (VTimestamp s n).
Hypothesis Hdel : P VDeleteField.
Hypothesis Hserver : P VServerTimestamp.
Hypothesis Harr : forall items, Forall P items -> P (VArr items).
Hypothesis Hobj :
  forall fields, Forall (fun kv => P (snd kv)) fields -> P (VObj fields).

Fixpoint value_induction (v : value) : P v :=
  match v with
  | VNull => Hnull
  | VBool b => Hbool b
  | VNum n => Hnum n
  | VStr s => Hstr s
  | VTimestamp s n => Hts s n
  | VDeleteField => Hdel
  | VServerTimestamp => Hserver
  | VArr items =>
      Harr items
        ((fix all (l : list value) : Forall P l :=
            match l with
            | [] => Forall_nil P
            | x :: l' => Forall_cons x (value_induction x) (all l')
            end) items)
  | VObj fields =>
      Hobj fields
        ((fix all (l : record) : Forall (fun kv => P (snd kv)) l :=
            match l with
            | [] => Forall_nil _
            | kv :: l' => Forall_cons kv (value_induction (snd kv)) (all l')
            end) fields)
  end.

End ValueInduction.

(** A value that [applyDiffMutable] stores as it is. *)
Definition storedAsIs (v : value) : Prop :=
  match v with
  | VObj _ | VDeleteField | VServerTimestamp => False
  | _ => True
  end.

Fixpoint dotFree (s : string) : bool :=
  match s with
  | EmptyString => true
  | String c s' => negb (Ascii.eqb c "."%char) && dotFree s'
  end.

(** A field name that survives as one segment of a dotted path. *)
Definition pathKey (k : string) : bool :=
  negb (String.eqb k "") && dotFree k.

(** A diff whose flattened form determines it: in every record the keys
    are pairwise distinct, non-empty and free of dots, and no nested record
    is empty. *)
Fixpoint flattenable (v : value) : bool :=
  match v with
  | VObj fs =>
      distinct (keys fs) && forallb pathKey (keys fs) &&
      forallb (fun kv =>
                 match snd kv with
                 | VObj [] => false
                 | VObj _ => flattenable (snd kv)
                 | _ => true
                 end) fs
  | _ => true
  end.

(** The path of [key] under [prefix], as [flattenDiff] builds it. *)
Definition extend (prefix key : string) : string :=
  if String.eqb prefix "" then key else (prefix ++ "." ++ key)%string.

(** The dotted path of a list of segments. *)
Definition joinPath (parts : list string) : string :=
  fold_left extend parts "".

(** The leaves of a diff with the segments of their paths. *)
Fixpoint leaves (v : value) (pre : list string) {struct v}
  : list (list string * value) :=
  match v with
  | VObj fs =>
      flat_map (fun kv =>
                  match snd kv with
                  | VObj _ => leaves (snd kv) (pre ++ [fst kv])
                  | _ => [(pre ++ [fst kv], snd kv)]
                  end) fs
  | _ => []
  end.

(** [unflattenDiff] on paths that are already split. *)
Fixpoint insertAll (es : list (list string * value)) (result : record)
  : attempt record :=
  match es with
  | [] => Ok result
  | (parts, v) :: rest =>
      match setPath parts v result with
      | Ok result' => insertAll rest result'
      | Throws => Throws
      | Unmodelled => Unmodelled
      end
  end.

(** One step of [flattenDiff]. *)
Definition flattenStep (prefix : string) (result : record)
  (entry : string * value) : record :=
  match snd entry with
  | VObj _ =>
      assignAll result (flattenValue (snd entry) (extend prefix (fst entry)))
  | _ => assign (extend prefix (fst entry)) (snd entry) result
  end.

(** The entries [flattenDiff] produces for the leaves of a diff. *)
Definition pathEntry (e : list string * value) : string * value :=
  (joinPath (fst e), snd e).

Definition piece (pre : list string) (kv : string * value)
  : list (list string * value) :=
  match snd kv with
  | VObj _ => leaves (snd kv) (pre ++ [fst kv])
  | _ => [(pre ++ [fst kv], snd kv)]
  end.

Definition isDigit (c : ascii) : bool :=
  (48 <=? nat_of_ascii c)%nat && (nat_of_ascii c <=? 57)%nat.

Fixpoint digitsOnly (s : string) : bool :=
  match s with
  | EmptyString => true
  | String c s' => isDigit c && digitsOnly s'
  end.

(** A key under which no string, array, timestamp or sentinel has a
    property of its own. *)
Definition fieldName (k : string) : bool :=
  negb (String.eqb k "length") && negb (String.eqb k "seconds") &&
  negb (String.eqb k "nanoseconds") && negb (String.eqb k "_methodName") &&
  negb (digitsOnly k).


(** A well-formed diff: records with pairwise distinct keys whose leaves
    are sentinels or Firestore data. *)
Fixpoint isDiff (v : value) : bool :=
  match v with
  | VObj fs => distinct (keys fs) && forallb (fun kv => isDiff (snd kv)) fs
  | VDeleteField | VServerTimestamp => true
  | _ => isData v
  end.

(** What the first loop of [computeDiff] stores under [key], if
    anything. *)
Definition changeOf (sameInstance : value -> value -> bool) (from : value)
  (key : string) (toValue : value) : option value :=
  let fromValue := getProp from key in
  match toValue with
  | VArr _ =>
      if isDeepEqualU sameInstance fromValue toValue then None
      else Some toValue
  | VObj _ =>
      if isDeepEqualU sameInstance fromValue toValue then None
      else
        let nestedDiff :=
          computeDiffValue sameInstance (orEmpty fromValue) toValue in
        if isDiffEmpty nestedDiff then None else Some (VObj nestedDiff)
  | _ =>
      if strictEqU sameInstance fromValue toValue then None
      else Some toValue
  end.

(** What [applyDiffMutable] leaves under a key whose diff entry is [dv]
    and whose current value is [current]. *)
Definition appliedValue (now : Z * Z) (dv : value) (current : option value)
  : option value :=
  match dv with
  | VDeleteField => None
  | VServerTimestamp => Some (VTimestamp (fst now) (snd now))
  | VObj _ =>
      Some (VObj (applyDiffValue now
                    match current with Some (VObj e) => e | _ => [] end dv))
  | _ => Some dv
  end.

(** The calls and callbacks a collection subscription receives. *)
Inductive collectionEvent : Type :=
| EvUpdate (now : Z * Z) (diff : value) (options : UpdateOptions)
| EvAdd (id : string) (data : record) (options : UpdateOptions)
| EvRemove (id : string) (options : UpdateOptions)
| EvSnapshot (now : Z * Z) (docs : list (string * record))
| EvSync
| EvWriteRejected (message : string).

(** A per-key diff: under every key a nested diff or the deletion
    sentinel. *)
Definition keyedDiff (diff : value) : bool :=
  forallb (fun kv => match snd kv with
                     | VObj _ | VDeleteField => true
                     | _ => false
                     end) (entries diff).

(** The arguments are what their types say: per-key diffs, and documents
    with pairwise distinct field names. *)
Definition wellTyped (e : collectionEvent) : bool :=
  match e with
  | EvUpdate _ diff _ => keyedDiff diff
  | EvAdd _ data _ => distinct (keys data)
  | EvSnapshot _ docs => forallb (fun d => distinct (keys (snd d))) docs
  | EvRemove _ _ | EvSync | EvWriteRejected _ => true
  end.

Definition collectionStep (sameInstance : value -> value -> bool)
  (options : Collection.CollectionOptions) (st : Collection.State)
  (e : collectionEvent) : Collection.State :=
  match e with
  | EvUpdate now diff o =>
      fst (Collection.updateState options now diff o st)
  | EvAdd id data o => fst (Collection.addDocument options id data o st)
  | EvRemove id o => fst (Collection.removeDocument options id o st)
  | EvSnapshot now docs =>
      fst (Collection.handleSnapshot sameInstance options now docs st)
  | EvSync => fst (Collection.sync sameInstance options st)
  | EvWriteRejected message =>
      fst (Collection.writeRejected options message st)
  end.

Definition collectionRun (sameInstance : value -> value -> bool)
  (options : Collection.CollectionOptions) (events : list collectionEvent)
  : Collection.State :=
  fold_left (collectionStep sameInstance options) events
    (Collection.initial options).

(** Every entry is a record with distinct field names. *)
Definition recordEntries (r : record) : Prop :=
  forall k v, In (k, v) r -> exists fs, v = VObj fs /\ NoDup (keys fs).

(** Every entry is a record whose [id] is its key. *)
Definition stamped (r : record) : Prop :=
  forall k v, In (k, v) r ->
    exists fs, v = VObj fs /\ NoDup (keys fs) /\
               lookup "id" fs = Some (VStr k).

Definition stampedState (st : Collection.State) : Prop :=
  (forall l, Collection.localState st = Some l -> stamped l) /\
  (forall s, Collection.syncState st = Some s -> stamped s).

Definition tasks : Collection.CollectionOptions :=
  {| Collection.isReadOnly := false; Collection.autosave := 1000;
     Collection.onPushUndo := true; Collection.collectionPath := "tasks";
     Collection.lazy := false |}.


Definition taskEvents : list collectionEvent :=
  [EvSnapshot epoch [("t1", [("title", VStr "a"); ("id", VStr "stale")])];
   EvAdd "t2" [("title", VStr "b")] noOptions;
   EvUpdate epoch (VObj [("t1", VObj [("id", VStr "x"); ("done", VBool true)])])
     noOptions;
   EvSync;
   EvUpdate epoch (VObj [("t3", VObj [("title", VStr "c")])]) noOptions;
   EvSnapshot epoch [("t1", [("title", VStr "a"); ("done", VBool true)]);
                     ("t2", [("title", VStr "b")])]].

(** A path whose first segment is empty. *)
Definition startsWithDot (path : string) : bool :=
  match path with
  | String c _ => Ascii.eqb c "."%char
  | EmptyString => false
  end.

(** The segments after the first, each behind its dot. *)
Definition dotted (parts : list string) : string :=
  fold_right (fun part acc => ("." ++ part ++ acc)%string) "" parts.

(** One step of [mergeDiffs]. *)
Definition mergeStep (result : record) (entry : string * value) : record :=
  match lookup (fst entry) result, snd entry with
  | Some (VObj firstValue), VObj _ =>
      assign (fst entry) (VObj (mergeValue firstValue (snd entry))) result
  | _, _ => assign (fst entry) (snd entry) result
  end.


(** The world after the undo procedures of a stack have run, the newest
    entry (the last of the list) first. *)
Definition undoneWorld (World : Type) (stack : list (Undo.UndoAction World))
  (w : World) : World :=
  fold_right (fun action w' => fst (Undo.undo action w')) w stack.

(** The state last sent to the subscribers of an undo manager is the
    current one; a manager that never notified has empty stacks. *)
Definition upToDate (World : Type) (m : Undo.Manager World) : Prop :=
  match rev (Undo.notified m) with
  | [] => Undo.undoStack m = [] /\ Undo.redoStack m = []
  | latest :: _ =>
      latest = (Undo.nonEmpty (Undo.undoStack m),
                Undo.nonEmpty (Undo.redoStack m))
  end.

(** The calls a store receives on its sync tracking. *)
Inductive storeEvent : Type :=
| StoreReport (key : string) (isSynced : bool)
| StoreSubscribe (fn : nat)
| StoreUnsubscribe (fn : nat).

Definition storeStep (st : Store.State) (e : storeEvent)
  : Store.State * list Store.effect :=
  match e with
  | StoreReport key isSynced => Store.reportSyncState key isSynced st
  | StoreSubscribe fn => Store.subscribeToSyncState fn st
  | StoreUnsubscribe fn => (Store.unsubscribe fn st, [])
  end.

(** A sequence of calls, with everything the store did in order. *)
Fixpoint storeRun (events : list storeEvent) (st : Store.State)
  : Store.State * list Store.effect :=
  match events with
  | [] => (st, [])
  | e :: rest =>
      let r := storeStep st e in
      let r' := storeRun rest (fst r) in
      (fst r', snd r ++ snd r')
  end.

(** The value of the last report made for [key], if any. *)
Fixpoint latestReport (key : string) (events : list storeEvent)
  : option bool :=
  match events with
  | [] => None
  | e :: rest =>
      match latestReport key rest with
      | Some b => Some b
      | None =>
          match e with
          | StoreReport k b => if String.eqb key k then Some b else None
          | _ => None
          end
      end
  end.

(** The value a subscriber was last called with, if it was called. *)
Fixpoint lastDelivered (fn : nat) (log : list Store.effect) : option bool :=
  match log with
  | [] => None
  | e :: rest =>
      match lastDelivered fn rest with
      | Some b => Some b
      | None =>
          match e with
          | Store.Delivered g b => if Nat.eqb fn g then Some b else None
          | _ => None
          end
      end
  end.

(** The calls and callbacks a document subscription receives. *)
Inductive documentEvent : Type :=
| DocUpdate (now : Z * Z) (diff : value) (options : UpdateOptions)
| DocSet (data : record) (options : UpdateOptions)
| DocDelete (options : UpdateOptions)
| DocDeleteRejected (message : string)
| DocSync
| DocWriteRejected (message : string)
| DocAutosave
| DocSnapshot (now : Z * Z) (snapshot : option record) (fromCache : bool)
| DocMinLoadTime
| DocError (message : string).

Definition documentStep (sameInstance : value -> value -> bool)
  (options : Document.DocumentOptions) (st : Document.State)
  (e : documentEvent) : Document.State * list Document.effect :=
  match e with
  | DocUpdate now diff o => Document.updateState options now diff o st
  | DocSet data o => Document.setData options data o st
  | DocDelete o => Document.deleteDocument options o st
  | DocDeleteRejected message => Document.deleteRejected options message st
  | DocSync => Document.sync sameInstance options st
  | DocWriteRejected message => Document.writeRejected options message st
  | DocAutosave => Document.autosaveFires sameInstance options st
  | DocSnapshot now snapshot fromCache =>
      Document.snapshotCallback sameInstance options now snapshot fromCache st
  | DocMinLoadTime => Document.minLoadTimeFires options st
  | DocError message => Document.handleError options message st
  end.

(** A sequence of events, with everything the subscription did in
    order. *)
Fixpoint documentRun (sameInstance : value -> value -> bool)
  (options : Document.DocumentOptions) (events : list documentEvent)
  (st : Document.State) : Document.State * list Document.effect :=
  match events with
  | [] => (st, [])
  | e :: rest =>
      let r := documentStep sameInstance options st e in
      let r' := documentRun sameInstance options rest (fst r) in
      (fst r', snd r ++ snd r')
  end.

(** The same for a collection subscription. *)
Definition collectionAct (sameInstance : value -> value -> bool)
  (options : Collection.CollectionOptions) (st : Collection.State)
  (e : collectionEvent) : Collection.State * list Collection.effect :=
  match e with
  | EvUpdate now diff o => Collection.updateState options now diff o st
  | EvAdd id data o => Collection.addDocument options id data o st
  | EvRemove id o => Collection.removeDocument options id o st
  | EvSnapshot now docs =>
      Collection.handleSnapshot sameInstance options now docs st
  | EvSync => Collection.sync sameInstance options st
  | EvWriteRejected message => Collection.writeRejected options message st
  end.

Fixpoint collectionTrace (sameInstance : value -> value -> bool)
  (options : Collection.CollectionOptions) (events : list collectionEvent)
  (st : Collection.State) : Collection.State * list Collection.effect :=
  match events with
  | [] => (st, [])
  | e :: rest =>
      let r := collectionAct sameInstance options st e in
      let r' := collectionTrace sameInstance options rest (fst r) in
      (fst r', snd r ++ snd r')
  end.

Definition isCommit (e : Collection.effect) : bool :=
  match e with
  | Collection.Committed _ | Collection.PushedUndo _ _ _ => true
  | _ => false
  end.

(** The store after the sync reports of a document subscription reached
    it ([store.reportSyncState] in [notify]). *)
Definition absorb (effects : list Document.effect) (store : Store.State)
  : Store.State :=
  fold_left
    (fun store e =>
       match e with
       | Document.ReportedSyncState key isSynced =>
           fst (Store.reportSyncState key isSynced store)
       | _ => store
       end) effects store.

(** The same for a collection subscription. *)
Definition absorbCollection (effects : list Collection.effect)
  (store : Store.State) : Store.State :=
  fold_left
    (fun store e =>
       match e with
       | Collection.ReportedSyncState key isSynced =>
           fst (Store.reportSyncState key isSynced store)
       | _ => store
       end) effects store.

Definition readOnlyDocument : Document.DocumentOptions :=
  {| Document.isReadOnly := true; Document.autosave := 1000;
     Document.onPushUndo := true; Document.collectionPath := "projects";
     Document.documentId := "p1"; Document.retryOnError := false |}.

Definition readOnlyTasks : Collection.CollectionOptions :=
  {| Collection.isReadOnly := true; Collection.autosave := 1000;
     Collection.onPushUndo := true; Collection.collectionPath := "tasks";
     Collection.lazy := false |}.

(** The store has heard nothing from the subscription, which is synced,
    or its only entry is the subscription's current sync state. *)
Definition tracked (key : string) (isSynced : bool) (store : Store.State)
  : Prop :=
  (Store.syncStates store = [] /\ isSynced = true) \/
  Store.syncStates store = [(key, isSynced)].



(** A value all of whose field names, at any depth and inside arrays,
    can serve as the segment of a dotted path. *)
Fixpoint keyed (v : value) : bool :=
  match v with
  | VObj fs =>
      forallb pathKey (keys fs) && forallb (fun kv => keyed (snd kv)) fs
  | VArr items => forallb keyed items
  | _ => true
  end.

(** The event is a snapshot of a document that exists. *)
Definition arrives (e : documentEvent) : bool :=
  match e with
  | DocSnapshot _ (Some _) _ => true
  | _ => false
  end.

(** The event is the minimum-load-time timer. *)
Definition elapses (e : documentEvent) : bool :=
  match e with
  | DocMinLoadTime => true
  | _ => false
  end.

(** An action whose two procedures resolve from every world. *)
Definition alwaysResolves (World : Type) (action : Undo.UndoAction World)
  : Prop :=
  (forall w, snd (Undo.undo action w) = true) /\
  (forall w, snd (Undo.redo action w) = true).

(** An action whose undo procedure resolves from every world. *)
Definition undoResolves (World : Type) (action : Undo.UndoAction World)
  : Prop :=
  forall w, snd (Undo.undo action w) = true.

(** The actions pushed in the course of some events. *)
Definition pushedActions (World : Type) (events : list (Undo.event World))
  : list (Undo.UndoAction World) :=
  flat_map (fun e => match e with
                     | Undo.Called (Undo.Push action) => [action]
                     | _ => []
                     end) events.

(** An action whose undo procedure rejects. *)
Definition failing (name : string) : Undo.UndoAction (list string) :=
  {| Undo.undo := fun w => (w ++ [("undo " ++ name)%string], false);
     Undo.redo := fun w => (w ++ [("redo " ++ name)%string], true);
     Undo.groupId := None;
     Undo.path := None;
     Undo.description := Some name |}.

Definition boundOne : Undo.UndoManagerConfig :=
  {| Undo.maxLength := 1; Undo.onNavigate := false |}.

(** * Properties *)

(** ** Document subscription: rebase on snapshot *)



(** ** Document subscription: flushing *)

Lemma updateState_effects :
  forall options now diff o st,
    filter isWrite (snd (Document.updateState options now diff o st)) = [] /\
    filter isPush (snd (Document.updateState options now diff o st)) = [].
Proof.
  intros options now diff o st. unfold Document.updateState.
  destruct (Document.isReadOnly options); [split; reflexivity|].
  destruct (Document.getMergedData st); split; reflexivity.
Qed.

Lemma updateAll_effects :
  forall options edits st,
    filter isWrite (snd (updateAll options edits st)) = [] /\
    filter isPush (snd (updateAll options edits st)) = [].
Proof.
  intros options edits. induction edits as [|[[now diff] o] rest IH]; intros st.
  - split; reflexivity.
  - cbn [updateAll snd]. rewrite !filter_app.
    destruct (updateState_effects options now diff o st) as [-> ->].
    destruct (IH (fst (Document.updateState options now diff o st))) as [-> ->].
    split; reflexivity.
Qed.

Lemma updateState_fields :
  forall options now diff o st current,
    Document.isReadOnly options = false ->
    Document.getMergedData st = Some current ->
    let st' := fst (Document.updateState options now diff o st) in
    Document.localState st' =
      Some (applyDiffMutable now (cloneRecord current) diff) /\
    Document.syncState st' = Document.syncState st /\
    Document.pendingUndoOptions st' = Some o /\
    Document.isSetOperation st' = false /\
    Document.autosavePending st' = (Document.autosave options >? 0)%Z.
Proof.
  intros options now diff o st current Hro Hm.
  unfold Document.updateState. rewrite Hro, Hm. cbn. repeat split.
Qed.

Lemma updateAll_fields :
  forall options edits now diff o st current,
    Document.isReadOnly options = false ->
    Document.getMergedData st = Some current ->
    let st' := fst (updateAll options (edits ++ [(now, diff, o)]) st) in
    Document.localState st' =
      Some (applyEdits (edits ++ [(now, diff, o)]) current) /\
    Document.syncState st' = Document.syncState st /\
    Document.pendingUndoOptions st' = Some o /\
    Document.isSetOperation st' = false /\
    Document.autosavePending st' = (Document.autosave options >? 0)%Z.
Proof.
  intros options edits. induction edits as [|[[now0 diff0] o0] rest IH];
    intros now diff o st current Hro Hm.
  - cbn [app updateAll fst applyEdits].
    apply updateState_fields; assumption.
  - cbn [app updateAll fst applyEdits].
    destruct (updateState_fields options now0 diff0 o0 st current Hro Hm)
      as (Hl & Hs & _).
    assert (Hm' : Document.getMergedData
                    (fst (Document.updateState options now0 diff0 o0 st))
                  = Some (applyDiffMutable now0 (cloneRecord current) diff0)).
    { unfold Document.getMergedData. rewrite Hl. reflexivity. }
    destruct (IH now diff o _ _ Hro Hm') as (H1 & H2 & H3 & H4 & H5).
    repeat split; try assumption. rewrite H2. exact Hs.
Qed.

(** C4. [update()] itself never writes and never calls the undo-push
    callback.  After any number of [update()] calls, one flush sends one
    partial write, the flattened diff between the sync state and the local
    state that accumulated all the edits, and pushes one undo action.  For
    [{name:"Foo", count:5}] edited by [{name:"Bar"}] and then [{count:10}]
    that diff is [{name:"Bar", count:10}]. *)
Theorem edits_coalesce_per_flush :
  (forall options edits st,
     filter isWrite (snd (updateAll options edits st)) = [] /\
     filter isPush (snd (updateAll options edits st)) = []) /\
  (forall sameInstance options edits now diff o st s current,
     Document.isReadOnly options = false ->
     Document.onPushUndo options = true ->
     Document.syncState st = Some s ->
     Document.getMergedData st = Some current ->
     undoEnabled (Some o) = true ->
     let merged := applyEdits (edits ++ [(now, diff, o)]) current in
     isDeepEqual sameInstance (VObj merged) (VObj s) = false ->
     let st' := fst (updateAll options (edits ++ [(now, diff, o)]) st) in
     Document.localState st' = Some merged /\
     snd (Document.sync sameInstance options st') =
       [Document.PushedUndo
          (Document.CallUpdateState
             (computeDiff sameInstance merged (Some s)) notUndoable)
          (Document.CallUpdateState
             (computeDiff sameInstance s (Some merged)) notUndoable)
          (Some o);
        Document.UpdateDoc
          (flattenDiff (computeDiff sameInstance s (Some merged)) "")]) /\
  (forall sameInstance options now now' st,
     Document.isReadOnly options = false ->
     Document.onPushUndo options = true ->
     Document.syncState st = Some [("name", VStr "Foo"); ("count", VNum 5)] ->
     Document.localState st = None ->
     let edits :=
       [(now, VObj [("name", VStr "Bar")], noOptions);
        (now', VObj [("count", VNum 10)], noOptions)] in
     let edited := updateAll options edits st in
     filter isWrite (snd edited) = [] /\
     filter isPush (snd edited) = [] /\
     snd (Document.sync sameInstance options (fst edited)) =
       [Document.PushedUndo
          (Document.CallUpdateState
             (VObj [("name", VStr "Foo"); ("count", VNum 5)]) notUndoable)
          (Document.CallUpdateState
             (VObj [("name", VStr "Bar"); ("count", VNum 10)]) notUndoable)
          (Some noOptions);
        Document.UpdateDoc [("name", VStr "Bar"); ("count", VNum 10)]]).
Proof.
  split; [exact updateAll_effects|]. split.
  - intros sameInstance options edits now diff o st s current
      Hro Hpush Hs Hm Ho merged Hne st'.
    destruct (updateAll_fields options edits now diff o st current Hro Hm)
      as (Hl & Hs' & Hp & Hset & _).
    fold st' in Hl, Hs', Hp, Hset. fold merged in Hl.
    split; [exact Hl|].
    unfold Document.sync. rewrite Hl, Hs', Hs, Hne, Hp, Hset, Hpush.
    cbn [snd]. rewrite Ho. reflexivity.
  - intros sameInstance options now now' st Hro Hpush Hs Hl edits edited.
    split; [apply updateAll_effects|]. split; [apply updateAll_effects|].
    assert (Hm : Document.getMergedData st
                 = Some [("name", VStr "Foo"); ("count", VNum 5)]).
    { unfold Document.getMergedData. rewrite Hl. exact Hs. }
    destruct (updateAll_fields options
                [(now, VObj [("name", VStr "Bar")], noOptions)]
                now' (VObj [("count", VNum 10)]) noOptions st _ Hro Hm)
      as (Hl' & Hs' & Hp & Hset & _).
    cbn [app] in Hl', Hs', Hp, Hset.
    unfold edited, edits.
    unfold Document.sync. rewrite Hl', Hs', Hs, Hp, Hset, Hpush.
    reflexivity.
Qed.

Lemma edits_coalesce_per_flush_witness :
  let edits :=
    [(epoch, VObj [("name", VStr "Bar")], noOptions);
     (epoch, VObj [("count", VNum 10)], noOptions)] in
  let flushed :=
    snd (Document.sync distinctInstances docOptions
           (fst (updateAll docOptions edits coalesceStart))) in
  (Document.localState (fst (updateAll docOptions edits coalesceStart)) =
     Some (applyEdits edits [("name", VStr "Foo"); ("count", VNum 5)]) /\
   List.length (filter isPush flushed) = 1 /\
   List.length (filter isWrite flushed) = 1) /\
  flushed =
    [Document.PushedUndo
       (Document.CallUpdateState
          (VObj [("name", VStr "Foo"); ("count", VNum 5)]) notUndoable)
       (Document.CallUpdateState
          (VObj [("name", VStr "Bar"); ("count", VNum 10)]) notUndoable)
       (Some noOptions);
     Document.UpdateDoc [("name", VStr "Bar"); ("count", VNum 10)]].
Proof.
  split.
  - destruct (proj1 (proj2 edits_coalesce_per_flush) distinctInstances
                docOptions [(epoch, VObj [("name", VStr "Bar")], noOptions)]
                epoch (VObj [("count", VNum 10)]) noOptions coalesceStart
                [("name", VStr "Foo"); ("count", VNum 5)]
                [("name", VStr "Foo"); ("count", VNum 5)]
                eq_refl eq_refl eq_refl eq_refl eq_refl eq_refl) as [Hl Hf].
    split; [exact Hl|]. cbn [app] in Hf. rewrite Hf. split; reflexivity.
  - exact (proj2 (proj2 (proj2 (proj2 edits_coalesce_per_flush)
                    distinctInstances docOptions epoch epoch coalesceStart
                    eq_refl eq_refl eq_refl eq_refl))).
Defined.

(** C2, on the code: a document subscription whose sync state is absent
    dispatches no write.  [set()] called before the first snapshot leaves
    its value in the local state, marked as a full replacement and
    unsynced; a direct [sync()] returns without any effect, and so does the
    flush started by the autosave timer. *)
Theorem set_before_first_snapshot_is_not_written :
  forall sameInstance options data undoOptions st,
    Document.isReadOnly options = false ->
    Document.syncState st = None ->
    let pending := fst (Document.setData options data undoOptions st) in
    Document.localState pending = Some (cloneRecord data) /\
    Document.isSetOperation pending = true /\
    Document.isSynced pending = false /\
    Document.sync sameInstance options pending = (pending, []) /\
    snd (Document.autosaveFires sameInstance options pending) = [] /\
    Document.localState
      (fst (Document.autosaveFires sameInstance options pending)) =
      Some (cloneRecord data).
Proof.
  intros sameInstance options data undoOptions st Hro Hs.
  unfold Document.setData. rewrite Hro. cbn [fst].
  unfold Document.autosaveFires, Document.sync, Document.isSynced.
  cbn [Document.scheduleAutosave Document.withEdit Document.localState
       Document.syncState Document.isSetOperation Document.autosavePending].
  rewrite Hs.
  repeat split; destruct (Document.autosave options >? 0)%Z; reflexivity.
Qed.

Lemma set_before_first_snapshot_is_not_written_witness :
  Document.sync distinctInstances docOptions
    (fst (Document.setData docOptions [("name", VStr "Foo")] noOptions
            Document.initial)) =
  (fst (Document.setData docOptions [("name", VStr "Foo")] noOptions
          Document.initial), []).
Proof.
  exact (proj1 (proj2 (proj2 (proj2
           (set_before_first_snapshot_is_not_written distinctInstances
              docOptions [("name", VStr "Foo")] noOptions Document.initial
              eq_refl eq_refl))))).
Defined.


(** ** Undo/redo manager *)

Section UndoManager.

Import Undo.

Variable World : Type.

Lemma pop_snoc :
  forall (A : Type) (l : list A) (x : A), pop (l ++ [x]) = Some (l, x).
Proof.
  intros A l x. unfold pop. rewrite rev_app_distr. cbn.
  rewrite rev_involutive. reflexivity.
Qed.

Lemma pop_some :
  forall (A : Type) (l below : list A) (top : A),
    pop l = Some (below, top) -> l = below ++ [top].
Proof.
  intros A l below top. unfold pop.
  destruct (rev l) as [|t b] eqn:Hr; [discriminate|].
  intros H. injection H as <- <-.
  rewrite <- (rev_involutive l), Hr. reflexivity.
Qed.

Lemma pop_none :
  forall (A : Type) (l : list A), pop l = None -> l = [].
Proof.
  intros A l. unfold pop. destruct (rev l) eqn:Hr; [|discriminate].
  intros _. rewrite <- (rev_involutive l), Hr. reflexivity.
Qed.

Lemma enforceMaxLength_bound :
  forall (A : Type) (maxLength : Z) (l : list A),
    (0 <= maxLength)%Z ->
    (Z.of_nat (List.length l) <= maxLength + 1)%Z ->
    (Z.of_nat (List.length (enforceMaxLength maxLength l)) <= maxLength)%Z.
Proof.
  intros A maxLength l H0 Hl. unfold enforceMaxLength.
  destruct (Z.gtb_spec (Z.of_nat (List.length l)) maxLength) as [Hgt|Hle].
  - destruct l; cbn [tl List.length] in *; lia.
  - exact Hle.
Qed.

Lemma push_bounded :
  forall cfg action m,
    (0 <= maxLength cfg)%Z -> bounded World cfg m -> bounded World cfg (push cfg action m).
Proof.
  intros cfg action m H0 Hb. unfold bounded in *.
  assert (Hplain :
    (Z.of_nat (List.length
       (enforceMaxLength (maxLength cfg) (undoStack m ++ [action])))
     <= maxLength cfg)%Z).
  { apply enforceMaxLength_bound; [exact H0|].
    rewrite length_app. cbn [List.length]. lia. }
  unfold push.
  destruct (truthy (groupId action) && nonEmpty (undoStack m)); [|exact Hplain].
  destruct (pop (undoStack m)) as [[below last]|] eqn:Hpop; [|exact Hplain].
  destruct (sameString (groupId last) (groupId action)); [|exact Hplain].
  cbn [notify withStacks undoStack].
  apply pop_some in Hpop. rewrite Hpop in Hb.
  rewrite length_app in *. cbn [List.length] in *. lia.
Qed.

Lemma navigate_stacks :
  forall cfg action (m : Manager World),
    undoStack (navigate World cfg action m) = undoStack m /\
    redoStack (navigate World cfg action m) = redoStack m.
Proof.
  intros cfg action m. unfold navigate.
  destruct (path action); [|split; reflexivity].
  destruct (truthy (Some s) && onNavigate cfg); split; reflexivity.
Qed.

Lemma undoOnce_eq :
  forall cfg (m : Manager World) w,
    undoOnce cfg m w =
    match pop (undoStack m) with
    | None => (m, w, true)
    | Some (below, action) =>
        let m1 := navigate World cfg action (withStacks World m below (redoStack m)) in
        let (w', resolved) := undo action w in
        if resolved then
          (notify World (withStacks World m1 below (redoStack m ++ [action])),
           w', true)
        else
          (withStacks World m1 (below ++ [action]) (redoStack m), w', false)
    end.
Proof.
  intros cfg m w. unfold undoOnce, undoBegin.
  destruct (pop (undoStack m)) as [[below action]|]; [|reflexivity].
  cbv zeta. destruct (undo action w) as [w' resolved].
  unfold awaited, settle, undoSettle. cbn [undoing resolves entry fst snd].
  destruct (navigate_stacks cfg action
              (withStacks World m below (redoStack m))) as [Hu Hr].
  rewrite Hu, Hr. destruct resolved; reflexivity.
Qed.

Lemma redoOnce_eq :
  forall cfg (m : Manager World) w,
    redoOnce cfg m w =
    match pop (redoStack m) with
    | None => (m, w, true)
    | Some (below, action) =>
        let m1 := navigate World cfg action (withStacks World m (undoStack m) below) in
        let (w', resolved) := redo action w in
        if resolved then
          (notify World
             (withStacks World m1
                (enforceMaxLength (maxLength cfg) (undoStack m ++ [action]))
                below),
           w', true)
        else
          (withStacks World m1 (undoStack m) (below ++ [action]), w', false)
    end.
Proof.
  intros cfg m w. unfold redoOnce, redoBegin.
  destruct (pop (redoStack m)) as [[below action]|]; [|reflexivity].
  cbv zeta. destruct (redo action w) as [w' resolved].
  unfold awaited, settle, redoSettle. cbn [undoing resolves entry fst snd].
  destruct (navigate_stacks cfg action
              (withStacks World m (undoStack m) below)) as [Hu Hr].
  rewrite Hu, Hr. destruct resolved; reflexivity.
Qed.

Lemma undoOnce_bounded :
  forall cfg m w,
    bounded World cfg m -> bounded World cfg (fst (fst (undoOnce cfg m w))).
Proof.
  intros cfg m w Hb. unfold bounded in *. rewrite undoOnce_eq.
  destruct (pop (undoStack m)) as [[below action]|] eqn:Hpop; [|exact Hb].
  apply pop_some in Hpop. rewrite Hpop in Hb.
  rewrite length_app in Hb. cbn [List.length] in Hb.
  destruct (undo action w) as [w' [|]]; cbn [fst notify withStacks undoStack].
  - lia.
  - rewrite length_app. cbn [List.length]. lia.
Qed.

Lemma redoOnce_bounded :
  forall cfg m w,
    (0 <= maxLength cfg)%Z ->
    bounded World cfg m -> bounded World cfg (fst (fst (redoOnce cfg m w))).
Proof.
  intros cfg m w H0 Hb. unfold bounded in *. rewrite redoOnce_eq.
  destruct (pop (redoStack m)) as [[below action]|] eqn:Hpop; [|exact Hb].
  destruct (redo action w) as [w' [|]]; cbn [fst notify withStacks undoStack].
  - apply enforceMaxLength_bound; [exact H0|].
    rewrite length_app. cbn [List.length]. lia.
  - exact Hb.
Qed.

Lemma step_bounded :
  forall cfg c mw,
    (0 <= maxLength cfg)%Z ->
    bounded World cfg (fst mw) -> bounded World cfg (fst (step cfg c mw)).
Proof.
  intros cfg c [m w] H0 Hb. destruct c; cbn [step fst snd].
  - apply push_bounded; assumption.
  - apply undoOnce_bounded; assumption.
  - apply redoOnce_bounded; assumption.
  - unfold bounded. cbn. exact H0.
Qed.

Lemma run_bounded :
  forall cfg calls mw,
    (0 <= maxLength cfg)%Z ->
    bounded World cfg (fst mw) -> bounded World cfg (fst (run cfg calls mw)).
Proof.
  intros cfg calls. induction calls as [|c rest IH]; intros mw H0 Hb.
  - exact Hb.
  - cbn [run fold_left]. apply IH; [exact H0|].
    apply step_bounded; assumption.
Qed.

Lemma push_clears_redo :
  forall cfg action (m : Manager World), redoStack (push cfg action m) = [].
Proof.
  intros cfg action m. unfold push.
  destruct (truthy (groupId action) && nonEmpty (undoStack m));
    [|reflexivity].
  destruct (pop (undoStack m)) as [[below last]|]; [|reflexivity].
  destruct (sameString (groupId last) (groupId action)); reflexivity.
Qed.

Lemma push_ungrouped :
  forall cfg action (m : Manager World),
    groupId action = None ->
    undoStack (push cfg action m) =
      enforceMaxLength (maxLength cfg) (undoStack m ++ [action]).
Proof.
  intros cfg action m Hg. unfold push. rewrite Hg. reflexivity.
Qed.

End UndoManager.

(** C7, on the code: an [undo()] whose procedure rejects puts its entry
    back without enforcing the bound.  With [maxLength = 1]: [push(a)], then
    [undo()], which pops [a] and waits for its procedure, then [push(b)]
    while it waits, then the procedure rejects; the undo stack is [[b; a]],
    two entries under a bound of one. *)
Theorem rejected_undo_exceeds_bound :
  forall (World : Type) (cfg : Undo.UndoManagerConfig)
         (a b : Undo.UndoAction World) (w w' : World),
    Undo.maxLength cfg = 1%Z ->
    Undo.undo a w = (w', false) ->
    let final :=
      Undo.interleave cfg
        [Undo.Called (Undo.Push a); Undo.Called Undo.UndoCall;
         Undo.Called (Undo.Push b); Undo.Settled 0]
        (Undo.create, w, []) in
    Undo.undoStack (fst (fst final)) = [b; a] /\
    snd final = [] /\
    (Z.of_nat (List.length (Undo.undoStack (fst (fst final))))
     > Undo.maxLength cfg)%Z.
Proof.
  intros World cfg a b w w' Hmax Hundo final.
  set (m1 := Undo.push cfg a Undo.create).
  assert (H1 : Undo.undoStack m1 = [a]).
  { unfold m1, Undo.push. cbn [Undo.create Undo.undoStack Undo.nonEmpty].
    rewrite andb_false_r.
    cbn [Undo.notify Undo.withStacks Undo.undoStack app].
    unfold Undo.enforceMaxLength. rewrite Hmax. reflexivity. }
  set (m2 := Undo.navigate World cfg a
               (Undo.withStacks World m1 [] (Undo.redoStack m1))).
  assert (H2 : Undo.undoStack m2 = []).
  { unfold m2. rewrite (proj1 (navigate_stacks World cfg a _)). reflexivity. }
  set (m3 := Undo.push cfg b m2).
  assert (H3 : Undo.undoStack m3 = [b]).
  { unfold m3, Undo.push. rewrite H2. cbn [Undo.nonEmpty].
    rewrite andb_false_r.
    cbn [Undo.notify Undo.withStacks Undo.undoStack app].
    unfold Undo.enforceMaxLength. rewrite Hmax. reflexivity. }
  assert (Hfinal :
    final =
    (Undo.withStacks World m3 (Undo.undoStack m3 ++ [a]) (Undo.redoStack m3),
     w', [])).
  { subst final. unfold Undo.interleave. cbn [fold_left Undo.occur].
    fold m1. unfold Undo.undoBegin. rewrite H1. cbn [Undo.pop rev app].
    rewrite Hundo. fold m2. cbn [Undo.suspend app]. fold m3.
    reflexivity. }
  rewrite Hfinal. cbn [fst snd Undo.withStacks Undo.undoStack].
  rewrite H3, Hmax. repeat split.
Qed.

Lemma rejected_undo_exceeds_bound_witness :
  let final :=
    Undo.interleave boundOne
      [Undo.Called (Undo.Push (failing "a")); Undo.Called Undo.UndoCall;
       Undo.Called (Undo.Push (traced "b" None)); Undo.Settled 0]
      (Undo.create, [], []) in
  map Undo.description (Undo.undoStack (fst (fst final))) =
    [Some "b"; Some "a"] /\
  (Z.of_nat (List.length (Undo.undoStack (fst (fst final))))
   > Undo.maxLength boundOne)%Z.
Proof.
  intros final.
  destruct (rejected_undo_exceeds_bound (list string) boundOne
              (failing "a") (traced "b" None) [] ["undo a"]
              eq_refl eq_refl) as (Hs & _ & Hlen).
  fold final in Hs, Hlen. split; [rewrite Hs; reflexivity|exact Hlen].
Defined.

(** The cap of [redo()] comes into play when calls overlap: a [push]
    made while an [undo()] is suspended fills the stack again, and the
    [redo()] of the undone entry then drops the oldest entry. *)
Example overlapping_redo_drops_oldest :
  let final :=
    Undo.interleave boundOne
      [Undo.Called (Undo.Push (traced "a" None)); Undo.Called Undo.UndoCall;
       Undo.Called (Undo.Push (traced "b" None)); Undo.Settled 0;
       Undo.Called Undo.RedoCall; Undo.Settled 0]
      (Undo.create, [], []) in
  map Undo.description (Undo.undoStack (fst (fst final))) = [Some "a"] /\
  Undo.redoStack (fst (fst final)) = [] /\
  snd final = [].
Proof. repeat split. Qed.

(** When every call is awaited before the next, the bound does hold.  With
    a bound that is not negative, the undo stack never holds more than
    [maxLength] entries, whether reversal procedures resolve or
    reject.  Five ungrouped pushes under [maxLength = 3] leave the last
    three in order.  A successful [redo()] appends the entry to the undo
    stack and drops the oldest entry when the stack was full. *)
Lemma undo_stack_is_bounded :
  forall (World : Type) (cfg : Undo.UndoManagerConfig),
    (0 <= Undo.maxLength cfg)%Z ->
    (forall calls (m : Undo.Manager World) w,
       (Z.of_nat (List.length (Undo.undoStack m)) <= Undo.maxLength cfg)%Z ->
       (Z.of_nat (List.length
          (Undo.undoStack (fst (Undo.run cfg calls (m, w)))))
        <= Undo.maxLength cfg)%Z) /\
    (forall calls w,
       (Z.of_nat (List.length
          (Undo.undoStack (fst (Undo.run cfg calls (@Undo.create World, w)))))
        <= Undo.maxLength cfg)%Z) /\
    (forall a0 a1 a2 a3 a4 w,
       Undo.maxLength cfg = 3%Z ->
       Undo.groupId a0 = None -> Undo.groupId a1 = None ->
       Undo.groupId a2 = None -> Undo.groupId a3 = None ->
       Undo.groupId a4 = None ->
       Undo.undoStack
         (fst (Undo.run cfg
                 [Undo.Push a0; Undo.Push a1; Undo.Push a2; Undo.Push a3;
                  Undo.Push a4] (@Undo.create World, w)))
       = [a2; a3; a4]) /\
    (forall (m : Undo.Manager World) w below action w',
       Undo.redoStack m = below ++ [action] ->
       Undo.redo action w = (w', true) ->
       let after := fst (fst (Undo.redoOnce cfg m w)) in
       Undo.redoStack after = below /\
       Undo.undoStack after =
         Undo.enforceMaxLength (Undo.maxLength cfg)
           (Undo.undoStack m ++ [action]) /\
       (forall oldest rest,
          Undo.undoStack m = oldest :: rest ->
          Z.of_nat (List.length (Undo.undoStack m)) = Undo.maxLength cfg ->
          Undo.undoStack after = rest ++ [action])).
Proof.
  intros World cfg H0. split; [|split; [|split]].
  - intros calls m w Hb.
    exact (run_bounded World cfg calls (m, w) H0 Hb).
  - intros calls w.
    apply (run_bounded World cfg calls (Undo.create, w) H0).
    unfold bounded. cbn. exact H0.
  - intros a0 a1 a2 a3 a4 w Hmax H0' H1 H2 H3 H4.
    cbn [Undo.run fold_left Undo.step fst snd].
    rewrite !push_ungrouped by assumption.
    rewrite Hmax. reflexivity.
  - intros m w below action w' Hr Hredo after.
    assert (Hafter : Undo.redoStack after = below /\
              Undo.undoStack after =
                Undo.enforceMaxLength (Undo.maxLength cfg)
                  (Undo.undoStack m ++ [action])).
    { unfold after. rewrite redoOnce_eq, Hr, pop_snoc, Hredo.
      cbn. split; reflexivity. }
    destruct Hafter as [Hr' Hu]. split; [exact Hr'|]. split; [exact Hu|].
    intros oldest rest Hstack Hfull. rewrite Hu. unfold Undo.enforceMaxLength.
    rewrite length_app. cbn [List.length].
    destruct (Z.gtb_spec
                (Z.of_nat (List.length (Undo.undoStack m) + 1))
                (Undo.maxLength cfg)) as [_|Hle]; [|lia].
    rewrite Hstack. reflexivity.
Qed.

Lemma undo_stack_is_bounded_witness :
  (Z.of_nat
     (List.length
        (Undo.undoStack
           (fst (Undo.run boundThree
                   [Undo.Push (traced "0" None); Undo.UndoCall;
                    Undo.RedoCall; Undo.Push (traced "1" (Some "g"));
                    Undo.Push (traced "2" (Some "g")); Undo.Clear;
                    Undo.Push (traced "3" None)]
                   (Undo.create, [])))))
   <= 3)%Z /\
  map Undo.description
    (Undo.undoStack
       (fst (Undo.run boundThree
               (map (fun n => Undo.Push (traced n None))
                  ["0"; "1"; "2"; "3"; "4"])
               (Undo.create, [])))) =
  [Some "2"; Some "3"; Some "4"] /\
  map Undo.description
    (Undo.undoStack (fst (fst (Undo.redoOnce boundThree fullStack [])))) =
  [Some "1"; Some "2"; Some "3"].
Proof.
  assert (H0 : (0 <= Undo.maxLength boundThree)%Z) by (cbn; lia).
  pose proof (undo_stack_is_bounded (list string) boundThree H0)
    as (Hany & Hfresh & Hfive & Hredo).
  split; [apply Hfresh|]. split.
  - cbn [map].
    rewrite (Hfive (traced "0" None) (traced "1" None) (traced "2" None)
               (traced "3" None) (traced "4" None) []
               eq_refl eq_refl eq_refl eq_refl eq_refl eq_refl).
    reflexivity.
  - destruct (Hredo fullStack [] [] (traced "3" None) ["redo 3"]
                eq_refl eq_refl) as (_ & _ & Hfull).
    rewrite (Hfull (traced "0" None) [traced "1" None; traced "2" None]
               eq_refl eq_refl).
    reflexivity.
Defined.

(** C6, on the code: two actions pushed with the same group on a fresh
    manager leave one merged entry, and one [undo()] empties the undo stack
    and runs both undo procedures in the order of pushing: the procedure of
    the action pushed first runs first, and the procedure of the action
    pushed second runs on the world the first one left. *)
Theorem grouped_undo_runs_in_push_order :
  forall (World : Type) (cfg : Undo.UndoManagerConfig)
         (first second : Undo.UndoAction World) (m : Undo.Manager World)
         (w w1 w2 : World) (resolved : bool),
    (1 <= Undo.maxLength cfg)%Z ->
    Undo.undoStack m = [] ->
    Undo.truthy (Undo.groupId second) = true ->
    Undo.sameString (Undo.groupId first) (Undo.groupId second) = true ->
    Undo.undo first w = (w1, true) ->
    Undo.undo second w1 = (w2, resolved) ->
    let pushed := Undo.push cfg second (Undo.push cfg first m) in
    Undo.undoStack pushed = [Undo.merge first second] /\
    snd (fst (Undo.undoOnce cfg pushed w)) = w2 /\
    (resolved = true ->
     Undo.undoStack (fst (fst (Undo.undoOnce cfg pushed w))) = [] /\
     Undo.redoStack (fst (fst (Undo.undoOnce cfg pushed w)))
       = [Undo.merge first second]).
Proof.
  intros World cfg first second m w w1 w2 resolved Hmax Hempty Htruthy Hsame
    Hfirst Hsecond pushed.
  assert (Hone : Undo.undoStack (Undo.push cfg first m) = [first]).
  { unfold Undo.push. rewrite Hempty.
    rewrite andb_false_r. cbn. unfold Undo.enforceMaxLength. cbn.
    destruct (Z.gtb_spec 1 (Undo.maxLength cfg)); [lia|reflexivity]. }
  assert (Hstack : Undo.undoStack pushed = [Undo.merge first second]).
  { unfold pushed, Undo.push at 1. rewrite Hone, Htruthy. cbn.
    rewrite Hsame. reflexivity. }
  assert (Hredo : Undo.redoStack pushed = []) by apply push_clears_redo.
  split; [exact Hstack|].
  rewrite undoOnce_eq. rewrite Hstack. cbn [Undo.pop rev app].
  cbn [Undo.merge Undo.undo]. unfold Undo.andThen.
  rewrite Hfirst, Hsecond.
  destruct resolved; cbn [fst snd]; split; try reflexivity.
  - intros _. cbn. rewrite Hredo. split; reflexivity.
  - discriminate.
Qed.

(** The consequence for a document: after two grouped flushes that took
    the name from ["A"] over ["B"] to ["C"], one [undo()] applies the
    first flush's undo diff and then the second's, and leaves the name at
    ["B"]. *)
Example grouped_undo_of_two_flushes :
  List.length (Undo.undoStack (snd twoGroupedFlushes)) = 1 /\
  Document.getMergedData (fst twoGroupedFlushes) = Some [("name", VStr "C")] /\
  Document.getMergedData
    (snd (fst (Undo.undoOnce boundThree (snd twoGroupedFlushes)
                 (fst twoGroupedFlushes))))
    = Some [("name", VStr "B")].
Proof. repeat split. Qed.

Lemma grouped_undo_runs_in_push_order_witness :
  let pushed :=
    Undo.push boundThree (traced "2" (Some "g"))
      (Undo.push boundThree (traced "1" (Some "g")) Undo.create) in
  List.length (Undo.undoStack pushed) = 1 /\
  snd (fst (Undo.undoOnce boundThree pushed [])) = ["undo 1"; "undo 2"].
Proof.
  split; [reflexivity|].
  refine (proj1 (proj2 (grouped_undo_runs_in_push_order (list string)
                          boundThree (traced "1" (Some "g"))
                          (traced "2" (Some "g")) Undo.create
                          [] ["undo 1"] ["undo 1"; "undo 2"] true
                          _ eq_refl eq_refl eq_refl eq_refl eq_refl))).
  cbn. lia.
Defined.

(** ** Records as finite maps *)

Section Records.

Lemma lookup_assign_eq :
  forall k v r, lookup k (assign k v r) = Some v.
Proof.
  intros k v r. induction r as [|[k' v'] r IH]; cbn.
  - rewrite String.eqb_refl. reflexivity.
  - destruct (String.eqb k k') eqn:E; cbn.
    + rewrite String.eqb_refl. reflexivity.
    + rewrite E. exact IH.
Qed.

Lemma lookup_assign_neq :
  forall k k' v r, k' <> k -> lookup k' (assign k v r) = lookup k' r.
Proof.
  intros k k' v r Hne. induction r as [|[k0 v0] r IH]; cbn.
  - apply String.eqb_neq in Hne. rewrite Hne. reflexivity.
  - destruct (String.eqb k k0) eqn:E; cbn.
    + apply String.eqb_eq in E. subst k0.
      apply String.eqb_neq in Hne. rewrite Hne. reflexivity.
    + destruct (String.eqb k' k0); [reflexivity|exact IH].
Qed.

Lemma lookup_remove_eq :
  forall k r, lookup k (remove k r) = None.
Proof.
  intros k r. induction r as [|[k' v'] r IH]; cbn; [reflexivity|].
  destruct (String.eqb k k') eqn:E; [exact IH|].
  cbn. rewrite E. exact IH.
Qed.

Lemma lookup_remove_neq :
  forall k k' r, k' <> k -> lookup k' (remove k r) = lookup k' r.
Proof.
  intros k k' r Hne. induction r as [|[k0 v0] r IH]; cbn; [reflexivity|].
  destruct (String.eqb k k0) eqn:E.
  - apply String.eqb_eq in E. subst k0.
    apply String.eqb_neq in Hne. rewrite Hne. exact IH.
  - cbn. destruct (String.eqb k' k0); [reflexivity|exact IH].
Qed.

Lemma lookup_In :
  forall k v r, lookup k r = Some v -> In (k, v) r.
Proof.
  intros k v r. induction r as [|[k' v'] r IH]; cbn; [discriminate|].
  destruct (String.eqb_spec k k') as [->|Hne].
  - intros H. injection H as ->. left. reflexivity.
  - intros H. right. exact (IH H).
Qed.

Lemma lookup_None_keys :
  forall k r, lookup k r = None <-> ~ In k (keys r).
Proof.
  intros k r. induction r as [|[k' v'] r IH]; cbn.
  - split; [intros _ []|reflexivity].
  - destruct (String.eqb_spec k k') as [->|Hne].
    + split; [discriminate|]. intros H. exfalso. apply H. left. reflexivity.
    + rewrite IH. split.
      * intros H [E|Hin]; [apply Hne; symmetry; exact E|exact (H Hin)].
      * intros H Hin. apply H. right. exact Hin.
Qed.

Lemma lookup_Some_keys :
  forall k r, In k (keys r) <-> exists v, lookup k r = Some v.
Proof.
  intros k r. destruct (lookup k r) as [v|] eqn:E.
  - split; [intros _; exists v; reflexivity|].
    intros _. apply lookup_In in E.
    unfold keys. apply in_map_iff. exists (k, v). split; [reflexivity|exact E].
  - split.
    + intros Hin. apply lookup_None_keys in E. contradiction.
    + intros [v Hv]. discriminate.
Qed.

Lemma In_lookup :
  forall k v r, NoDup (keys r) -> In (k, v) r -> lookup k r = Some v.
Proof.
  intros k v r. induction r as [|[k' v'] r IH]; cbn; [intros _ []|].
  intros Hnd [E|Hin].
  - injection E as -> ->. rewrite String.eqb_refl. reflexivity.
  - inversion Hnd as [|? ? Hnotin Hnd']; subst.
    destruct (String.eqb_spec k k') as [->|Hne].
    + exfalso. apply Hnotin. unfold keys. apply in_map_iff.
      exists (k', v). split; [reflexivity|exact Hin].
    + exact (IH Hnd' Hin).
Qed.

Lemma assign_fresh :
  forall k v r, lookup k r = None -> assign k v r = r ++ [(k, v)].
Proof.
  intros k v r. induction r as [|[k' v'] r IH]; cbn; [reflexivity|].
  destruct (String.eqb k k'); [discriminate|].
  intros H. rewrite (IH H). reflexivity.
Qed.

Lemma assign_same :
  forall k v r, lookup k r = Some v -> assign k v r = r.
Proof.
  intros k v r. induction r as [|[k' v'] r IH]; cbn; [discriminate|].
  destruct (String.eqb_spec k k') as [->|Hne].
  - intros H. injection H as ->. reflexivity.
  - intros H. rewrite (IH H). reflexivity.
Qed.

Lemma keys_assign_present :
  forall k v r, In k (keys r) -> keys (assign k v r) = keys r.
Proof.
  intros k v r. unfold keys.
  induction r as [|[k' v'] r IH]; cbn; [intros []|].
  destruct (String.eqb_spec k k') as [->|Hne]; [reflexivity|].
  intros [E|Hin]; [exfalso; apply Hne; symmetry; exact E|].
  cbn. rewrite (IH Hin). reflexivity.
Qed.

Lemma keys_assign_fresh :
  forall k v r, ~ In k (keys r) -> keys (assign k v r) = keys r ++ [k].
Proof.
  intros k v r H. apply lookup_None_keys in H.
  rewrite (assign_fresh k v r H). unfold keys. rewrite map_app. reflexivity.
Qed.

Lemma NoDup_assign :
  forall k v r, NoDup (keys r) -> NoDup (keys (assign k v r)).
Proof.
  intros k v r Hnd. destruct (in_dec string_dec k (keys r)) as [Hin|Hnotin].
  - rewrite keys_assign_present by exact Hin. exact Hnd.
  - rewrite keys_assign_fresh by exact Hnotin.
    apply NoDup_app; [exact Hnd|constructor; [intros []|constructor]|].
    intros x Hx [E|[]]. subst x. contradiction.
Qed.

Lemma In_keys_assign :
  forall k k' v r, In k' (keys (assign k v r)) <-> k' = k \/ In k' (keys r).
Proof.
  intros k k' v r. rewrite !lookup_Some_keys.
  destruct (string_dec k' k) as [->|Hne].
  - rewrite lookup_assign_eq. split; [left; reflexivity|].
    intros _. exists v. reflexivity.
  - rewrite lookup_assign_neq by exact Hne.
    split; [intros H; right; exact H|]. intros [E|H]; [contradiction|exact H].
Qed.

Lemma In_keys_remove :
  forall k k' r, In k' (keys (remove k r)) <-> k' <> k /\ In k' (keys r).
Proof.
  intros k k' r. rewrite !lookup_Some_keys.
  destruct (string_dec k' k) as [->|Hne].
  - rewrite lookup_remove_eq. split.
    + intros [v Hv]. discriminate.
    + intros [H _]. exfalso. apply H. reflexivity.
  - rewrite lookup_remove_neq by exact Hne.
    split; [intros H; split; assumption|]. intros [_ H]. exact H.
Qed.

Lemma NoDup_remove :
  forall k r, NoDup (keys r) -> NoDup (keys (remove k r)).
Proof.
  intros k r. induction r as [|[k' v'] r IH]; cbn; [intros H; exact H|].
  intros Hnd. inversion Hnd as [|? ? Hnotin Hnd']; subst.
  destruct (String.eqb_spec k k') as [->|Hne]; [exact (IH Hnd')|].
  cbn. constructor; [|exact (IH Hnd')].
  intros Hin. apply Hnotin. apply In_keys_remove in Hin. apply Hin.
Qed.

Lemma In_assign :
  forall k v e r, In e (assign k v r) -> e = (k, v) \/ In e r.
Proof.
  intros k v e r. induction r as [|[k' v'] r IH]; cbn.
  - intros [E|[]]. left. symmetry. exact E.
  - destruct (String.eqb k k'); cbn.
    + intros [E|H]; [left; symmetry; exact E|right; right; exact H].
    + intros [E|H]; [right; left; exact E|].
      destruct (IH H) as [E|H']; [left; exact E|right; right; exact H'].
Qed.

Lemma In_remove :
  forall k e r, In e (remove k r) -> In e r.
Proof.
  intros k e r. induction r as [|[k' v'] r IH]; cbn; [intros []|].
  destruct (String.eqb k k'); cbn.
  - intros H. right. exact (IH H).
  - intros [E|H]; [left; exact E|right; exact (IH H)].
Qed.

End Records.

(** ** Well-formed data *)

Lemma distinct_NoDup :
  forall ks, distinct ks = true <-> NoDup ks.
Proof.
  induction ks as [|k rest IH]; cbn.
  - split; [constructor|reflexivity].
  - rewrite andb_true_iff, negb_true_iff, IH. split.
    + intros [Hex Hnd]. constructor; [|exact Hnd].
      intros Hin. assert (existsb (String.eqb k) rest = true).
      { apply existsb_exists. exists k. split; [exact Hin|].
        apply String.eqb_refl. }
      congruence.
    + intros H. inversion H as [|? ? Hnotin Hnd]; subst. split; [|exact Hnd].
      destruct (existsb (String.eqb k) rest) eqn:E; [|reflexivity].
      apply existsb_exists in E. destruct E as [x [Hin Hx]].
      apply String.eqb_eq in Hx. subst x. contradiction.
Qed.

Lemma isData_record :
  forall fs,
    isData (VObj fs) = true ->
    NoDup (keys fs) /\ forall k v, In (k, v) fs -> isData v = true.
Proof.
  intros fs H. cbn in H. apply andb_true_iff in H. destruct H as [Hd Hall].
  split; [apply distinct_NoDup; exact Hd|].
  intros k v Hin. rewrite forallb_forall in Hall. exact (Hall (k, v) Hin).
Qed.

Section Equations.

Variable sameInstance : value -> value -> bool.

Lemma computeDiffValue_eq :
  forall from tfs,
    computeDiffValue sameInstance from (VObj tfs) =
    markRemoved from tfs (fold_left (changedStep sameInstance from) tfs []).
Proof.
  intros from tfs. cbn [computeDiffValue]. f_equal.
  generalize (@nil (string * value)).
  induction tfs as [|[key toValue] rest IH]; intros diff; [reflexivity|].
  cbn [fold_left]. rewrite <- IH. unfold changedStep. cbn [fst snd].
  destruct toValue; reflexivity.
Qed.

Lemma applyDiffValue_eq :
  forall now target dfs,
    applyDiffValue now target (VObj dfs) = fold_left (applyStep now) dfs target.
Proof.
  intros now target dfs. cbn [applyDiffValue]. revert target.
  induction dfs as [|[key v] rest IH]; intros target; [reflexivity|].
  cbn [fold_left]. rewrite <- IH. unfold applyStep. cbn [fst snd].
  destruct v; reflexivity.
Qed.

Lemma isDeepEqual_record :
  forall fa fb,
    isDeepEqual sameInstance (VObj fa) (VObj fb) =
    if strictEq sameInstance (VObj fa) (VObj fb) then true
    else
      Nat.eqb (List.length fa) (List.length fb) &&
      forallb (fun kx => match lookup (fst kx) fb with
                         | Some y => isDeepEqual sameInstance (snd kx) y
                         | None => false
                         end) fa.
Proof.
  intros fa fb. cbn [isDeepEqual].
  destruct (strictEq sameInstance (VObj fa) (VObj fb)); [reflexivity|].
  f_equal. induction fa as [|[k x] rest IH]; [reflexivity|].
  cbn [forallb fst snd]. rewrite <- IH. reflexivity.
Qed.

Lemma isDeepEqual_array :
  forall xs ys,
    isDeepEqual sameInstance (VArr xs) (VArr ys) =
    if strictEq sameInstance (VArr xs) (VArr ys) then true
    else
      Nat.eqb (List.length xs) (List.length ys) &&
      forallb (fun xy => isDeepEqual sameInstance (fst xy) (snd xy))
        (combine xs ys) .
Proof.
  intros xs ys. cbn [isDeepEqual].
  destruct (strictEq sameInstance (VArr xs) (VArr ys)); [reflexivity|].
  destruct (Nat.eqb (List.length xs) (List.length ys)) eqn:Hlen;
    [|reflexivity].
  cbn [andb]. apply Nat.eqb_eq in Hlen. revert ys Hlen.
  induction xs as [|x xs IH]; intros [|y ys] Hlen; try discriminate;
    [reflexivity|].
  cbn [combine forallb fst snd]. rewrite <- IH; [reflexivity|].
  cbn in Hlen. lia.
Qed.

End Equations.

Lemma deepClone_record_eq :
  forall fs,
    deepClone (VObj fs) =
    VObj (fold_left
            (fun result kx => assign (fst kx) (deepClone (snd kx)) result)
            fs []).
Proof.
  intros fs. cbn [deepClone]. f_equal.
  generalize (@nil (string * value)).
  induction fs as [|[k x] rest IH]; intros acc; [reflexivity|].
  cbn [fold_left fst snd]. rewrite <- IH. reflexivity.
Qed.

Lemma copy_fresh :
  forall fs acc,
    NoDup (keys (acc ++ fs)) ->
    (forall k v, In (k, v) fs -> deepClone v = v) ->
    fold_left (fun result kx => assign (fst kx) (deepClone (snd kx)) result)
      fs acc = acc ++ fs.
Proof.
  induction fs as [|[k x] rest IH]; intros acc Hnd Hall.
  - rewrite app_nil_r. reflexivity.
  - cbn [fold_left fst snd].
    rewrite (Hall k x (or_introl eq_refl)).
    assert (Hfresh : lookup k acc = None).
    { apply lookup_None_keys. intros Hin.
      unfold keys in Hnd. rewrite map_app in Hnd. cbn in Hnd.
      apply NoDup_remove_2 in Hnd. apply Hnd. apply in_or_app. left.
      exact Hin. }
    rewrite (assign_fresh k x acc Hfresh).
    rewrite IH.
    + rewrite <- app_assoc. reflexivity.
    + rewrite <- app_assoc. exact Hnd.
    + intros k' v' Hin. apply (Hall k' v'). right. exact Hin.
Qed.

Lemma deepClone_data :
  forall v, isData v = true -> deepClone v = v.
Proof.
  induction v using value_induction; intros Hd; try reflexivity;
    try discriminate.
  - cbn [deepClone]. f_equal. cbn in Hd. rewrite forallb_forall in Hd.
    rewrite <- (map_id items) at 2. apply map_ext_in.
    intros x Hx. rewrite Forall_forall in H. exact (H x Hx (Hd x Hx)).
  - rewrite deepClone_record_eq. f_equal.
    destruct (isData_record fields Hd) as [Hnd Hall].
    rewrite copy_fresh; [reflexivity|exact Hnd|].
    intros k v Hin. rewrite Forall_forall in H.
    exact (H (k, v) Hin (Hall k v Hin)).
Qed.

Lemma cloneRecord_data :
  forall r, isData (VObj r) = true -> cloneRecord r = r.
Proof.
  intros r Hd. unfold cloneRecord. rewrite (deepClone_data (VObj r) Hd).
  reflexivity.
Qed.

Lemma in_combine_same :
  forall (A : Type) (l : list A) (x y : A),
    In (x, y) (combine l l) -> x = y /\ In x l.
Proof.
  intros A l x y. induction l as [|a l IH]; cbn; [intros []|].
  intros [E|H].
  - injection E as <- <-. split; [reflexivity|left; reflexivity].
  - destruct (IH H) as [E Hin]. split; [exact E|right; exact Hin].
Qed.


Section Reflexivity.

Variable sameInstance : value -> value -> bool.


Lemma isDeepEqual_refl :
  forall v,
    isData v = true -> finite v = true -> isDeepEqual sameInstance v v = true.
Proof.
  induction v as [|flag|num|str|sec nano| | |items IH|fields IH]
    using value_induction; intros Hd Hf; try discriminate.
  - reflexivity.
  - cbn. rewrite Bool.eqb_reflx. reflexivity.
  - destruct num as [z|]; [|discriminate]. cbn. rewrite Z.eqb_refl.
    reflexivity.
  - cbn. rewrite String.eqb_refl. reflexivity.
  - cbn [isDeepEqual]. rewrite !Z.eqb_refl.
    destruct (strictEq sameInstance _ _); reflexivity.
  - rewrite isDeepEqual_array.
    destruct (strictEq sameInstance _ _); [reflexivity|].
    rewrite Nat.eqb_refl. cbn [andb]. apply forallb_forall.
    intros [x y] Hin. apply in_combine_same in Hin. destruct Hin as [<- Hin].
    cbn [fst snd]. cbn in Hd, Hf. rewrite forallb_forall in Hd, Hf.
    rewrite Forall_forall in IH. exact (IH x Hin (Hd x Hin) (Hf x Hin)).
  - rewrite isDeepEqual_record.
    destruct (strictEq sameInstance _ _); [reflexivity|].
    rewrite Nat.eqb_refl. cbn [andb]. apply forallb_forall.
    intros [k x] Hin. cbn [fst snd].
    destruct (isData_record fields Hd) as [Hnd Hall].
    rewrite (In_lookup k x fields Hnd Hin).
    cbn in Hf. rewrite forallb_forall in Hf.
    rewrite Forall_forall in IH.
    exact (IH (k, x) Hin (Hall k x Hin) (Hf (k, x) Hin)).
Qed.

End Reflexivity.

(** ** Write errors *)








(** ** Diff algebra: the no-op diff *)

Section NoOp.

Variable sameInstance : value -> value -> bool.



Lemma apply_stored :
  forall now a d,
    (forall k v, In (k, v) d -> lookup k a = Some v /\ storedAsIs v) ->
    fold_left (applyStep now) d a = a.
Proof.
  intros now a d. induction d as [|[k v] rest IH]; intros Hd; [reflexivity|].
  cbn [fold_left]. destruct (Hd k v (or_introl eq_refl)) as [Hl Hs].
  assert (Hstep : applyStep now a (k, v) = a).
  { unfold applyStep. cbn [fst snd].
    destruct v; try contradiction; apply assign_same; exact Hl. }
  rewrite Hstep. apply IH. intros k' v' Hin. apply Hd. right. exact Hin.
Qed.




End NoOp.


(** A record that is not deep-equal to itself, because it holds a [NaN],
    is diffed field by field even against itself, and loses its [null]
    fields at every depth. *)
Example noop_diff_loses_null_beside_NaN :
  applyDiff epoch [("o", VObj [("n", VNum NaN); ("x", VNull)])]
    (computeDiff distinctInstances
       [("o", VObj [("n", VNum NaN); ("x", VNull)])]
       (Some [("o", VObj [("n", VNum NaN); ("x", VNull)])]))
  = [("o", VObj [("n", VNum NaN)])].
Proof. reflexivity. Qed.



(** ** Diff algebra: flattening *)

Section Paths.

Lemma split_nonempty : forall s, split s <> [].
Proof.
  intros s. destruct s as [|c s]; cbn; [discriminate|].
  destruct (Ascii.eqb c "."%char); [discriminate|].
  destruct (split s); discriminate.
Qed.

Lemma split_dotFree : forall k, dotFree k = true -> split k = [k].
Proof.
  induction k as [|c k IH]; cbn; [reflexivity|].
  intros H. apply andb_true_iff in H. destruct H as [Hc Hk].
  apply negb_true_iff in Hc. rewrite Hc, (IH Hk). reflexivity.
Qed.

Lemma split_snoc :
  forall p k,
    dotFree k = true -> split (p ++ "." ++ k)%string = split p ++ [k].
Proof.
  intros p k Hk. induction p as [|c p IH]; cbn in *.
  - rewrite (split_dotFree k Hk). reflexivity.
  - rewrite IH. destruct (Ascii.eqb c "."%char); [reflexivity|].
    destruct (split p) as [|q qs] eqn:E; [|reflexivity].
    exfalso. exact (split_nonempty p E).
Qed.

Lemma extend_nonempty :
  forall p k, String.eqb k "" = false -> String.eqb (extend p k) "" = false.
Proof.
  intros p k Hk. unfold extend. destruct (String.eqb p "") eqn:Hp;
    [exact Hk|].
  destruct p; [discriminate|reflexivity].
Qed.

Lemma joinPath_snoc :
  forall pre k, joinPath (pre ++ [k]) = extend (joinPath pre) k.
Proof.
  intros pre k. unfold joinPath. rewrite fold_left_app. reflexivity.
Qed.

Lemma joinPath_nonempty :
  forall pre,
    pre <> [] -> forallb pathKey pre = true ->
    String.eqb (joinPath pre) "" = false.
Proof.
  intros pre. induction pre as [|k pre IH] using rev_ind; [contradiction|].
  intros _ H. rewrite joinPath_snoc. apply extend_nonempty.
  rewrite forallb_app in H. apply andb_true_iff in H. destruct H as [_ H].
  cbn in H. rewrite andb_true_r in H. unfold pathKey in H.
  apply andb_true_iff in H. destruct H as [H _].
  apply negb_true_iff in H. exact H.
Qed.

Lemma split_joinPath :
  forall pre,
    pre <> [] -> forallb pathKey pre = true -> split (joinPath pre) = pre.
Proof.
  intros pre. induction pre as [|k pre IH] using rev_ind; [contradiction|].
  intros _ H. rewrite joinPath_snoc.
  rewrite forallb_app in H. apply andb_true_iff in H. destruct H as [Hpre Hk].
  cbn in Hk. rewrite andb_true_r in Hk. unfold pathKey in Hk.
  apply andb_true_iff in Hk. destruct Hk as [_ Hk].
  unfold extend. destruct pre as [|p pre].
  - cbn. apply split_dotFree. exact Hk.
  - rewrite (joinPath_nonempty (p :: pre)); [|discriminate|exact Hpre].
    rewrite (split_snoc _ k Hk), IH; [reflexivity|discriminate|exact Hpre].
Qed.

End Paths.

Section Flatten.

Lemma leaves_record :
  forall fs pre, leaves (VObj fs) pre = flat_map (piece pre) fs.
Proof. reflexivity. Qed.

Lemma flattenValue_eq :
  forall dfs prefix,
    flattenValue (VObj dfs) prefix = fold_left (flattenStep prefix) dfs [].
Proof.
  intros dfs prefix. cbn [flattenValue].
  generalize (@nil (string * value)).
  induction dfs as [|[key v] rest IH]; intros acc; [reflexivity|].
  cbn [fold_left]. rewrite <- IH. unfold flattenStep, extend. cbn [fst snd].
  destruct v; reflexivity.
Qed.

Lemma flattenable_record :
  forall fs,
    flattenable (VObj fs) = true ->
    NoDup (keys fs) /\
    forallb pathKey (keys fs) = true /\
    forall k v, In (k, v) fs ->
      v <> VObj [] /\ flattenable v = true.
Proof.
  intros fs H. cbn [flattenable] in H.
  apply andb_true_iff in H. destruct H as [H Hall].
  apply andb_true_iff in H. destruct H as [Hd Hk].
  split; [apply distinct_NoDup; exact Hd|]. split; [exact Hk|].
  intros k v Hin. rewrite forallb_forall in Hall.
  specialize (Hall (k, v) Hin). cbn [snd] in Hall.
  destruct v as [| | | | | | | |[|e n]]; try (split; [discriminate|reflexivity]).
  split; [discriminate|exact Hall].
Qed.

Lemma pathKey_In :
  forall k ks, forallb pathKey ks = true -> In k ks -> pathKey k = true.
Proof.
  intros k ks H Hin. rewrite forallb_forall in H. exact (H k Hin).
Qed.

Lemma In_keys :
  forall k v (fs : record), In (k, v) fs -> In k (keys fs).
Proof.
  intros k v fs Hin. unfold keys. apply in_map_iff.
  exists (k, v). split; [reflexivity|exact Hin].
Qed.

Lemma leaves_shape :
  forall v pre e,
    flattenable v = true ->
    forallb pathKey pre = true ->
    In e (leaves v pre) ->
    (exists k rest, fst e = pre ++ k :: rest /\ In k (objectKeys v)) /\
    forallb pathKey (fst e) = true.
Proof.
  induction v using value_induction; intros pre e Hf Hpre Hin;
    try (cbn in Hin; contradiction).
  rewrite leaves_record in Hin. apply in_flat_map in Hin.
  destruct Hin as [[k x] [Hkx He]].
  destruct (flattenable_record fields Hf) as (Hnd & Hkeys & Hall).
  assert (Hk : pathKey k = true)
    by exact (pathKey_In k _ Hkeys (In_keys k x fields Hkx)).
  assert (Hpre' : forallb pathKey (pre ++ [k]) = true).
  { rewrite forallb_app, Hpre. cbn. rewrite Hk. reflexivity. }
  rewrite Forall_forall in H. specialize (H (k, x) Hkx). cbn [snd] in H.
  unfold piece in He. cbn [fst snd] in He.
  assert (Hleaf : e = (pre ++ [k], x) ->
            (exists k0 rest, fst e = pre ++ k0 :: rest /\
                             In k0 (objectKeys (VObj fields))) /\
            forallb pathKey (fst e) = true).
  { intros ->. cbn [fst]. split; [|exact Hpre'].
    exists k, []. split; [reflexivity|]. exact (In_keys k x fields Hkx). }
  destruct x; try (destruct He as [He|[]]; apply Hleaf; symmetry; exact He).
  destruct (H (pre ++ [k]) e (proj2 (Hall k _ Hkx)) Hpre' He)
    as [[k' [rest [Hfst _]]] Hall'].
  split; [|exact Hall'].
  exists k, (k' :: rest). split; [|exact (In_keys k _ fields Hkx)].
  rewrite Hfst, <- app_assoc. reflexivity.
Qed.

Lemma piece_shape :
  forall pre k x e,
    flattenable x = true -> forallb pathKey pre = true ->
    pathKey k = true ->
    In e (piece pre (k, x)) ->
    (exists rest, fst e = pre ++ k :: rest) /\
    forallb pathKey (fst e) = true.
Proof.
  intros pre k x e Hf Hpre Hk Hin.
  assert (Hpre' : forallb pathKey (pre ++ [k]) = true).
  { rewrite forallb_app, Hpre. cbn. rewrite Hk. reflexivity. }
  unfold piece in Hin. cbn [fst snd] in Hin.
  assert (Hleaf : e = (pre ++ [k], x) ->
            (exists rest, fst e = pre ++ k :: rest) /\
            forallb pathKey (fst e) = true).
  { intros ->. split; [exists []; reflexivity|exact Hpre']. }
  destruct x; try (destruct Hin as [He|[]]; apply Hleaf; symmetry; exact He).
  destruct (leaves_shape _ _ _ Hf Hpre' Hin) as [[k' [rest [Hfst _]]] Hall].
  split; [|exact Hall]. exists (k' :: rest).
  rewrite Hfst, <- app_assoc. reflexivity.
Qed.

Lemma leaves_NoDup :
  forall v pre,
    flattenable v = true -> forallb pathKey pre = true ->
    NoDup (map fst (leaves v pre)).
Proof.
  induction v using value_induction; intros pre Hf Hpre;
    try (cbn; constructor).
  rewrite leaves_record.
  destruct (flattenable_record fields Hf) as (Hnd & Hkeys & Hall).
  clear Hf. induction fields as [|[k x] rest IHrest]; [constructor|].
  cbn [flat_map]. rewrite map_app.
  inversion H as [|? ? Hx Hrest]; subst.
  inversion Hnd as [|? ? Hnotin Hnd']; subst.
  cbn [keys map fst forallb] in Hkeys.
  apply andb_true_iff in Hkeys. destruct Hkeys as [Hk Hkeys].
  assert (Hfx : flattenable x = true)
    by exact (proj2 (Hall k x (or_introl eq_refl))).
  apply NoDup_app.
  - unfold piece. cbn [fst snd]. cbn [snd] in Hx.
    destruct x; try (cbn; constructor; [intros []|constructor]).
    apply Hx; [exact Hfx|].
    rewrite forallb_app, Hpre. cbn. rewrite Hk. reflexivity.
  - apply IHrest; [exact Hrest|exact Hnd'|exact Hkeys|].
    intros k' v' Hin. apply (Hall k' v'). right. exact Hin.
  - intros p Hp Hp'. apply in_map_iff in Hp. destruct Hp as [e [<- He]].
    apply in_map_iff in Hp'. destruct Hp' as [e' [Heq He']].
    apply in_flat_map in He'. destruct He' as [[k' x'] [Hin' He']].
    destruct (piece_shape pre k x e Hfx Hpre Hk He) as [[r Hr] _].
    assert (Hk' : pathKey k' = true)
      by exact (pathKey_In k' _ Hkeys (In_keys k' x' rest Hin')).
    destruct (piece_shape pre k' x' e'
                (proj2 (Hall k' x' (or_intror Hin'))) Hpre Hk' He')
      as [[r' Hr'] _].
    rewrite Hr, Hr' in Heq. apply app_inv_head in Heq.
    injection Heq as Hkk _. subst k'.
    apply Hnotin. exact (In_keys k x' rest Hin').
Qed.

Lemma joinPath_injective :
  forall p q,
    p <> [] -> q <> [] ->
    forallb pathKey p = true -> forallb pathKey q = true ->
    joinPath p = joinPath q -> p = q.
Proof.
  intros p q Hp Hq Hpk Hqk H.
  rewrite <- (split_joinPath p Hp Hpk), <- (split_joinPath q Hq Hqk), H.
  reflexivity.
Qed.

Lemma leaves_keys_NoDup :
  forall v pre,
    flattenable v = true -> forallb pathKey pre = true ->
    NoDup (keys (map pathEntry (leaves v pre))).
Proof.
  intros v pre Hf Hpre. unfold keys. rewrite map_map.
  change (fun x => fst (pathEntry x)) with (fun x => joinPath (@fst _ value x)).
  rewrite <- (map_map fst joinPath).
  apply NoDup_map_NoDup_ForallPairs; [|exact (leaves_NoDup v pre Hf Hpre)].
  intros p q Hp Hq Heq.
  apply in_map_iff in Hp. destruct Hp as [e [<- He]].
  apply in_map_iff in Hq. destruct Hq as [e' [<- He']].
  destruct (leaves_shape v pre e Hf Hpre He) as [[k [r [Hs _]]] Hall].
  destruct (leaves_shape v pre e' Hf Hpre He') as [[k' [r' [Hs' _]]] Hall'].
  apply joinPath_injective; try assumption.
  - rewrite Hs. destruct pre; discriminate.
  - rewrite Hs'. destruct pre; discriminate.
Qed.

Lemma assignAll_fresh :
  forall src acc,
    NoDup (keys (acc ++ src)) -> assignAll acc src = acc ++ src.
Proof.
  unfold assignAll.
  induction src as [|[k v] rest IH]; intros acc Hnd; cbn [fold_left].
  - rewrite app_nil_r. reflexivity.
  - cbn [fst snd].
    assert (Hfresh : lookup k acc = None).
    { apply lookup_None_keys. intros Hin.
      unfold keys in Hnd. rewrite map_app in Hnd. cbn in Hnd.
      apply NoDup_remove_2 in Hnd. apply Hnd. apply in_or_app. left.
      exact Hin. }
    rewrite (assign_fresh k v acc Hfresh), IH; rewrite <- app_assoc;
      [reflexivity|exact Hnd].
Qed.

Lemma flatten_leaves :
  forall v pre,
    flattenable v = true -> forallb pathKey pre = true ->
    flattenValue v (joinPath pre) = map pathEntry (leaves v pre).
Proof.
  induction v using value_induction; intros pre Hf Hpre; try reflexivity.
  rewrite flattenValue_eq.
  pose proof (leaves_keys_NoDup (VObj fields) pre Hf Hpre) as Hnd.
  rewrite leaves_record in *.
  destruct (flattenable_record fields Hf) as (_ & Hkeys & Hall).
  clear Hf.
  change (map pathEntry (flat_map (piece pre) fields))
    with ([] ++ map pathEntry (flat_map (piece pre) fields)).
  change (map pathEntry (flat_map (piece pre) fields))
    with ([] ++ map pathEntry (flat_map (piece pre) fields)) in Hnd.
  revert Hnd. generalize (@nil (string * value)) as acc.
  induction fields as [|[k x] rest IHrest]; intros acc Hnd.
  - cbn. rewrite app_nil_r. reflexivity.
  - cbn [fold_left flat_map]. rewrite map_app.
    inversion H as [|? ? Hx Hrest]; subst. cbn [snd] in Hx.
    cbn [keys map fst forallb] in Hkeys.
    apply andb_true_iff in Hkeys. destruct Hkeys as [Hk Hkeys].
    cbn [flat_map] in Hnd. rewrite map_app, app_assoc in Hnd.
    assert (Hstep : flattenStep (joinPath pre) acc (k, x)
                    = acc ++ map pathEntry (piece pre (k, x))).
    { assert (Hnd1 : NoDup (keys (acc ++ map pathEntry (piece pre (k, x))))).
      { unfold keys in *. rewrite map_app in Hnd.
        exact (NoDup_app_remove_r _ _ Hnd). }
      unfold flattenStep, piece in *. cbn [fst snd] in *.
      rewrite <- joinPath_snoc.
      assert (Hleaf : forall y,
                NoDup (keys (acc ++ map pathEntry [(pre ++ [k], y)])) ->
                assign (joinPath (pre ++ [k])) y acc =
                acc ++ map pathEntry [(pre ++ [k], y)]).
      { intros y Hy. apply assign_fresh. apply lookup_None_keys.
        intros Hin. unfold keys in Hy. rewrite map_app in Hy. cbn in Hy.
        apply NoDup_remove_2 in Hy. apply Hy. rewrite app_nil_r.
        exact Hin. }
      destruct x; try (apply Hleaf; exact Hnd1).
      rewrite Hx.
      - apply assignAll_fresh. exact Hnd1.
      - exact (proj2 (Hall k _ (or_introl eq_refl))).
      - rewrite forallb_app, Hpre. cbn. rewrite Hk. reflexivity. }
    rewrite Hstep, app_assoc. apply IHrest.
    + exact Hrest.
    + exact Hkeys.
    + intros k' v' Hin. apply (Hall k' v'). right. exact Hin.
    + exact Hnd.
Qed.

End Flatten.

Section Unflatten.

Lemma insertAll_app :
  forall es1 es2 acc r,
    insertAll es1 acc = Ok r ->
    insertAll (es1 ++ es2) acc = insertAll es2 r.
Proof.
  induction es1 as [|[p v] rest IH]; intros es2 acc r H; cbn in *.
  - injection H as ->. reflexivity.
  - destruct (setPath p v acc); try discriminate. exact (IH es2 a r H).
Qed.

Lemma unflattenInto_insertAll :
  forall es acc,
    (forall e, In e es -> fst e <> [] /\ forallb pathKey (fst e) = true) ->
    unflattenInto (map pathEntry es) acc = insertAll es acc.
Proof.
  induction es as [|[p v] rest IH]; intros acc Hes; [reflexivity|].
  cbn [map pathEntry fst snd unflattenInto insertAll].
  destruct (Hes (p, v) (or_introl eq_refl)) as [Hne Hpk]. cbn [fst] in *.
  rewrite (split_joinPath p Hne Hpk).
  destruct (setPath p v acc); try reflexivity.
  apply IH. intros e He. apply Hes. right. exact He.
Qed.

Lemma assign_assign :
  forall k v1 v2 r, assign k v2 (assign k v1 r) = assign k v2 r.
Proof.
  intros k v1 v2 r. induction r as [|[k' v'] r IH]; cbn.
  - rewrite String.eqb_refl. reflexivity.
  - destruct (String.eqb k k') eqn:E; cbn.
    + rewrite String.eqb_refl. reflexivity.
    + rewrite E, IH. reflexivity.
Qed.

(** Inserting paths that all start with [k] fills the record under [k]. *)
Lemma insert_under :
  forall k es sub acc r,
    es <> [] ->
    (forall e, In e es -> fst e <> []) ->
    (lookup k acc = None /\ sub = [] \/ lookup k acc = Some (VObj sub)) ->
    insertAll es sub = Ok r ->
    insertAll (map (fun e => (k :: fst e, snd e)) es) acc =
      Ok (assign k (VObj r) acc).
Proof.
  intros k es. induction es as [|[p v] rest IH]; intros sub acc r Hne Hp Hk Hr;
    [contradiction|].
  cbn [map fst snd insertAll] in *.
  destruct p as [|p0 p']; [exfalso; exact (Hp _ (or_introl eq_refl) eq_refl)|].
  destruct (setPath (p0 :: p') v sub) as [s1| |] eqn:Hs1; try discriminate.
  assert (Hstep : setPath (k :: p0 :: p') v acc = Ok (assign k (VObj s1) acc)).
  { cbn [setPath]. cbn [setPath] in Hs1.
    destruct Hk as [[Hk ->]|Hk]; rewrite Hk, Hs1; reflexivity. }
  rewrite Hstep. destruct rest as [|e rest'].
  - cbn in *. injection Hr as ->. reflexivity.
  - rewrite (IH s1 (assign k (VObj s1) acc) r).
    + rewrite assign_assign. reflexivity.
    + discriminate.
    + intros e' He'. apply Hp. right. exact He'.
    + right. apply lookup_assign_eq.
    + exact Hr.
Qed.

Lemma leaves_prefix :
  forall v pre,
    leaves v pre = map (fun e => (pre ++ fst e, snd e)) (leaves v []).
Proof.
  induction v using value_induction; intros pre; try reflexivity.
  rewrite !leaves_record.
  induction fields as [|[k x] rest IHrest]; [reflexivity|].
  inversion H as [|? ? Hx Hrest]; subst. cbn [snd] in Hx.
  cbn [flat_map]. rewrite map_app, (IHrest Hrest). f_equal.
  unfold piece. cbn [fst snd app].
  destruct x; try reflexivity.
  rewrite (Hx (pre ++ [k])), (Hx [k]), map_map. apply map_ext.
  intros e. cbn [fst snd]. rewrite <- app_assoc. reflexivity.
Qed.

Lemma leaves_nonempty :
  forall v pre first others,
    flattenable v = true -> v = VObj (first :: others) -> leaves v pre <> [].
Proof.
  induction v using value_induction; intros pre first others Hf Hv;
    try discriminate.
  injection Hv as ->. rewrite leaves_record. cbn [flat_map].
  destruct first as [k x]. inversion H as [|? ? Hx _]; subst.
  cbn [snd] in Hx.
  destruct (flattenable_record _ Hf) as (_ & _ & Hall).
  destruct (Hall k x (or_introl eq_refl)) as [Hne Hfx].
  unfold piece. cbn [fst snd].
  destruct x as [| | | | | | | |[|first' others']]; try discriminate.
  - contradiction.
  - intros Happ. apply app_eq_nil in Happ. destruct Happ as [Happ _].
    exact (Hx (pre ++ [k]) first' others' Hfx eq_refl Happ).
Qed.

Lemma insert_leaves :
  forall v d,
    flattenable v = true -> v = VObj d -> insertAll (leaves v []) [] = Ok d.
Proof.
  induction v using value_induction; intros d Hf Hv; try discriminate.
  injection Hv as ->. rewrite leaves_record.
  destruct (flattenable_record _ Hf) as (Hnd & Hkeys & Hall). clear Hf.
  change d with ([] ++ d) at 2.
  change (keys d) with (keys ([] ++ d)) in Hnd.
  revert Hnd. generalize (@nil (string * value)) as acc.
  induction d as [|[k x] rest IHrest]; intros acc Hnd.
  - cbn. rewrite app_nil_r. reflexivity.
  - inversion H as [|? ? Hx Hrest]; subst. cbn [snd] in Hx.
    cbn [keys map fst forallb] in Hkeys.
    apply andb_true_iff in Hkeys. destruct Hkeys as [Hk Hkeys].
    assert (Hfresh : lookup k acc = None).
    { apply lookup_None_keys. intros Hin.
      unfold keys in Hnd. rewrite map_app in Hnd. cbn in Hnd.
      apply NoDup_remove_2 in Hnd. apply Hnd. apply in_or_app. left.
      exact Hin. }
    destruct (Hall k x (or_introl eq_refl)) as [Hne Hfx].
    assert (Hstep : insertAll (piece [] (k, x)) acc = Ok (acc ++ [(k, x)])).
    { unfold piece. cbn [fst snd app].
      destruct x as [| | | | | | | |[|first others]];
        try (cbn; rewrite (assign_fresh _ _ _ Hfresh); reflexivity).
      - contradiction.
      - rewrite leaves_prefix.
        rewrite (insert_under k _ [] acc (first :: others)).
        + rewrite (assign_fresh _ _ _ Hfresh). reflexivity.
        + exact (leaves_nonempty _ [] first others Hfx eq_refl).
        + intros e' He'.
          destruct (leaves_shape _ [] e' Hfx eq_refl He')
            as [[k' [r [Hs _]]] _].
          rewrite Hs. discriminate.
        + left. split; [exact Hfresh|reflexivity].
        + exact (Hx (first :: others) Hfx eq_refl). }
    cbn [flat_map]. rewrite (insertAll_app _ _ _ _ Hstep).
    rewrite (IHrest Hrest).
    + rewrite <- app_assoc. reflexivity.
    + exact Hkeys.
    + intros k' v' Hin. apply (Hall k' v'). right. exact Hin.
    + rewrite <- app_assoc. exact Hnd.
Qed.

End Unflatten.

(** C9 as stated fails on a diff with an empty nested record: flattening
    drops the record, so the round trip returns the empty diff. *)
Lemma flatten_drops_empty_record :
  flattenDiff (VObj [("a", VObj [])]) "" = [] /\
  unflattenDiff (flattenDiff (VObj [("a", VObj [])]) "") = Ok [] /\
  unflattenDiff (flattenDiff (VObj [("a", VObj [])]) "")
    <> Ok [("a", VObj [])].
Proof.
  repeat split. cbn. discriminate.
Qed.

(** The restriction on keys is needed as well: a key that contains a dot
    comes back as a nested record, and a record stored under the empty key
    loses that level, because [flattenDiff] only prepends a prefix that is
    not empty. *)
Example unflatten_splits_dotted_key :
  unflattenDiff (flattenDiff (VObj [("a.b", VNum 1)]) "")
    = Ok [("a", VObj [("b", VNum 1)])] /\
  unflattenDiff (flattenDiff (VObj [("", VObj [("b", VNum 1)])]) "")
    = Ok [("b", VNum 1)].
Proof.
  split; reflexivity.
Qed.

(** C9, amended. For every diff in which, at every depth, the keys of a
    record are pairwise distinct, non-empty and free of dots and no nested
    record is empty, unflattening the flattened diff returns the diff
    itself; arrays, sentinels, timestamps and [null] are leaves. *)
Theorem unflatten_flatten :
  forall d,
    flattenable (VObj d) = true ->
    unflattenDiff (flattenDiff (VObj d) "") = Ok d.
Proof.
  intros d Hf. unfold unflattenDiff, flattenDiff. cbn [entries].
  change "" with (joinPath []).
  rewrite (flatten_leaves (VObj d) [] Hf eq_refl).
  rewrite unflattenInto_insertAll.
  - exact (insert_leaves (VObj d) d Hf eq_refl).
  - intros e He.
    destruct (leaves_shape (VObj d) [] e Hf eq_refl He)
      as [[k [r [Hs _]]] Hall].
    split; [rewrite Hs; discriminate|exact Hall].
Qed.

Lemma unflatten_flatten_witness :
  unflattenDiff
    (flattenDiff
       (VObj [("building",
               VObj [("floors", VNum 5);
                     ("roof", VObj [("tiles", VArr [VObj []; VNull])])]);
              ("name", VDeleteField);
              ("updatedAt", VServerTimestamp);
              ("note", VNull)]) "")
  = Ok [("building",
         VObj [("floors", VNum 5);
               ("roof", VObj [("tiles", VArr [VObj []; VNull])])]);
        ("name", VDeleteField);
        ("updatedAt", VServerTimestamp);
        ("note", VNull)].
Proof.
  apply unflatten_flatten. reflexivity.
Defined.

(** ** Diff algebra: undoing a diff *)

Section DataLemmas.

Lemma isData_intro :
  forall fs,
    NoDup (keys fs) -> (forall k v, In (k, v) fs -> isData v = true) ->
    isData (VObj fs) = true.
Proof.
  intros fs Hnd Hall. cbn [isData]. apply andb_true_iff. split.
  - apply distinct_NoDup. exact Hnd.
  - apply forallb_forall. intros [k v] Hin. exact (Hall k v Hin).
Qed.

Lemma isData_assign :
  forall k v r,
    isData (VObj r) = true -> isData v = true ->
    isData (VObj (assign k v r)) = true.
Proof.
  intros k v r Hr Hv. destruct (isData_record r Hr) as [Hnd Hall].
  apply isData_intro; [apply NoDup_assign; exact Hnd|].
  intros k' v' Hin. apply In_assign in Hin.
  destruct Hin as [E|Hin]; [injection E as -> ->; exact Hv|].
  exact (Hall k' v' Hin).
Qed.

Lemma isData_remove :
  forall k r, isData (VObj r) = true -> isData (VObj (remove k r)) = true.
Proof.
  intros k r Hr. destruct (isData_record r Hr) as [Hnd Hall].
  apply isData_intro; [apply NoDup_remove; exact Hnd|].
  intros k' v' Hin. exact (Hall k' v' (In_remove k _ r Hin)).
Qed.

Lemma isData_lookup :
  forall k v r, isData (VObj r) = true -> lookup k r = Some v ->
                isData v = true.
Proof.
  intros k v r Hr Hl. destruct (isData_record r Hr) as [_ Hall].
  exact (Hall k v (lookup_In k v r Hl)).
Qed.

Lemma isDiff_record :
  forall fs,
    isDiff (VObj fs) = true ->
    NoDup (keys fs) /\ forall k v, In (k, v) fs -> isDiff v = true.
Proof.
  intros fs H. cbn in H. apply andb_true_iff in H. destruct H as [Hd Hall].
  split; [apply distinct_NoDup; exact Hd|].
  intros k v Hin. rewrite forallb_forall in Hall. exact (Hall (k, v) Hin).
Qed.



(** Applying a well-formed diff to data gives data. *)
Lemma apply_data :
  forall now diff target,
    isDiff diff = true -> isData (VObj target) = true ->
    isData (VObj (applyDiffValue now target diff)) = true.
Proof.
  intros now. induction diff using value_induction; intros target Hdiff Ht;
    try exact Ht.
  rewrite applyDiffValue_eq.
  destruct (isDiff_record fields Hdiff) as [_ Hall]. clear Hdiff.
  revert target Ht.
  induction fields as [|[k v] rest IHrest]; intros target Ht; [exact Ht|].
  inversion H as [|? ? Hv Hrest]; subst. cbn [snd] in Hv.
  cbn [fold_left]. apply IHrest.
  - exact Hrest.
  - intros k' v' Hin. apply (Hall k' v'). right. exact Hin.
  - pose proof (Hall k v (or_introl eq_refl)) as Hdv.
    unfold applyStep. cbn [fst snd].
    destruct v; try (apply isData_assign; [exact Ht|exact Hdv]).
    + apply isData_remove. exact Ht.
    + apply isData_assign; [exact Ht|].
      apply Hv; [exact Hdv|].
      destruct (lookup k target) as [[| | | | | | | |e]|] eqn:Hl;
        try reflexivity.
      exact (isData_lookup k _ target Ht Hl).
Qed.

Lemma digitsOnly_uint :
  forall u, digitsOnly (NilEmpty.string_of_uint u) = true.
Proof.
  induction u; cbn; try reflexivity; exact IHu.
Qed.



Lemma objectKeys_fieldName :
  forall f k,
    fieldName k = true -> (forall r, f <> VObj r) -> ~ In k (objectKeys f).
Proof.
  intros f k Hk Hf. unfold fieldName in Hk.
  repeat (apply andb_true_iff in Hk; destruct Hk as [Hk ?]).
  repeat match goal with
         | H : negb _ = true |- _ => apply negb_true_iff in H
         end.
  assert (Hidx : forall n, ~ In k (map indexKey (seq 0 n))).
  { intros n Hin. apply in_map_iff in Hin. destruct Hin as [i [<- _]].
    unfold indexKey in *. rewrite digitsOnly_uint in *. discriminate. }
  destruct f; cbn [objectKeys]; intros Hin;
    try (exact (Hidx _ Hin));
    try (exfalso; exact (Hf _ eq_refl));
    cbn in Hin;
    repeat (destruct Hin as [Hin|Hin]; [subst k; cbn in *; discriminate|]);
    exact Hin.
Qed.

End DataLemmas.

Section Pointwise.

Variable sameInstance : value -> value -> bool.

Lemma changedStep_changeOf :
  forall from diff k v,
    changedStep sameInstance from diff (k, v) =
    match changeOf sameInstance from k v with
    | Some c => assign k c diff
    | None => diff
    end.
Proof.
  intros from diff k v. unfold changedStep, changeOf. cbn [fst snd].
  destruct v;
    repeat match goal with
           | |- context [if ?c then _ else _] => destruct c
           end; reflexivity.
Qed.

Lemma lookup_changed :
  forall from fs acc k,
    NoDup (keys fs) ->
    lookup k (fold_left (changedStep sameInstance from) fs acc) =
    match lookup k fs with
    | Some yv =>
        match changeOf sameInstance from k yv with
        | Some c => Some c
        | None => lookup k acc
        end
    | None => lookup k acc
    end.
Proof.
  intros from fs. induction fs as [|[k0 v0] rest IH]; intros acc k Hnd;
    [reflexivity|].
  inversion Hnd as [|? ? Hnotin Hnd']; subst.
  cbn [fold_left]. rewrite (IH _ k Hnd'). rewrite changedStep_changeOf.
  cbn [lookup]. destruct (String.eqb_spec k k0) as [->|Hne].
  - apply lookup_None_keys in Hnotin. rewrite Hnotin.
    destruct (changeOf sameInstance from k0 v0);
      [apply lookup_assign_eq|reflexivity].
  - destruct (changeOf sameInstance from k0 v0);
      [rewrite (lookup_assign_neq k0 k _ _ Hne)|]; reflexivity.
Qed.

Lemma NoDup_changed :
  forall from fs acc,
    NoDup (keys acc) ->
    NoDup (keys (fold_left (changedStep sameInstance from) fs acc)).
Proof.
  intros from fs. induction fs as [|[k0 v0] rest IH]; intros acc Hnd;
    [exact Hnd|].
  cbn [fold_left]. apply IH. rewrite changedStep_changeOf.
  destruct (changeOf sameInstance from k0 v0);
    [apply NoDup_assign|]; exact Hnd.
Qed.

Lemma In_changed :
  forall from fs acc k v,
    In (k, v) (fold_left (changedStep sameInstance from) fs acc) ->
    In (k, v) acc \/
    exists yv, In (k, yv) fs /\ changeOf sameInstance from k yv = Some v.
Proof.
  intros from fs. induction fs as [|[k0 v0] rest IH]; intros acc k v Hin;
    [left; exact Hin|].
  cbn [fold_left] in Hin. apply IH in Hin. destruct Hin as [Hin|[yv [Hy Hc]]].
  - rewrite changedStep_changeOf in Hin.
    destruct (changeOf sameInstance from k0 v0) as [c|] eqn:Hc;
      [|left; exact Hin].
    apply In_assign in Hin. destruct Hin as [E|Hin]; [|left; exact Hin].
    injection E as -> ->. right. exists v0. split; [left; reflexivity|exact Hc].
  - right. exists yv. split; [right; exact Hy|exact Hc].
Qed.

(** Whether the second loop of [computeDiff] marks [key]. *)
Lemma markRemoved_step :
  forall to diff key,
    match lookup key to with
    | None => if inherited key then diff else assign key VDeleteField diff
    | Some VNull => assign key VDeleteField diff
    | Some _ => diff
    end = diff \/
    match lookup key to with
    | None => if inherited key then diff else assign key VDeleteField diff
    | Some VNull => assign key VDeleteField diff
    | Some _ => diff
    end = assign key VDeleteField diff.
Proof.
  intros to diff key.
  destruct (lookup key to) as [[| | | | | | | |]|]; auto.
  destruct (inherited key); auto.
Qed.

Lemma lookup_markRemoved_deleted :
  forall from to diff k,
    In k (objectKeys from) ->
    (lookup k to = None /\ inherited k = false) \/ lookup k to = Some VNull ->
    lookup k (markRemoved from to diff) = Some VDeleteField.
Proof.
  intros from to diff k Hin Hto. unfold markRemoved.
  revert diff Hin. induction (objectKeys from) as [|k0 ks IH];
    intros diff Hin; [contradiction|].
  cbn [fold_left].
  assert (Hkeep : forall ks' d,
            lookup k d = Some VDeleteField ->
            lookup k (fold_left
              (fun diff key =>
                 match lookup key to with
                 | None =>
                     if inherited key then diff
                     else assign key VDeleteField diff
                 | Some VNull => assign key VDeleteField diff
                 | Some _ => diff
                 end) ks' d) = Some VDeleteField).
  { induction ks' as [|k1 ks' IH']; intros d Hd; [exact Hd|].
    cbn [fold_left]. apply IH'.
    destruct (markRemoved_step to d k1) as [-> | ->]; [exact Hd|].
    destruct (string_dec k k1) as [->|Hne];
      [apply lookup_assign_eq
      |rewrite lookup_assign_neq by exact Hne; exact Hd]. }
  destruct (string_dec k k0) as [->|Hne].
  - apply Hkeep. destruct Hto as [[-> ->] | ->]; apply lookup_assign_eq.
  - apply IH. destruct Hin as [E|Hin]; [exfalso; apply Hne; symmetry;
                                          exact E|exact Hin].
Qed.

Lemma lookup_markRemoved_kept :
  forall from to diff k,
    ~ In k (objectKeys from) \/
    (exists v, lookup k to = Some v /\ v <> VNull) \/
    (lookup k to = None /\ inherited k = true) ->
    lookup k (markRemoved from to diff) = lookup k diff.
Proof.
  intros from to diff k Hk. unfold markRemoved.
  revert diff Hk. induction (objectKeys from) as [|k0 ks IH];
    intros diff Hk; [reflexivity|].
  cbn [fold_left]. rewrite IH.
  - destruct (string_dec k k0) as [->|Hne].
    + destruct Hk as [Hk|[[v [Hv Hnn]]|[Hv Hi]]];
        [exfalso; apply Hk; left; reflexivity| |].
      * rewrite Hv. destruct v; try reflexivity. contradiction.
      * rewrite Hv, Hi. reflexivity.
    + destruct (markRemoved_step to diff k0) as [-> | ->]; [reflexivity|].
      apply lookup_assign_neq; exact Hne.
  - destruct Hk as [Hk|Hk]; [left|right; exact Hk].
    intros Hin. apply Hk. right. exact Hin.
Qed.

Lemma NoDup_markRemoved :
  forall from to diff,
    NoDup (keys diff) -> NoDup (keys (markRemoved from to diff)).
Proof.
  intros from to diff. unfold markRemoved. revert diff.
  induction (objectKeys from) as [|k0 ks IH]; intros diff Hnd; [exact Hnd|].
  cbn [fold_left]. apply IH.
  destruct (markRemoved_step to diff k0) as [-> | ->]; [exact Hnd|].
  apply NoDup_assign; exact Hnd.
Qed.

Lemma In_markRemoved :
  forall from to diff k v,
    In (k, v) (markRemoved from to diff) -> v = VDeleteField \/ In (k, v) diff.
Proof.
  intros from to diff k v. unfold markRemoved. revert diff.
  induction (objectKeys from) as [|k0 ks IH]; intros diff Hin;
    [right; exact Hin|].
  cbn [fold_left] in Hin. apply IH in Hin.
  destruct Hin as [E|Hin]; [left; exact E|].
  destruct (markRemoved_step to diff k0) as [E | E]; rewrite E in Hin;
    [right; exact Hin|].
  apply In_assign in Hin. destruct Hin as [E'|Hin];
    [injection E' as _ ->; left; reflexivity|right; exact Hin].
Qed.

Lemma In_keys_markRemoved :
  forall from to diff k,
    In k (keys (markRemoved from to diff)) ->
    In k (keys diff) \/ In k (objectKeys from).
Proof.
  intros from to diff k. unfold markRemoved.
  generalize (objectKeys from) as ks. intros ks. revert diff.
  induction ks as [|key ks IH]; intros diff Hin; [left; exact Hin|].
  cbn [fold_left] in Hin. apply IH in Hin.
  destruct Hin as [Hin|Hin]; [|right; right; exact Hin].
  destruct (markRemoved_step to diff key) as [E | E]; rewrite E in Hin;
    [left; exact Hin|].
  apply In_keys_assign in Hin.
  destruct Hin as [->|Hin]; [right; left; reflexivity|left; exact Hin].
Qed.

Lemma lookup_applied :
  forall now d target k,
    NoDup (keys d) ->
    lookup k (fold_left (applyStep now) d target) =
    match lookup k d with
    | Some dv => appliedValue now dv (lookup k target)
    | None => lookup k target
    end.
Proof.
  intros now d. induction d as [|[k0 v0] rest IH]; intros target k Hnd;
    [reflexivity|].
  inversion Hnd as [|? ? Hnotin Hnd']; subst.
  cbn [fold_left]. rewrite (IH _ k Hnd'). cbn [lookup].
  destruct (String.eqb_spec k k0) as [->|Hne].
  - apply lookup_None_keys in Hnotin. rewrite Hnotin.
    unfold applyStep, appliedValue. cbn [fst snd].
    destruct v0; try apply lookup_assign_eq. apply lookup_remove_eq.
  - assert (Hsame : lookup k (applyStep now target (k0, v0)) = lookup k target).
    { unfold applyStep. cbn [fst snd].
      destruct v0; try (apply lookup_assign_neq; exact Hne).
      apply lookup_remove_neq. exact Hne. }
    rewrite Hsame. reflexivity.
Qed.

Lemma NoDup_applied :
  forall now d target,
    NoDup (keys target) -> NoDup (keys (fold_left (applyStep now) d target)).
Proof.
  intros now d. induction d as [|[k0 v0] rest IH]; intros target Hnd;
    [exact Hnd|].
  cbn [fold_left]. apply IH. unfold applyStep. cbn [fst snd].
  destruct v0; try (apply NoDup_assign; exact Hnd).
  apply NoDup_remove. exact Hnd.
Qed.

(** Two records with distinct keys are deep-equal if they have the same
    keys and deep-equal values under each key. *)
Lemma isDeepEqual_intro :
  forall res yfs,
    NoDup (keys res) -> NoDup (keys yfs) ->
    (forall k,
       match lookup k yfs with
       | Some yv =>
           exists rv, lookup k res = Some rv /\
                      isDeepEqual sameInstance rv yv = true
       | None => lookup k res = None
       end) ->
    isDeepEqual sameInstance (VObj res) (VObj yfs) = true.
Proof.
  intros res yfs Hres Hy Hpt. rewrite isDeepEqual_record.
  destruct (strictEq sameInstance (VObj res) (VObj yfs)); [reflexivity|].
  apply andb_true_iff. split.
  - apply Nat.eqb_eq. unfold keys in *.
    rewrite <- (length_map fst res), <- (length_map fst yfs).
    apply Nat.le_antisymm; apply NoDup_incl_length; try assumption.
    + intros k Hin. apply lookup_Some_keys in Hin. destruct Hin as [rv Hrv].
      specialize (Hpt k). apply lookup_Some_keys.
      destruct (lookup k yfs) as [yv|]; [exists yv; reflexivity|congruence].
    + intros k Hin. apply lookup_Some_keys in Hin. destruct Hin as [yv Hyv].
      specialize (Hpt k). rewrite Hyv in Hpt. destruct Hpt as [rv [Hrv _]].
      apply lookup_Some_keys. exists rv. exact Hrv.
  - apply forallb_forall. intros [k rv] Hin. cbn [fst snd].
    pose proof (In_lookup k rv res Hres Hin) as Hl.
    specialize (Hpt k). destruct (lookup k yfs) as [yv|]; [|congruence].
    destruct Hpt as [rv' [Hrv' Heq]]. congruence.
Qed.

End Pointwise.

Section Restore.

Variable sameInstance : value -> value -> bool.


Lemma finite_record :
  forall fs,
    finite (VObj fs) = true -> forall k v, In (k, v) fs -> finite v = true.
Proof.
  intros fs H k v Hin. cbn [finite] in H. rewrite forallb_forall in H.
  exact (H (k, v) Hin).
Qed.





End Restore.

Section UndoLaw.

Variable sameInstance : value -> value -> bool.
















End UndoLaw.

(** C3, on the code: the undo diff does not always restore the start
    state.  A [null] field that the edit overwrites comes back as a
    deletion, and an empty nested record that the edit removes does not
    come back at all. *)
Lemma undo_loses_null_and_empty_record :
  (let a := [("x", VNull)] in
   let diff := computeDiff distinctInstances a (Some [("x", VNum 1)]) in
   diff = VObj [("x", VNum 1)] /\
   computeUndoDiff distinctInstances epoch a diff = VObj [("x", VDeleteField)] /\
   applyDiff epoch (applyDiff epoch a diff)
     (computeUndoDiff distinctInstances epoch a diff) = [] /\
   isDeepEqual distinctInstances
     (VObj (applyDiff epoch (applyDiff epoch a diff)
              (computeUndoDiff distinctInstances epoch a diff)))
     (VObj a) = false) /\
  (let a := [("o", VObj [])] in
   let diff := computeDiff distinctInstances a (Some []) in
   diff = VObj [("o", VDeleteField)] /\
   computeUndoDiff distinctInstances epoch a diff = VObj [] /\
   applyDiff epoch (applyDiff epoch a diff)
     (computeUndoDiff distinctInstances epoch a diff) = [] /\
   isDeepEqual distinctInstances
     (VObj (applyDiff epoch (applyDiff epoch a diff)
              (computeUndoDiff distinctInstances epoch a diff)))
     (VObj a) = false).
Proof.
  repeat split.
Qed.

(** The restriction on the keys of nested records is needed: a nested
    record with a key that a string has as a property of its own is not
    restored over a string. *)
Example undo_over_string_loses_length :
  let a := [("k", VObj [("length", VNum 3)])] in
  let diff := computeDiff distinctInstances a (Some [("k", VStr "abc")]) in
  applyDiff epoch (applyDiff epoch a diff)
    (computeUndoDiff distinctInstances epoch a diff) = [("k", VObj [])].
Proof. reflexivity. Qed.



(** ** Collection subscription: ids *)

Section Ids.

Lemma stamped_recordEntries : forall r, stamped r -> recordEntries r.
Proof.
  intros r H k v Hin. destruct (H k v Hin) as [fs [E [Hnd _]]].
  exists fs. split; assumption.
Qed.

Lemma NoDup_copy :
  forall fs acc,
    NoDup (keys acc) ->
    NoDup (keys (fold_left
                   (fun result kx => assign (fst kx) (deepClone (snd kx)) result)
                   fs acc)).
Proof.
  induction fs as [|[k x] rest IH]; intros acc Hnd; [exact Hnd|].
  cbn [fold_left]. apply IH. apply NoDup_assign. exact Hnd.
Qed.

Lemma lookup_copy :
  forall fs acc k,
    NoDup (keys fs) ->
    lookup k (fold_left
                (fun result kx => assign (fst kx) (deepClone (snd kx)) result)
                fs acc) =
    match lookup k fs with
    | Some v => Some (deepClone v)
    | None => lookup k acc
    end.
Proof.
  induction fs as [|[k0 v0] rest IH]; intros acc k Hnd; [reflexivity|].
  inversion Hnd as [|? ? Hnotin Hnd']; subst.
  cbn [fold_left fst snd]. rewrite (IH _ k Hnd'). cbn [lookup].
  destruct (String.eqb_spec k k0) as [->|Hne].
  - apply lookup_None_keys in Hnotin. rewrite Hnotin.
    apply lookup_assign_eq.
  - rewrite (lookup_assign_neq k0 k _ _ Hne). reflexivity.
Qed.

Lemma In_copy :
  forall fs acc k x,
    In (k, x)
       (fold_left
          (fun result kx => assign (fst kx) (deepClone (snd kx)) result)
          fs acc) ->
    In (k, x) acc \/ exists v, In (k, v) fs /\ x = deepClone v.
Proof.
  induction fs as [|[k0 v0] rest IH]; intros acc k x Hin; [left; exact Hin|].
  cbn [fold_left fst snd] in Hin. apply IH in Hin.
  destruct Hin as [Hin|[v [Hv E]]].
  - apply In_assign in Hin. destruct Hin as [E|Hin]; [|left; exact Hin].
    injection E as -> ->. right. exists v0. split; [left|]; reflexivity.
  - right. exists v. split; [right; exact Hv|exact E].
Qed.

Lemma stamped_clone : forall r, stamped r -> stamped (cloneRecord r).
Proof.
  intros r Hr. unfold cloneRecord. rewrite deepClone_record_eq.
  intros k x Hin. apply In_copy in Hin. destruct Hin as [[]|[v [Hv ->]]].
  destruct (Hr k v Hv) as [fs [-> [Hnd Hid]]].
  rewrite deepClone_record_eq. eexists. split; [reflexivity|]. split.
  - apply NoDup_copy. constructor.
  - rewrite (lookup_copy fs [] "id" Hnd), Hid. reflexivity.
Qed.

Lemma stamped_stampIds :
  forall r, recordEntries r -> stamped (Collection.stampIds r).
Proof.
  intros r Hr k v Hin. unfold Collection.stampIds in Hin.
  apply in_map_iff in Hin. destruct Hin as [[k0 v0] [E Hin]].
  destruct (Hr k0 v0 Hin) as [fs [-> Hnd]]. cbn [fst snd] in E.
  injection E as <- <-. eexists. split; [reflexivity|]. split.
  - apply NoDup_assign. exact Hnd.
  - apply lookup_assign_eq.
Qed.

Lemma recordEntries_applied :
  forall now d target,
    (forall k dv, In (k, dv) d ->
                  (exists n, dv = VObj n) \/ dv = VDeleteField) ->
    recordEntries target ->
    recordEntries (fold_left (applyStep now) d target).
Proof.
  intros now d. induction d as [|[k0 v0] rest IH]; intros target Hd Ht;
    [exact Ht|].
  cbn [fold_left]. apply IH.
  - intros k dv Hin. apply (Hd k dv). right. exact Hin.
  - unfold applyStep. cbn [fst snd].
    destruct (Hd k0 v0 (or_introl eq_refl)) as [[n ->]| ->].
    + intros k v Hin. apply In_assign in Hin.
      destruct Hin as [E|Hin]; [|exact (Ht k v Hin)].
      apply pair_equal_spec in E. destruct E as [-> ->].
      eexists. split; [reflexivity|].
      rewrite applyDiffValue_eq. apply NoDup_applied.
      destruct (lookup k0 target) as [[| | | | | | | |e]|] eqn:Hl;
        try constructor.
      destruct (Ht k0 _ (lookup_In _ _ _ Hl)) as [fs [E Hnd]].
      injection E as ->. exact Hnd.
    + intros k v Hin. exact (Ht k v (In_remove k0 _ _ Hin)).
Qed.

Lemma keyedDiff_entries :
  forall diff k dv,
    keyedDiff diff = true -> In (k, dv) (entries diff) ->
    (exists n, dv = VObj n) \/ dv = VDeleteField.
Proof.
  intros diff k dv H Hin. unfold keyedDiff in H.
  rewrite forallb_forall in H. specialize (H (k, dv) Hin). cbn [snd] in H.
  destruct dv; try discriminate; [right; reflexivity|left; eexists;
                                                     reflexivity].
Qed.

Lemma stamped_ingest :
  forall docs,
    forallb (fun d => distinct (keys (snd d))) docs = true ->
    stamped (Collection.ingest docs).
Proof.
  intros docs Hdocs. unfold Collection.ingest.
  assert (Hgen : forall acc, stamped acc ->
            stamped (fold_left
                       (fun acc d =>
                          assign (fst d) (Collection.withId (fst d) (snd d)) acc)
                       docs acc)).
  { induction docs as [|[id data] rest IH]; intros acc Hacc; [exact Hacc|].
    cbn [forallb snd] in Hdocs. apply andb_true_iff in Hdocs.
    destruct Hdocs as [Hdata Hrest].
    cbn [fold_left fst snd]. apply (IH Hrest).
    intros k v Hin. apply In_assign in Hin.
    destruct Hin as [E|Hin]; [|exact (Hacc k v Hin)].
    injection E as -> ->. unfold Collection.withId.
    eexists. split; [reflexivity|]. split.
    - apply NoDup_assign. apply distinct_NoDup. exact Hdata.
    - apply lookup_assign_eq. }
  apply Hgen. intros k v [].
Qed.

End Ids.

Section IdInvariant.

Variable sameInstance : value -> value -> bool.
Variable options : Collection.CollectionOptions.

Lemma stamped_merged :
  forall st, stampedState st -> stamped (Collection.getMergedData st).
Proof.
  intros st [Hl Hs]. unfold Collection.getMergedData.
  destruct (Collection.localState st) as [l|]; [exact (Hl l eq_refl)|].
  destruct (Collection.syncState st) as [s|]; [exact (Hs s eq_refl)|].
  intros k v [].
Qed.

Lemma stamped_rebase :
  forall now newSync inflight local,
    stamped newSync -> stamped local ->
    stamped
      (Collection.stampIds
         (applyDiffMutable now (cloneRecord newSync)
            (computeDiff sameInstance inflight (Some local)))).
Proof.
  intros now newSync inflight local Hs Hl.
  apply stamped_stampIds. unfold applyDiffMutable, computeDiff.
  cbn [entries]. rewrite applyDiffValue_eq.
  apply recordEntries_applied;
    [|apply stamped_recordEntries, stamped_clone; exact Hs].
  intros k dv Hin. rewrite computeDiffValue_eq in Hin.
  apply In_markRemoved in Hin. destruct Hin as [->|Hin];
    [right; reflexivity|].
  apply In_changed in Hin. destruct Hin as [[]|[yv [Hy Hc]]].
  destruct (Hl k yv Hy) as [fs [-> _]]. unfold changeOf in Hc.
  destruct (isDeepEqualU sameInstance _ _); [discriminate|].
  destruct (isDiffEmpty _); [discriminate|].
  injection Hc as <-. left. eexists. reflexivity.
Qed.

Lemma sync_states :
  forall st,
    let st' := fst (Collection.sync sameInstance options st) in
    Collection.syncState st' = Collection.syncState st /\
    (Collection.localState st' = Collection.localState st \/
     Collection.localState st' = None).
Proof.
  intros st. unfold Collection.sync.
  destruct (Collection.localState st) as [l|] eqn:El;
    [|cbn [fst]; split; [reflexivity|left; exact El]].
  destruct (Collection.syncState st) as [s|] eqn:Es;
    [|cbn [fst]; split; [exact Es|left; exact El]].
  destruct (isDeepEqual sameInstance (VObj l) (VObj s)); cbn.
  - split; [exact Es|right; reflexivity].
  - split; [exact Es|left; reflexivity].
Qed.

Lemma step_stamped :
  forall st e,
    wellTyped e = true -> stampedState st ->
    stampedState (collectionStep sameInstance options st e).
Proof.
  intros st e He Hst. pose proof (stamped_merged st Hst) as Hm.
  destruct Hst as [Hl Hs].
  destruct e as [now diff o|id data o|id o|now docs| |message];
    cbn [collectionStep wellTyped] in *.
  - unfold Collection.updateState.
    destruct (Collection.isReadOnly options); [split; assumption|].
    cbn [fst]. split; [|exact Hs].
    intros l E. cbn [Collection.localState Collection.edited] in E.
    injection E as <-.
    apply stamped_stampIds. unfold applyDiffMutable.
    rewrite applyDiffValue_eq. apply recordEntries_applied.
    + intros k dv Hin. exact (keyedDiff_entries diff k dv He Hin).
    + apply stamped_recordEntries, stamped_clone. exact Hm.
  - unfold Collection.addDocument.
    destruct (Collection.isReadOnly options); [split; assumption|].
    cbn [fst]. split; [|exact Hs].
    intros l E. cbn [Collection.localState Collection.edited] in E.
    injection E as <-.
    intros k v Hin. apply In_assign in Hin.
    destruct Hin as [E|Hin]; [|exact (stamped_clone _ Hm k v Hin)].
    apply pair_equal_spec in E. destruct E as [-> ->].
    unfold Collection.withId. eexists. split; [reflexivity|]. split.
    + apply NoDup_assign. apply distinct_NoDup. exact He.
    + apply lookup_assign_eq.
  - unfold Collection.removeDocument.
    destruct (Collection.isReadOnly options); [split; assumption|].
    destruct (negb (isIn id (Collection.getMergedData st)));
      [split; assumption|].
    cbn [fst]. split; [|exact Hs].
    intros l E. cbn [Collection.localState Collection.edited] in E.
    injection E as <-.
    intros k v Hin. exact (stamped_clone _ Hm k v (In_remove id _ _ Hin)).
  - unfold Collection.handleSnapshot. cbn [fst].
    pose proof (stamped_ingest docs He) as Hnew.
    split; cbn [Collection.localState Collection.syncState].
    + intros l E.
      destruct (Collection.waitingForUpdate st); [|exact (Hl l E)].
      destruct (Collection.inflightLocalState st) as [inflight|];
        [|discriminate].
      destruct (Collection.localState st) as [local|]; [|discriminate].
      destruct (negb _); [|discriminate].
      injection E as <-.
      apply stamped_rebase; [exact Hnew|exact (Hl local eq_refl)].
    + intros s E. injection E as <-. exact Hnew.
  - destruct (sync_states st) as [Es [El|El]];
      split; rewrite ?Es, ?El; try assumption; discriminate.
  - cbn. split; assumption.
Qed.

Lemma run_stamped :
  forall events st,
    forallb wellTyped events = true -> stampedState st ->
    stampedState (fold_left (collectionStep sameInstance options) events st).
Proof.
  induction events as [|e rest IH]; intros st He Hst; [exact Hst|].
  cbn [forallb] in He. apply andb_true_iff in He. destruct He as [He Hrest].
  cbn [fold_left]. apply (IH _ Hrest). apply step_stamped; assumption.
Qed.

End IdInvariant.

(** C10. Whatever well-typed calls and snapshots a collection subscription
    receives (per-key diffs, documents with distinct field names), in
    whatever order, every entry of its local state and of its sync state
    is a record whose [id] field is the entry's key. *)
Theorem collection_ids_are_keys :
  forall sameInstance options events,
    forallb wellTyped events = true ->
    let st := collectionRun sameInstance options events in
    forall r,
      Collection.localState st = Some r \/ Collection.syncState st = Some r ->
      forall k v,
        lookup k r = Some v ->
        exists fs, v = VObj fs /\ lookup "id" fs = Some (VStr k).
Proof.
  intros sameInstance options events He st r Hr k v Hl.
  assert (Hst : stampedState st).
  { apply run_stamped; [exact He|]. split; intros x E; discriminate. }
  destruct Hst as [Hlocal Hsync].
  assert (Hstamped : stamped r)
    by (destruct Hr as [E|E]; [exact (Hlocal r E)|exact (Hsync r E)]).
  destruct (Hstamped k v (lookup_In k v r Hl)) as [fs [E [_ Hid]]].
  exists fs. split; assumption.
Qed.

Lemma collection_ids_are_keys_witness :
  Collection.localState (collectionRun distinctInstances tasks taskEvents) =
    Some [("t1", VObj [("title", VStr "a"); ("done", VBool true);
                       ("id", VStr "t1")]);
          ("t2", VObj [("title", VStr "b"); ("id", VStr "t2")]);
          ("t3", VObj [("title", VStr "c"); ("id", VStr "t3")])] /\
  exists fs,
    VObj [("title", VStr "c"); ("id", VStr "t3")] = VObj fs /\
    lookup "id" fs = Some (VStr "t3").
Proof.
  split; [reflexivity|].
  exact (collection_ids_are_keys distinctInstances tasks taskEvents eq_refl
           _ (or_introl eq_refl) "t3" _ eq_refl).
Defined.

(** * Further properties of the diff algebra *)

(** ** Deep equality *)

Lemma value_eqb_eq : forall a b, value_eqb a b = true -> a = b.
Proof.
  induction a as [|flag|num|str|sec nano| | |items IH|fields IH]
    using value_induction;
    intros b E; destruct b; cbn in E; try discriminate; try reflexivity.
  - apply Bool.eqb_prop in E. congruence.
  - destruct num as [x|], n as [y|]; cbn in E; try discriminate;
      [|reflexivity].
    apply Z.eqb_eq in E. congruence.
  - apply String.eqb_eq in E. congruence.
  - apply andb_true_iff in E. destruct E as [E1 E2].
    apply Z.eqb_eq in E1. apply Z.eqb_eq in E2. congruence.
  - f_equal. revert items0 E.
    induction IH as [|x xs Hx _ IHxs]; intros [|y ys] E;
      try discriminate; [reflexivity|].
    apply andb_true_iff in E. destruct E as [E1 E2].
    f_equal; [apply Hx; exact E1|apply IHxs; exact E2].
  - f_equal. revert fields0 E.
    induction IH as [|[k x] xs Hx _ IHxs]; intros [|[k' y] ys] E;
      try discriminate; [reflexivity|].
    apply andb_true_iff in E. destruct E as [E1 E2].
    apply andb_true_iff in E1. destruct E1 as [Ek Ev].
    apply String.eqb_eq in Ek. subst k'. cbn [snd] in Hx.
    f_equal; [f_equal; apply Hx; exact Ev|apply IHxs; exact E2].
Qed.

Section DeepEquality.

Variable sameInstance : value -> value -> bool.

Lemma strictEq_eq :
  forall a b, strictEq sameInstance a b = true -> a = b.
Proof.
  intros a b E.
  destruct a, b; cbn [strictEq] in E; try discriminate;
    try (apply andb_true_iff in E; destruct E as [E _];
         apply value_eqb_eq; exact E).
  - reflexivity.
  - apply Bool.eqb_prop in E. congruence.
  - destruct n as [x|], n0 as [y|]; cbn in E; try discriminate.
    apply Z.eqb_eq in E. congruence.
  - apply String.eqb_eq in E. congruence.
Qed.

Lemma isDeepEqual_unfold :
  forall a b,
    isDeepEqual sameInstance a b =
    if strictEq sameInstance a b then true
    else
      match a, b with
      | VArr xs, VArr ys =>
          Nat.eqb (List.length xs) (List.length ys) &&
          forallb (fun xy => isDeepEqual sameInstance (fst xy) (snd xy))
            (combine xs ys)
      | VTimestamp s n, VTimestamp s' n' => Z.eqb s s' && Z.eqb n n'
      | VObj fa, VObj fb =>
          Nat.eqb (List.length fa) (List.length fb) &&
          forallb (fun kx => match lookup (fst kx) fb with
                             | Some y => isDeepEqual sameInstance (snd kx) y
                             | None => false
                             end) fa
      | _, _ => false
      end.
Proof.
  intros a b. destruct a; try reflexivity.
  - destruct b; try reflexivity. apply isDeepEqual_array.
  - destruct b; try reflexivity. apply isDeepEqual_record.
Qed.



(** The keys of two deep-equal records with distinct keys coincide. *)
Lemma deepEqual_keys :
  forall fa fb,
    NoDup (keys fa) ->
    List.length fa = List.length fb ->
    forallb (fun kx => match lookup (fst kx) fb with
                       | Some y => isDeepEqual sameInstance (snd kx) y
                       | None => false
                       end) fa = true ->
    forall k, In k (keys fb) -> In k (keys fa).
Proof.
  intros fa fb Hnd Hlen Hall.
  apply (NoDup_length_incl Hnd).
  - unfold keys. rewrite !length_map. lia.
  - intros k Hin. unfold keys in Hin. apply in_map_iff in Hin.
    destruct Hin as [[k' x] [Hk Hin]]. cbn in Hk. subst k'.
    rewrite forallb_forall in Hall. specialize (Hall (k, x) Hin).
    cbn [fst snd] in Hall. apply lookup_Some_keys.
    destruct (lookup k fb) as [y|]; [exists y; reflexivity|discriminate].
Qed.



End DeepEquality.



(** A record is deep-equal to itself by identity even when it holds a
    [NaN], which is not deep-equal to itself. *)
Example same_instance_holding_NaN :
  let r := VObj [("n", VNum NaN)] in
  isDeepEqual (fun _ _ => true) r r = true /\
  isDeepEqual (fun _ _ => true) (VNum NaN) (VNum NaN) = false.
Proof. split; reflexivity. Qed.

(** X2. Two records of Firestore data that are not one and the same
    object, or that hold no [NaN], are deep-equal exactly when they have the
    same keys and deep-equal values under every key; the order of the keys
    plays no part. *)
Theorem isDeepEqual_ignores_key_order :
  forall sameInstance fa fb,
    isData (VObj fa) = true -> isData (VObj fb) = true ->
    sameInstance (VObj fa) (VObj fb) = false \/ finite (VObj fa) = true ->
    (isDeepEqual sameInstance (VObj fa) (VObj fb) = true <->
     forall k,
       match lookup k fa, lookup k fb with
       | Some x, Some y => isDeepEqual sameInstance x y = true
       | None, None => True
       | _, _ => False
       end).
Proof.
  intros sameInstance fa fb Da Db Hsame.
  pose proof (isData_record _ Da) as [NDa Ha].
  pose proof (isData_record _ Db) as [NDb Hb].
  split.
  - intros E k. rewrite isDeepEqual_unfold in E.
    destruct (strictEq sameInstance (VObj fa) (VObj fb)) eqn:S.
    + assert (Hfin : finite (VObj fa) = true).
      { destruct Hsame as [Hs|Hf]; [|exact Hf].
        unfold strictEq in S. rewrite Hs, andb_false_r in S. discriminate. }
      apply strictEq_eq in S. injection S as S. subst fb.
      destruct (lookup k fa) as [x|] eqn:L; [|exact I].
      apply isDeepEqual_refl; [exact (isData_lookup _ _ _ Da L)|].
      exact (finite_record fa Hfin k x (lookup_In _ _ _ L)).
    + apply andb_true_iff in E. destruct E as [E1 E2].
      apply Nat.eqb_eq in E1.
      destruct (lookup k fa) as [x|] eqn:L.
      * rewrite forallb_forall in E2.
        specialize (E2 (k, x) (lookup_In _ _ _ L)). cbn [fst snd] in E2.
        destruct (lookup k fb); [exact E2|discriminate].
      * destruct (lookup k fb) as [y|] eqn:L'; [|exact I].
        apply lookup_None_keys in L. apply L.
        apply (deepEqual_keys sameInstance fa fb NDa E1 E2).
        apply lookup_Some_keys. exists y. exact L'.
  - intros H. apply isDeepEqual_intro; [exact NDa|exact NDb|].
    intros k. specialize (H k).
    destruct (lookup k fa) as [x|], (lookup k fb) as [y|];
      try contradiction; [|reflexivity].
    exists x. split; [reflexivity|exact H].
Qed.

Lemma isDeepEqual_ignores_key_order_witness :
  isDeepEqual distinctInstances
    (VObj [("name", VStr "Foo"); ("count", VNum 5)])
    (VObj [("count", VNum 5); ("name", VStr "Foo")]) = true <->
  forall k,
    match lookup k [("name", VStr "Foo"); ("count", VNum 5)],
          lookup k [("count", VNum 5); ("name", VStr "Foo")] with
    | Some x, Some y => isDeepEqual distinctInstances x y = true
    | None, None => True
    | _, _ => False
    end.
Proof.
  apply isDeepEqual_ignores_key_order; try reflexivity. left. reflexivity.
Defined.

(** ** Computing and applying a diff *)

(** Why the diff needs field names that are not inherited: a field that
    [b] lacks is not removed from [a] when [b] inherits a member of that
    name. *)
Example inherited_name_is_not_removed :
  computeDiff distinctInstances
    [("constructor", VStr "x"); ("name", VStr "a")]
    (Some [("name", VStr "a")]) = VObj [] /\
  computeDiff distinctInstances
    [("owner", VStr "x"); ("name", VStr "a")]
    (Some [("name", VStr "a")]) = VObj [("owner", VDeleteField)].
Proof. split; reflexivity. Qed.




(** X4. What [computeDiff(from, to)] holds under a key [k], for a [to]
    with distinct keys.  A key of [from] that is missing in [to] is marked
    for deletion, unless [to] inherits a member of that name from
    [Object.prototype], in which case the key is absent from the diff; a key
    of [from] that is [null] in [to] is marked for deletion; a [null] under
    a new key is stored as [null]; a key of neither is absent; a value that
    is the same as before is absent (arrays and records compared by
    [isDeepEqual], anything else by [===]); a changed array or primitive is
    stored whole; a changed record, under a key that [from] holds or that is
    not an inherited name, is stored as its nested diff, unless that diff is
    empty. *)
Theorem computeDiff_fieldwise :
  forall sameInstance from to k,
    NoDup (keys to) ->
    let diff := computeDiffValue sameInstance (VObj from) (VObj to) in
    let same v :=
      match v with
      | VArr _ | VObj _ => isDeepEqualU sameInstance (lookup k from) v
      | _ => strictEqU sameInstance (lookup k from) v
      end in
    (lookup k to = None ->
     lookup k diff =
       if hasKey k from && negb (inherited k) then Some VDeleteField
       else None) /\
    (lookup k to = Some VNull ->
     lookup k diff = if hasKey k from then Some VDeleteField else Some VNull) /\
    (forall v,
       lookup k to = Some v -> v <> VNull -> same v = true ->
       lookup k diff = None) /\
    (forall v,
       lookup k to = Some v -> v <> VNull -> (forall n, v <> VObj n) ->
       same v = false ->
       lookup k diff = Some v) /\
    (forall n,
       lookup k to = Some (VObj n) -> same (VObj n) = false ->
       hasKey k from = true \/ inherited k = false ->
       lookup k diff =
         let nested :=
           computeDiffValue sameInstance (orEmpty (lookup k from)) (VObj n) in
         if isDiffEmpty nested then None else Some (VObj nested)).
Proof.
  intros sameInstance from to k Hnd diff same. subst diff.
  rewrite computeDiffValue_eq.
  assert (Hkeys : In k (objectKeys (VObj from)) <-> hasKey k from = true).
  { cbn [objectKeys]. unfold hasKey. rewrite lookup_Some_keys.
    destruct (lookup k from) as [u|]; split; intros H;
      try reflexivity; try discriminate.
    - exists u. reflexivity.
    - destruct H as [u' H]. discriminate. }
  assert (Hkept : forall v, lookup k to = Some v -> v <> VNull ->
            lookup k (markRemoved (VObj from) to
                        (fold_left (changedStep sameInstance (VObj from)) to []))
            = changeOf sameInstance (VObj from) k v).
  { intros v Hv Hnn. rewrite lookup_markRemoved_kept.
    - rewrite (lookup_changed sameInstance (VObj from) to [] k Hnd), Hv.
      destruct (changeOf sameInstance (VObj from) k v); reflexivity.
    - right. left. exists v. split; [exact Hv|exact Hnn]. }
  split; [|split; [|split; [|split]]].
  - intros Hto. destruct (hasKey k from) eqn:Hk;
      [destruct (inherited k) eqn:Hi|]; cbn [andb negb].
    + rewrite lookup_markRemoved_kept.
      * rewrite (lookup_changed sameInstance (VObj from) to [] k Hnd), Hto.
        reflexivity.
      * right. right. split; [exact Hto|exact Hi].
    + apply lookup_markRemoved_deleted; [apply Hkeys; reflexivity|].
      left. split; [exact Hto|exact Hi].
    + rewrite lookup_markRemoved_kept.
      * rewrite (lookup_changed sameInstance (VObj from) to [] k Hnd), Hto.
        reflexivity.
      * left. intros Hin. apply Hkeys in Hin. discriminate.
  - intros Hto. destruct (hasKey k from) eqn:Hk.
    + apply lookup_markRemoved_deleted; [apply Hkeys; reflexivity|].
      right. exact Hto.
    + rewrite lookup_markRemoved_kept.
      * rewrite (lookup_changed sameInstance (VObj from) to [] k Hnd), Hto.
        unfold changeOf. cbn [getProp]. unfold hasKey in Hk.
        destruct (lookup k from); [discriminate|]. reflexivity.
      * left. intros Hin. apply Hkeys in Hin. discriminate.
  - intros v Hv Hnn Hsame. rewrite (Hkept v Hv Hnn).
    unfold changeOf. cbn [getProp]. subst same. cbn beta in Hsame.
    destruct v; rewrite Hsame; reflexivity.
  - intros v Hv Hnn Hleaf Hsame. rewrite (Hkept v Hv Hnn).
    unfold changeOf. cbn [getProp]. subst same. cbn beta in Hsame.
    destruct v; try rewrite Hsame; try reflexivity.
    exfalso. exact (Hleaf fields eq_refl).
  - intros n Hv Hsame _. rewrite (Hkept (VObj n) Hv); [|discriminate].
    unfold changeOf. cbn [getProp]. subst same. cbn beta in Hsame.
    rewrite Hsame. reflexivity.
Qed.

Lemma computeDiff_fieldwise_witness :
  let from :=
    [("gone", VNum 1); ("kept", VStr "a"); ("count", VNum 5);
     ("building", VObj [("floors", VNum 2)]); ("toString", VStr "t")] in
  let to :=
    [("kept", VStr "a"); ("fresh", VNull); ("count", VNum 6);
     ("building", VObj [("floors", VNum 3)])] in
  let diff := computeDiffValue distinctInstances (VObj from) (VObj to) in
  lookup "toString" diff = None /\
  lookup "gone" diff = Some VDeleteField /\
  lookup "fresh" diff = Some VNull /\
  lookup "kept" diff = None /\
  lookup "count" diff = Some (VNum 6) /\
  lookup "building" diff = Some (VObj [("floors", VNum 3)]).
Proof.
  intros from to diff.
  assert (Hnd : NoDup (keys to)) by (apply distinct_NoDup; reflexivity).
  split; [|split; [|split; [|split; [|split]]]].
  - exact (proj1 (computeDiff_fieldwise distinctInstances from to "toString"
                    Hnd) eq_refl).
  - exact (proj1 (computeDiff_fieldwise distinctInstances from to "gone" Hnd)
             eq_refl).
  - exact (proj1 (proj2 (computeDiff_fieldwise distinctInstances from to
                           "fresh" Hnd)) eq_refl).
  - apply (proj1 (proj2 (proj2 (computeDiff_fieldwise distinctInstances
                                  from to "kept" Hnd))) (VStr "a"));
      [reflexivity|discriminate|reflexivity].
  - apply (proj1 (proj2 (proj2 (proj2
             (computeDiff_fieldwise distinctInstances from to "count" Hnd))))
             (VNum 6)); [reflexivity|discriminate|discriminate|reflexivity].
  - exact (proj2 (proj2 (proj2 (proj2
             (computeDiff_fieldwise distinctInstances from to "building"
                Hnd)))) [("floors", VNum 3)] eq_refl eq_refl
             (or_introl eq_refl)).
Defined.





Lemma remove_absent :
  forall k r, lookup k r = None -> remove k r = r.
Proof.
  intros k r. induction r as [|[k' v] rest IH]; intros H; [reflexivity|].
  cbn [lookup remove] in *. destruct (String.eqb k k'); [discriminate|].
  rewrite (IH H). reflexivity.
Qed.

Lemma fold_left_fixed :
  forall (A B : Type) (f : A -> B -> A) (l : list B) (a : A),
    (forall b, In b l -> f a b = a) -> fold_left f l a = a.
Proof.
  intros A B f l a. induction l as [|b l IH]; intros H; [reflexivity|].
  cbn [fold_left]. rewrite (H b (or_introl eq_refl)).
  apply IH. intros b' Hin. apply H. right. exact Hin.
Qed.

Lemma applyDiffValue_twice :
  forall diff now target,
    isDiff diff = true ->
    applyDiffValue now (applyDiffValue now target diff) diff =
    applyDiffValue now target diff.
Proof.
  induction diff as [|flag|num|str|sec nano| | |items IH|fields IH]
    using value_induction; intros now target Hdiff; try reflexivity.
  destruct (isDiff_record fields Hdiff) as [Hnd Hall].
  rewrite !applyDiffValue_eq.
  apply fold_left_fixed. intros [k dv] Hin.
  pose proof (lookup_applied now fields target k Hnd) as L.
  rewrite (In_lookup _ _ _ Hnd Hin) in L.
  set (result := fold_left (applyStep now) fields target) in *.
  unfold applyStep. cbn [fst snd].
  destruct dv; cbn [appliedValue] in L;
    try (apply assign_same; exact L).
  - apply remove_absent. exact L.
  - rewrite L. rewrite Forall_forall in IH.
    rewrite (IH (k, VObj fields0) Hin now _ (Hall k _ Hin)).
    apply assign_same. exact L.
Qed.

(** X7. Applying a well-formed diff a second time changes nothing, as
    long as the clock reads the same. *)
Theorem applyDiff_idempotent :
  forall now state diff,
    isData (VObj state) = true ->
    isDiff (VObj diff) = true ->
    applyDiff now (applyDiff now state (VObj diff)) (VObj diff) =
    applyDiff now state (VObj diff).
Proof.
  intros now state diff Hd Hdiff.
  assert (Hres : isData (VObj (applyDiff now state (VObj diff))) = true).
  { unfold applyDiff, applyDiffMutable. cbn [entries].
    rewrite (cloneRecord_data state Hd). apply apply_data; assumption. }
  unfold applyDiff at 1. rewrite (cloneRecord_data _ Hres).
  unfold applyDiff, applyDiffMutable. cbn [entries].
  apply applyDiffValue_twice. exact Hdiff.
Qed.

Lemma applyDiff_idempotent_witness :
  applyDiff epoch
    (applyDiff epoch
       [("name", VStr "Foo"); ("building", VObj [("floors", VNum 2)])]
       (VObj [("building", VObj [("height", VNum 9)]);
              ("name", VDeleteField); ("at", VServerTimestamp)]))
    (VObj [("building", VObj [("height", VNum 9)]);
           ("name", VDeleteField); ("at", VServerTimestamp)]) =
  applyDiff epoch
    [("name", VStr "Foo"); ("building", VObj [("floors", VNum 2)])]
    (VObj [("building", VObj [("height", VNum 9)]);
           ("name", VDeleteField); ("at", VServerTimestamp)]).
Proof.
  apply applyDiff_idempotent; reflexivity.
Defined.

(** ** Flattening and paths *)

Lemma In_assignAll :
  forall src acc e, In e (assignAll acc src) -> In e acc \/ In e src.
Proof.
  unfold assignAll.
  induction src as [|[k v] src IH]; intros acc e H; [left; exact H|].
  cbn [fold_left fst snd] in H. apply IH in H.
  destruct H as [H|H]; [|right; right; exact H].
  apply In_assign in H.
  destruct H as [->|H]; [right; left; reflexivity|left; exact H].
Qed.

Lemma flattenValue_leaves_only :
  forall diff prefix k v,
    In (k, v) (flattenValue diff prefix) -> isPlainObject v = false.
Proof.
  induction diff as [|flag|num|str|sec nano| | |items IH|fields IH]
    using value_induction; intros prefix k v Hin; try contradiction.
  rewrite flattenValue_eq in Hin.
  assert (Hgen : forall fs acc,
            Forall (fun kv => forall prefix k v,
                      In (k, v) (flattenValue (snd kv) prefix) ->
                      isPlainObject v = false) fs ->
            (forall e, In e acc -> isPlainObject (snd e) = false) ->
            forall e, In e (fold_left (flattenStep prefix) fs acc) ->
                      isPlainObject (snd e) = false).
  { clear. induction fs as [|[key x] fs IHfs]; intros acc HF Hacc e He;
      [exact (Hacc e He)|].
    cbn [fold_left] in He. inversion HF as [|? ? Hx HF']; subst.
    apply (IHfs _ HF') in He; [exact He|].
    intros e' He'. unfold flattenStep in He'. cbn [fst snd] in *.
    destruct x;
      try (apply In_assign in He'; destruct He' as [->|He'];
           [reflexivity|exact (Hacc e' He')]).
    apply In_assignAll in He'. destruct He' as [He'|He'];
      [exact (Hacc e' He')|].
    destruct e' as [k' v']. exact (Hx _ _ _ He'). }
  exact (Hgen fields [] IH (fun e H => match H with end) (k, v) Hin).
Qed.

(** X8. No entry of a flattened diff is a plain object, whatever the
    diff: nested records only ever appear as dotted paths.  In particular
    the payload of every [updateDoc] a document's [sync] dispatches, and of
    every [batch.update] a collection's [sync] commits, holds no nested
    record. *)
Theorem flattenDiff_has_no_nested_record :
  (forall diff prefix k v,
     In (k, v) (flattenDiff diff prefix) -> isPlainObject v = false) /\
  (forall sameInstance options st flatDiff k v,
     In (Document.UpdateDoc flatDiff)
        (snd (Document.sync sameInstance options st)) ->
     In (k, v) flatDiff -> isPlainObject v = false) /\
  (forall sameInstance options st batch docId flatDiff k v,
     In (Collection.Committed batch)
        (snd (Collection.sync sameInstance options st)) ->
     In (Collection.BatchUpdate docId flatDiff) batch ->
     In (k, v) flatDiff -> isPlainObject v = false).
Proof.
  split; [|split].
  - intros diff prefix k v Hin. unfold flattenDiff in Hin.
    exact (flattenValue_leaves_only _ _ _ _ Hin).
  - intros sameInstance options st flatDiff k v Heff Hin.
    unfold Document.sync in Heff.
    destruct (Document.localState st) as [l|]; [|contradiction].
    destruct (Document.syncState st) as [s|]; [|contradiction].
    destruct (isDeepEqual sameInstance (VObj l) (VObj s)).
    + cbn in Heff. destruct Heff as [H|[H|[]]]; discriminate.
    + cbn [snd] in Heff. apply in_app_or in Heff.
      destruct Heff as [Heff|Heff].
      * destruct (undoEnabled _ && Document.onPushUndo options);
          [destruct Heff as [H|[]]; discriminate|contradiction].
      * destruct Heff as [Heff|[]].
        destruct (Document.isSetOperation st); [discriminate|].
        injection Heff as <-. unfold flattenDiff in Hin.
        exact (flattenValue_leaves_only _ _ _ _ Hin).
  - intros sameInstance options st batch docId flatDiff k v Heff Hop Hin.
    unfold Collection.sync in Heff.
    destruct (Collection.localState st) as [l|]; [|contradiction].
    destruct (Collection.syncState st) as [s|]; [|contradiction].
    destruct (isDeepEqual sameInstance (VObj l) (VObj s)).
    + cbn in Heff. destruct Heff as [H|[H|[]]]; discriminate.
    + cbn [snd] in Heff. apply in_app_or in Heff.
      destruct Heff as [Heff|Heff].
      * destruct (undoEnabled _ && Collection.onPushUndo options);
          [destruct Heff as [H|[]]; discriminate|contradiction].
      * destruct Heff as [Heff|[]]. injection Heff as <-.
        apply in_map_iff in Hop. destruct Hop as [[id docDiff] [Hop _]].
        unfold Collection.batchFor in Hop. cbn [fst snd] in Hop.
        destruct docDiff; try discriminate;
          destruct (negb (isIn id s)); try discriminate;
          injection Hop as _ <-; unfold flattenDiff in Hin;
          exact (flattenValue_leaves_only _ _ _ _ Hin).
Qed.

Lemma flattenDiff_has_no_nested_record_witness :
  (In ("building.floors", VNum 5)
      (flattenDiff (VObj [("building", VObj [("floors", VNum 5)])]) "") /\
   isPlainObject (VNum 5) = false) /\
  (In (Document.UpdateDoc [("name", VStr "Bar")])
      (snd (Document.sync distinctInstances docOptions unsyncedDocument)) /\
   isPlainObject (VStr "Bar") = false) /\
  (In (Collection.Committed
         [Collection.BatchUpdate "t1" [("done", VBool true)]])
      (snd (Collection.sync distinctInstances tasks
              (collectionRun distinctInstances tasks
                 [EvSnapshot epoch [("t1", [("title", VStr "a")])];
                  EvUpdate epoch (VObj [("t1", VObj [("done", VBool true)])])
                    noOptions]))) /\
   isPlainObject (VBool true) = false).
Proof.
  destruct flattenDiff_has_no_nested_record as (Hflat & Hdoc & Hcol).
  split; [|split].
  - assert (Hin : In ("building.floors", VNum 5)
                    (flattenDiff
                       (VObj [("building", VObj [("floors", VNum 5)])]) "")).
    { left. reflexivity. }
    split; [exact Hin|exact (Hflat _ _ _ _ Hin)].
  - assert (Hin : In (Document.UpdateDoc [("name", VStr "Bar")])
                    (snd (Document.sync distinctInstances docOptions
                            unsyncedDocument))).
    { right. left. reflexivity. }
    split; [exact Hin|].
    exact (Hdoc distinctInstances docOptions unsyncedDocument _ "name" _ Hin
             (or_introl eq_refl)).
  - assert (Hin : In (Collection.Committed
                        [Collection.BatchUpdate "t1" [("done", VBool true)]])
                    (snd (Collection.sync distinctInstances tasks
                            (collectionRun distinctInstances tasks
                               [EvSnapshot epoch [("t1", [("title", VStr "a")])];
                                EvUpdate epoch
                                  (VObj [("t1", VObj [("done", VBool true)])])
                                  noOptions])))).
    { right. left. reflexivity. }
    split; [exact Hin|].
    exact (Hcol distinctInstances tasks _ _ "t1" _ "done" _ Hin
             (or_introl eq_refl) (or_introl eq_refl)).
Defined.

Lemma extract_nestAt :
  forall parts v,
    parts <> [] -> extractFrom parts (VObj (nestAt parts v)) = Ok (Some v).
Proof.
  induction parts as [|part rest IH]; intros v Hne; [contradiction|].
  destruct rest as [|next rest].
  - cbn. rewrite String.eqb_refl. reflexivity.
  - cbn [nestAt assign extractFrom isNull typeofObject orb negb member lookup].
    rewrite String.eqb_refl. apply IH. discriminate.
Qed.

Lemma contains_nestAt :
  forall parts v,
    parts <> [] -> containsFrom parts (VObj (nestAt parts v)) = Ok true.
Proof.
  induction parts as [|part rest IH]; intros v Hne; [contradiction|].
  destruct rest as [|next rest].
  - cbn. rewrite String.eqb_refl. reflexivity.
  - cbn [nestAt assign containsFrom isNull typeofObject orb negb member lookup].
    rewrite String.eqb_refl. apply IH. discriminate.
Qed.

Lemma setPath_nestAt :
  forall parts v, setPath parts v [] = Ok (nestAt parts v).
Proof.
  induction parts as [|part rest IH]; intros v; [reflexivity|].
  destruct rest as [|next rest]; [reflexivity|].
  change (setPath (part :: next :: rest) v [])
    with (match setPath (next :: rest) v [] with
          | Ok sub => Ok (assign part (VObj sub) [])
          | Throws => Throws
          | Unmodelled => Unmodelled
          end).
  rewrite IH. reflexivity.
Qed.

Lemma contains_extract :
  forall parts current,
    containsFrom parts current =
    match extractFrom parts current with
    | Ok (Some _) => Ok true
    | Ok None => Ok false
    | Throws => Throws
    | Unmodelled => Unmodelled
    end.
Proof.
  induction parts as [|part rest IH]; intros current; [reflexivity|].
  cbn [containsFrom extractFrom].
  destruct (isNull current || negb (typeofObject current)); [reflexivity|].
  destruct (member current part) as [[next|]| |]; try reflexivity.
  apply IH.
Qed.

(** X9. The three path utilities agree with each other and with
    [unflattenDiff], for every path and value: the value stored by
    [createDiffAtPath] is the one [extractDiffValue] finds at that path,
    [diffContainsPath] says the path is there, and unflattening the one-entry
    flat diff [{path: value}] builds the same object.  For every diff,
    [diffContainsPath] holds exactly where [extractDiffValue] finds a
    value. *)
Theorem path_utilities_agree :
  (forall path v,
     extractDiffValue (createDiffAtPath path v) path = Ok (Some v) /\
     diffContainsPath (createDiffAtPath path v) path = Ok true /\
     unflattenDiff [(path, v)] = Ok (createDiffAtPath path v)) /\
  (forall diff path,
     diffContainsPath diff path =
     match extractDiffValue diff path with
     | Ok (Some _) => Ok true
     | Ok None => Ok false
     | Throws => Throws
     | Unmodelled => Unmodelled
     end).
Proof.
  split.
  - intros path v. unfold extractDiffValue, diffContainsPath, createDiffAtPath,
      unflattenDiff.
    split; [|split].
    + apply extract_nestAt. apply split_nonempty.
    + apply contains_nestAt. apply split_nonempty.
    + cbn [unflattenInto]. rewrite setPath_nestAt. reflexivity.
  - intros diff path. apply contains_extract.
Qed.

Lemma leaves_extract :
  forall diff pre e,
    flattenable diff = true ->
    In e (leaves diff pre) ->
    exists suffix,
      fst e = pre ++ suffix /\
      extractFrom suffix diff = Ok (Some (snd e)).
Proof.
  induction diff as [|flag|num|str|sec nano| | |items IH|fields IH]
    using value_induction; intros pre e Hf Hin; try contradiction.
  rewrite leaves_record in Hin. apply in_flat_map in Hin.
  destruct Hin as [[k x] [Hkx He]].
  destruct (flattenable_record fields Hf) as (Hnd & _ & Hall).
  destruct (Hall k x Hkx) as [_ Hfx].
  pose proof (In_lookup _ _ _ Hnd Hkx) as Hlook.
  rewrite Forall_forall in IH.
  assert (Hstep : forall rest,
            extractFrom (k :: rest) (VObj fields) = extractFrom rest x).
  { intros rest. cbn [extractFrom isNull typeofObject orb negb member].
    rewrite Hlook. reflexivity. }
  unfold piece in He. cbn [fst snd] in He.
  destruct x;
    try (destruct He as [<-|[]]; exists [k]; split; [reflexivity|];
         rewrite Hstep; reflexivity).
  destruct (IH (k, VObj fields0) Hkx (pre ++ [k]) e Hfx He)
    as [suffix [Hfst Hext]].
  exists (k :: suffix). split.
  - rewrite Hfst, <- app_assoc. reflexivity.
  - rewrite Hstep. exact Hext.
Qed.

(** X10. Every entry of a flattened diff is found again by its path: if
    [flattenDiff(diff)] holds [v] under the dotted path [p], then
    [extractDiffValue(diff, p)] is [v] and [diffContainsPath(diff, p)] is
    true.  The diff has, at every depth, distinct non-empty keys without dots
    and no empty nested record. *)
Theorem flattened_entries_are_found_by_path :
  forall diff p v,
    flattenable (VObj diff) = true ->
    In (p, v) (flattenDiff (VObj diff) "") ->
    extractDiffValue diff p = Ok (Some v) /\
    diffContainsPath diff p = Ok true.
Proof.
  intros diff p v Hf Hin.
  assert (Hext : extractDiffValue diff p = Ok (Some v)).
  { unfold flattenDiff in Hin. cbn [entries] in Hin.
    change "" with (joinPath []) in Hin.
    rewrite (flatten_leaves (VObj diff) [] Hf eq_refl) in Hin.
    apply in_map_iff in Hin. destruct Hin as [e [Hpe He]].
    unfold pathEntry in Hpe. injection Hpe as <- <-.
    destruct (leaves_shape (VObj diff) [] e Hf eq_refl He)
      as [[k [rest [Hs _]]] Hkeys].
    destruct (leaves_extract (VObj diff) [] e Hf He) as [suffix [Hfst Hx]].
    cbn [app] in Hfst. subst suffix.
    unfold extractDiffValue. rewrite split_joinPath; [exact Hx| |exact Hkeys].
    rewrite Hs. discriminate. }
  split; [exact Hext|].
  unfold diffContainsPath. rewrite contains_extract.
  unfold extractDiffValue in Hext. rewrite Hext. reflexivity.
Qed.

Lemma flattened_entries_are_found_by_path_witness :
  extractDiffValue
    [("building", VObj [("floors", VNum 5); ("roof", VObj [("tiles", VNull)])]);
     ("name", VDeleteField)]
    "building.roof.tiles" = Ok (Some VNull) /\
  diffContainsPath
    [("building", VObj [("floors", VNum 5); ("roof", VObj [("tiles", VNull)])]);
     ("name", VDeleteField)]
    "building.roof.tiles" = Ok true.
Proof.
  apply flattened_entries_are_found_by_path; [reflexivity|].
  right. left. reflexivity.
Defined.

Lemma string_app_nil_r : forall s : string, (s ++ "")%string = s.
Proof.
  induction s as [|c s IH]; [reflexivity|]. cbn. rewrite IH. reflexivity.
Qed.

Lemma string_app_assoc :
  forall s t u : string, ((s ++ t) ++ u)%string = (s ++ t ++ u)%string.
Proof.
  induction s as [|c s IH]; intros t u; [reflexivity|].
  cbn. rewrite IH. reflexivity.
Qed.

(** A string is its first segment followed by the dotted others. *)
Lemma split_dotted :
  forall s, exists first others,
    split s = first :: others /\ s = (first ++ dotted others)%string.
Proof.
  induction s as [|c s IH].
  - exists "", []. split; reflexivity.
  - destruct IH as [first [others [Hs Heq]]]. cbn [split]. rewrite Hs.
    destruct (Ascii.eqb c "."%char) eqn:Hc.
    + apply Ascii.eqb_eq in Hc. subst c.
      exists "", (first :: others). split; [reflexivity|].
      cbn. f_equal. exact Heq.
    + exists (String c first), others. split; [reflexivity|].
      cbn. f_equal. exact Heq.
Qed.

Lemma extend_dotted :
  forall others prefix,
    String.eqb prefix "" = false ->
    fold_left extend others prefix = (prefix ++ dotted others)%string.
Proof.
  induction others as [|part others IH]; intros prefix Hp.
  - cbn. rewrite string_app_nil_r. reflexivity.
  - cbn [fold_left dotted fold_right]. unfold extend at 2. rewrite Hp.
    rewrite IH.
    + rewrite !string_app_assoc. reflexivity.
    + destruct prefix; [discriminate|reflexivity].
Qed.

Lemma joinPath_split :
  forall path, startsWithDot path = false -> joinPath (split path) = path.
Proof.
  intros path Hdot. destruct (split_dotted path) as [first [others [Hs Heq]]].
  rewrite Hs. unfold joinPath. cbn [fold_left]. unfold extend at 2.
  cbn [String.eqb].
  destruct first as [|c first].
  - destruct others as [|part others]; [cbn; rewrite Heq; reflexivity|].
    rewrite Heq in Hdot. cbn in Hdot. discriminate.
  - rewrite extend_dotted; [|reflexivity]. symmetry. exact Heq.
Qed.

Lemma flatten_nestAt :
  forall parts prefix v,
    parts <> [] -> isPlainObject v = false ->
    flattenValue (VObj (nestAt parts v)) prefix =
      [(fold_left extend parts prefix, v)].
Proof.
  induction parts as [|part rest IH]; intros prefix v Hne Hv;
    [contradiction|].
  destruct rest as [|next rest].
  - rewrite flattenValue_eq. cbn [nestAt assign fold_left].
    unfold flattenStep. cbn [fst snd]. destruct v; try reflexivity.
    discriminate.
  - change (nestAt (part :: next :: rest) v)
      with (assign part (VObj (nestAt (next :: rest) v)) []).
    rewrite flattenValue_eq. cbn [assign fold_left].
    unfold flattenStep. cbn [fst snd].
    rewrite (IH (extend prefix part) v); [reflexivity|discriminate|exact Hv].
Qed.

(** X11. A diff created at a path flattens back to that single path:
    [flattenDiff(createDiffAtPath(path, v))] is [{path: v}], for a value that
    is not a plain object and a path that does not begin with a dot. *)
Theorem createDiffAtPath_flattens_to_path :
  forall path v,
    startsWithDot path = false ->
    isPlainObject v = false ->
    flattenDiff (VObj (createDiffAtPath path v)) "" = [(path, v)].
Proof.
  intros path v Hdot Hv. unfold flattenDiff, createDiffAtPath.
  cbn [entries].
  rewrite (flatten_nestAt (split path) "" v (split_nonempty path) Hv).
  change (fold_left extend (split path) "") with (joinPath (split path)).
  rewrite (joinPath_split path Hdot). reflexivity.
Qed.

Lemma createDiffAtPath_flattens_to_path_witness :
  flattenDiff (VObj (createDiffAtPath "building.config..enabled" VDeleteField))
    "" = [("building.config..enabled", VDeleteField)].
Proof.
  apply createDiffAtPath_flattens_to_path; reflexivity.
Defined.

(** ** Merging diffs *)

Lemma mergeValue_eq :
  forall first sfs,
    mergeValue first (VObj sfs) = fold_left mergeStep sfs (cloneRecord first).
Proof.
  intros first sfs. cbn [mergeValue]. generalize (cloneRecord first).
  induction sfs as [|[key secondValue] rest IH]; intros result;
    [reflexivity|].
  cbn [fold_left]. rewrite <- IH. reflexivity.
Qed.

Lemma lookup_mergeStep_other :
  forall result k' sv k,
    k <> k' -> lookup k (mergeStep result (k', sv)) = lookup k result.
Proof.
  intros result k' sv k Hne. unfold mergeStep. cbn [fst snd].
  destruct (lookup k' result) as [[]|], sv;
    apply lookup_assign_neq; exact Hne.
Qed.

Lemma lookup_merged :
  forall sfs acc k,
    NoDup (keys sfs) ->
    lookup k (fold_left mergeStep sfs acc) =
    match lookup k sfs with
    | Some sv =>
        Some match lookup k acc, sv with
             | Some (VObj firstValue), VObj _ => VObj (mergeValue firstValue sv)
             | _, _ => sv
             end
    | None => lookup k acc
    end.
Proof.
  induction sfs as [|[k' sv'] rest IH]; intros acc k Hnd; [reflexivity|].
  cbn [keys map fst] in Hnd. inversion Hnd as [|? ? Hnotin Hnd']; subst.
  cbn [fold_left lookup]. rewrite (IH _ k Hnd').
  destruct (String.eqb k k') eqn:E.
  - apply String.eqb_eq in E. subst k'.
    apply lookup_None_keys in Hnotin. rewrite Hnotin.
    unfold mergeStep. cbn [fst snd].
    destruct (lookup k acc) as [[]|], sv'; apply lookup_assign_eq.
  - apply String.eqb_neq in E.
    rewrite (lookup_mergeStep_other acc k' sv' k E). reflexivity.
Qed.


Lemma lookup_cloneRecord :
  forall r k,
    NoDup (keys r) ->
    lookup k (cloneRecord r) =
    match lookup k r with Some v => Some (deepClone v) | None => None end.
Proof.
  intros r k Hnd. unfold cloneRecord. rewrite deepClone_record_eq.
  rewrite (lookup_copy r [] k Hnd). reflexivity.
Qed.

(** X12. What [mergeDiffs(first, second)] holds under a key [k], for
    diffs with distinct keys.  A key only [first] names keeps the deep clone
    of its value; a key [second] names takes the value of [second], except
    that two plain objects are merged recursively.  Because the clone of a
    sentinel is a plain object, a [deleteField()] or [serverTimestamp()] of
    [first] does not come out as a sentinel. *)
Theorem mergeDiffs_fieldwise :
  forall first second k,
    NoDup (keys first) -> NoDup (keys second) ->
    let cloned :=
      match lookup k first with
      | Some v => Some (deepClone v)
      | None => None
      end in
    lookup k (mergeDiffs first second) =
      match lookup k second with
      | None => cloned
      | Some secondValue =>
          Some match cloned, secondValue with
               | Some (VObj firstValue), VObj nested =>
                   VObj (mergeDiffs firstValue nested)
               | _, _ => secondValue
               end
      end /\
    (forall v,
       lookup k first = Some v -> v = VDeleteField \/ v = VServerTimestamp ->
       lookup k second = None ->
       exists plain, lookup k (mergeDiffs first second) = Some (VObj plain)).
Proof.
  intros first second k Hf Hs cloned.
  assert (Hmain :
    lookup k (mergeDiffs first second) =
      match lookup k second with
      | None => cloned
      | Some secondValue =>
          Some match cloned, secondValue with
               | Some (VObj firstValue), VObj nested =>
                   VObj (mergeDiffs firstValue nested)
               | _, _ => secondValue
               end
      end).
  { unfold mergeDiffs. rewrite mergeValue_eq.
    rewrite (lookup_merged second _ k Hs), (lookup_cloneRecord first k Hf).
    fold cloned. destruct (lookup k second) as [sv|]; [|reflexivity].
    destruct cloned as [[]|], sv; reflexivity. }
  split; [exact Hmain|].
  intros v Hv Hsent Hnone. rewrite Hmain, Hnone. subst cloned. rewrite Hv.
  destruct Hsent as [->| ->]; eexists; reflexivity.
Qed.

Lemma mergeDiffs_fieldwise_witness :
  lookup "building"
    (mergeDiffs
       [("building", VObj [("floors", VNum 2)]); ("name", VDeleteField)]
       [("building", VObj [("height", VNum 9)])]) =
    Some (VObj [("floors", VNum 2); ("height", VNum 9)]) /\
  exists plain,
    lookup "name"
      (mergeDiffs
         [("building", VObj [("floors", VNum 2)]); ("name", VDeleteField)]
         [("building", VObj [("height", VNum 9)])]) = Some (VObj plain).
Proof.
  assert (Hf : NoDup (keys [("building", VObj [("floors", VNum 2)]);
                            ("name", VDeleteField)])).
  { apply distinct_NoDup. reflexivity. }
  assert (Hs : NoDup (keys [("building", VObj [("height", VNum 9)])])).
  { apply distinct_NoDup. reflexivity. }
  split.
  - rewrite (proj1 (mergeDiffs_fieldwise _ _ "building" Hf Hs)). reflexivity.
  - apply (proj2 (mergeDiffs_fieldwise _ _ "name" Hf Hs) VDeleteField);
      [reflexivity|left; reflexivity|reflexivity].
Defined.







Section Merge.

Variable sameInstance : value -> value -> bool.


End Merge.



(** * Further properties of the undo manager *)

Lemma navigate_notified :
  forall (World : Type) cfg action (m : Undo.Manager World),
    Undo.notified (Undo.navigate World cfg action m) = Undo.notified m.
Proof.
  intros World cfg action m. unfold Undo.navigate.
  destruct (Undo.path action); [|reflexivity].
  destruct (Undo.truthy (Some s) && Undo.onNavigate cfg); reflexivity.
Qed.

(** X14. A reversal procedure that rejects costs nothing: after an
    [undo()] whose procedure rejects, both stacks are as they were, no
    subscriber is notified and the call itself rejects; the same holds for
    [redo()].  The world is left as the failed procedure left it. *)
Theorem failed_undo_restores_stacks :
  forall (World : Type) (cfg : Undo.UndoManagerConfig)
         (m : Undo.Manager World) (w w' : World) below action,
    (Undo.undoStack m = below ++ [action] ->
     Undo.undo action w = (w', false) ->
     let result := Undo.undoOnce cfg m w in
     Undo.undoStack (fst (fst result)) = Undo.undoStack m /\
     Undo.redoStack (fst (fst result)) = Undo.redoStack m /\
     Undo.notified (fst (fst result)) = Undo.notified m /\
     snd (fst result) = w' /\
     snd result = false) /\
    (Undo.redoStack m = below ++ [action] ->
     Undo.redo action w = (w', false) ->
     let result := Undo.redoOnce cfg m w in
     Undo.undoStack (fst (fst result)) = Undo.undoStack m /\
     Undo.redoStack (fst (fst result)) = Undo.redoStack m /\
     Undo.notified (fst (fst result)) = Undo.notified m /\
     snd (fst result) = w' /\
     snd result = false).
Proof.
  intros World cfg m w w' below action. split.
  - intros Hstack Hundo result. subst result. rewrite undoOnce_eq.
    rewrite Hstack, pop_snoc, Hundo. cbn [fst snd Undo.withStacks
      Undo.undoStack Undo.redoStack Undo.notified].
    rewrite navigate_notified. cbn. auto.
  - intros Hstack Hredo result. subst result. rewrite redoOnce_eq.
    rewrite Hstack, pop_snoc, Hredo. cbn [fst snd Undo.withStacks
      Undo.undoStack Undo.redoStack Undo.notified].
    rewrite navigate_notified. cbn. auto.
Qed.

Lemma failed_undo_restores_stacks_witness :
  let failing : Undo.UndoAction (list string) :=
    {| Undo.undo := fun w => (w ++ ["tried"], false);
       Undo.redo := fun w => (w ++ ["tried"], false);
       Undo.groupId := None; Undo.path := Some "/projects/p1";
       Undo.description := None |} in
  let m := Undo.push boundThree failing Undo.create in
  let m' : Undo.Manager (list string) :=
    {| Undo.undoStack := []; Undo.redoStack := [failing];
       Undo.navigated := []; Undo.notified := [] |} in
  (Undo.undoStack (fst (fst (Undo.undoOnce boundThree m []))) =
     Undo.undoStack m /\
   snd (Undo.undoOnce boundThree m []) = false) /\
  (Undo.redoStack (fst (fst (Undo.redoOnce boundThree m' []))) =
     Undo.redoStack m' /\
   snd (Undo.redoOnce boundThree m' []) = false).
Proof.
  intros failing m m'. split.
  - destruct (proj1 (failed_undo_restores_stacks (list string) boundThree m
                       [] ["tried"] [] failing) eq_refl eq_refl)
      as (Hu & _ & _ & _ & Hres).
    split; [exact Hu|exact Hres].
  - destruct (proj2 (failed_undo_restores_stacks (list string) boundThree m'
                       [] ["tried"] [] failing) eq_refl eq_refl)
      as (_ & Hr & _ & _ & Hres).
    split; [exact Hr|exact Hres].
Defined.

(** X15. A successful [undo()] followed by a successful [redo()] puts
    both stacks back as they were, for a manager whose undo stack is within
    its bound; the world has gone through the undo and then the redo
    procedure of the top entry. *)
Theorem undo_then_redo_restores_stacks :
  forall (World : Type) (cfg : Undo.UndoManagerConfig)
         (m : Undo.Manager World) (w w1 w2 : World) below action,
    (Z.of_nat (List.length (Undo.undoStack m)) <= Undo.maxLength cfg)%Z ->
    Undo.undoStack m = below ++ [action] ->
    Undo.undo action w = (w1, true) ->
    Undo.redo action w1 = (w2, true) ->
    let undone := Undo.undoOnce cfg m w in
    let redone := Undo.redoOnce cfg (fst (fst undone)) (snd (fst undone)) in
    Undo.undoStack (fst (fst undone)) = below /\
    Undo.redoStack (fst (fst undone)) = Undo.redoStack m ++ [action] /\
    Undo.undoStack (fst (fst redone)) = Undo.undoStack m /\
    Undo.redoStack (fst (fst redone)) = Undo.redoStack m /\
    snd (fst redone) = w2 /\
    snd redone = true.
Proof.
  intros World cfg m w w1 w2 below action Hb Hstack Hundo Hredo undone redone.
  assert (Hu : undone =
                 (Undo.notify World
                    (Undo.withStacks World
                       (Undo.navigate World cfg action
                          (Undo.withStacks World m below (Undo.redoStack m)))
                       below (Undo.redoStack m ++ [action])),
                  w1, true)).
  { subst undone. rewrite undoOnce_eq, Hstack, pop_snoc, Hundo.
    reflexivity. }
  subst redone. rewrite Hu. cbn [fst snd].
  split; [reflexivity|]. split; [reflexivity|].
  rewrite redoOnce_eq.
  cbn [Undo.notify Undo.withStacks Undo.undoStack Undo.redoStack].
  rewrite pop_snoc, Hredo. cbn [fst snd Undo.notify Undo.withStacks
    Undo.undoStack Undo.redoStack].
  rewrite <- Hstack. unfold Undo.enforceMaxLength.
  destruct (Z.gtb_spec (Z.of_nat (List.length (Undo.undoStack m)))
              (Undo.maxLength cfg)) as [Hgt|_]; [lia|].
  repeat split; reflexivity.
Qed.

Lemma undo_then_redo_restores_stacks_witness :
  let m := Undo.push boundThree (traced "1" None)
             (Undo.push boundThree (traced "0" None) Undo.create) in
  let undone := Undo.undoOnce boundThree m [] in
  let redone :=
    Undo.redoOnce boundThree (fst (fst undone)) (snd (fst undone)) in
  Undo.undoStack (fst (fst redone)) = Undo.undoStack m /\
  snd (fst redone) = ["undo 1"; "redo 1"].
Proof.
  intros m undone redone.
  assert (Hb : (Z.of_nat (List.length (Undo.undoStack m))
                <= Undo.maxLength boundThree)%Z) by (cbn; lia).
  destruct (undo_then_redo_restores_stacks (list string) boundThree m
              [] ["undo 1"] ["undo 1"; "redo 1"] [traced "0" None]
              (traced "1" None) Hb eq_refl eq_refl eq_refl)
    as (_ & _ & Hu & _ & Hw & _).
  split; [exact Hu|exact Hw].
Defined.

Lemma undo_all :
  forall (World : Type) (cfg : Undo.UndoManagerConfig)
         (stack : list (Undo.UndoAction World)) (m : Undo.Manager World)
         (w : World),
    Undo.undoStack m = stack ->
    (forall action, In action stack ->
                    forall w', snd (Undo.undo action w') = true) ->
    let final :=
      Undo.run cfg (repeat Undo.UndoCall (List.length stack)) (m, w) in
    Undo.undoStack (fst final) = [] /\
    Undo.redoStack (fst final) = Undo.redoStack m ++ rev stack /\
    snd final = undoneWorld World stack w.
Proof.
  intros World cfg stack.
  induction stack as [|action below IH] using rev_ind;
    intros m w Hstack Hres final.
  - subst final. cbn. rewrite app_nil_r. auto.
  - subst final. rewrite length_app, Nat.add_comm. cbn [List.length plus repeat].
    unfold Undo.run. cbn [fold_left Undo.step fst snd].
    assert (Hok : snd (Undo.undo action w) = true).
    { apply Hres. apply in_or_app. right. left. reflexivity. }
    destruct (Undo.undo action w) as [w1 resolved] eqn:Hundo.
    cbn [snd] in Hok. subst resolved.
    assert (Hstep : fst (Undo.undoOnce cfg m w) =
              (Undo.notify World
                 (Undo.withStacks World
                    (Undo.navigate World cfg action
                       (Undo.withStacks World m below (Undo.redoStack m)))
                    below (Undo.redoStack m ++ [action])),
               w1)).
    { rewrite undoOnce_eq, Hstack, pop_snoc, Hundo. reflexivity. }
    rewrite Hstep.
    match goal with
    | |- context [fold_left _ _ (?m1, w1)] =>
        destruct (IH m1 w1 eq_refl
                    (fun a Ha => Hres a (in_or_app _ _ _ (or_introl Ha))))
          as (Hu & Hr & Hw)
    end.
    unfold Undo.run in Hu, Hr, Hw.
    split; [exact Hu|]. split.
    + rewrite Hr. cbn [Undo.notify Undo.withStacks Undo.redoStack].
      rewrite rev_app_distr, <- app_assoc. reflexivity.
    + rewrite Hw. unfold undoneWorld. rewrite fold_right_app.
      cbn [fold_right]. rewrite Hundo. reflexivity.
Qed.

(** X16. Undo is last in, first out: when every undo procedure of the
    stack resolves, as many [undo()] calls as the stack has entries empty
    it, run the procedures from the newest entry to the oldest, and leave
    the entries on the redo stack, the oldest on top. *)
Theorem undo_runs_newest_first :
  forall (World : Type) (cfg : Undo.UndoManagerConfig)
         (m : Undo.Manager World) (w : World),
    (forall action, In action (Undo.undoStack m) ->
                    forall w', snd (Undo.undo action w') = true) ->
    let final :=
      Undo.run cfg
        (repeat Undo.UndoCall (List.length (Undo.undoStack m))) (m, w) in
    Undo.undoStack (fst final) = [] /\
    Undo.redoStack (fst final) = Undo.redoStack m ++ rev (Undo.undoStack m) /\
    snd final =
      fold_right (fun action w' => fst (Undo.undo action w')) w
        (Undo.undoStack m).
Proof.
  intros World cfg m w Hres.
  exact (undo_all World cfg (Undo.undoStack m) m w eq_refl Hres).
Qed.

Lemma undo_runs_newest_first_witness :
  let m := Undo.push boundThree (traced "2" None)
             (Undo.push boundThree (traced "1" None)
                (Undo.push boundThree (traced "0" None) Undo.create)) in
  snd (Undo.run boundThree [Undo.UndoCall; Undo.UndoCall; Undo.UndoCall]
         (m, [])) = ["undo 2"; "undo 1"; "undo 0"].
Proof.
  intros m.
  assert (Hres : forall action, In action (Undo.undoStack m) ->
                   forall w', snd (Undo.undo action w') = true).
  { intros action [<-|[<-|[<-|[]]]] w'; reflexivity. }
  exact (proj2 (proj2 (undo_runs_newest_first (list string) boundThree m []
                         Hres))).
Defined.

Lemma upToDate_notify :
  forall (World : Type) (m : Undo.Manager World),
    upToDate World (Undo.notify World m).
Proof.
  intros World m. unfold upToDate, Undo.notify. cbn.
  rewrite rev_unit. reflexivity.
Qed.

Lemma upToDate_step :
  forall (World : Type) cfg c (mw : Undo.Manager World * World),
    upToDate World (fst mw) -> upToDate World (fst (Undo.step cfg c mw)).
Proof.
  intros World cfg c [m w] Hup. destruct c; cbn [Undo.step fst snd].
  - unfold Undo.push.
    destruct (Undo.truthy (Undo.groupId action) &&
              Undo.nonEmpty (Undo.undoStack m));
      [|apply upToDate_notify].
    destruct (Undo.pop (Undo.undoStack m)) as [[below last]|];
      [|apply upToDate_notify].
    destruct (Undo.sameString (Undo.groupId last) (Undo.groupId action));
      apply upToDate_notify.
  - rewrite undoOnce_eq.
    destruct (Undo.pop (Undo.undoStack m)) as [[below action]|] eqn:Hpop;
      [|exact Hup].
    destruct (Undo.undo action w) as [w' resolved].
    destruct resolved; cbn [fst]; [apply upToDate_notify|].
    apply pop_some in Hpop. unfold upToDate in *.
    cbn [Undo.withStacks Undo.undoStack Undo.redoStack Undo.notified].
    rewrite navigate_notified. cbn [Undo.withStacks Undo.notified].
    rewrite <- Hpop. exact Hup.
  - rewrite redoOnce_eq.
    destruct (Undo.pop (Undo.redoStack m)) as [[below action]|] eqn:Hpop;
      [|exact Hup].
    destruct (Undo.redo action w) as [w' resolved].
    destruct resolved; cbn [fst]; [apply upToDate_notify|].
    apply pop_some in Hpop. unfold upToDate in *.
    cbn [Undo.withStacks Undo.undoStack Undo.redoStack Undo.notified].
    rewrite navigate_notified. cbn [Undo.withStacks Undo.notified].
    rewrite <- Hpop. exact Hup.
  - apply upToDate_notify.
Qed.

Lemma upToDate_push :
  forall (World : Type) cfg action (m : Undo.Manager World),
    upToDate World (Undo.push cfg action m).
Proof.
  intros World cfg action m. unfold Undo.push.
  destruct (Undo.truthy (Undo.groupId action) &&
            Undo.nonEmpty (Undo.undoStack m));
    [|apply upToDate_notify].
  destruct (Undo.pop (Undo.undoStack m)) as [[below last]|];
    [|apply upToDate_notify].
  destruct (Undo.sameString (Undo.groupId last) (Undo.groupId action));
    apply upToDate_notify.
Qed.

Section Interleaving.

Import Undo.

Variable World : Type.
Variable cfg : UndoManagerConfig.

(** A property of actions that merging keeps. *)
Variable P : UndoAction World -> Prop.
Hypothesis P_merge :
  forall last action, P last -> P action -> P (merge last action).

Lemma Forall_enforce :
  forall (A : Type) (Q : A -> Prop) n (l : list A),
    Forall Q l -> Forall Q (enforceMaxLength n l).
Proof.
  intros A Q n l H. unfold enforceMaxLength.
  destruct (Z.of_nat (List.length l) >? n)%Z; [|exact H].
  destruct l; [exact H|]. inversion H; subst. assumption.
Qed.

Lemma Forall_without :
  forall (A : Type) (Q : A -> Prop) n (l : list A),
    Forall Q l -> Forall Q (without n l).
Proof.
  intros A Q n l. revert n. induction l as [|x l IH]; intros n H;
    [destruct n; exact H|].
  inversion H; subst. destruct n; cbn [without]; [assumption|].
  constructor; [assumption|]. apply IH. assumption.
Qed.

Lemma Forall_snoc :
  forall (A : Type) (Q : A -> Prop) (l : list A) x,
    Forall Q l -> Q x -> Forall Q (l ++ [x]).
Proof.
  intros A Q l x Hl Hx. apply Forall_app. split; [exact Hl|].
  constructor; [exact Hx|constructor].
Qed.

Lemma pop_entries :
  forall (stack below : list (UndoAction World)) top,
    pop stack = Some (below, top) -> Forall P stack ->
    Forall P below /\ P top.
Proof.
  intros stack below top Hpop H. apply pop_some in Hpop. subst stack.
  apply Forall_app in H. destruct H as [Hb Ht]. split; [exact Hb|].
  inversion Ht; subst. assumption.
Qed.

Lemma push_entries :
  forall action (m : Manager World),
    Forall P (undoStack m) -> P action ->
    Forall P (undoStack (push cfg action m)) /\
    Forall P (redoStack (push cfg action m)).
Proof.
  intros action m Hm Ha.
  assert (Hplain : Forall P (enforceMaxLength (maxLength cfg)
                               (undoStack m ++ [action])))
    by (apply Forall_enforce, Forall_snoc; assumption).
  rewrite push_clears_redo. split; [|constructor].
  unfold push.
  destruct (truthy (groupId action) && nonEmpty (undoStack m));
    [|exact Hplain].
  destruct (pop (undoStack m)) as [[below last]|] eqn:Hpop; [|exact Hplain].
  destruct (sameString (groupId last) (groupId action)); [|exact Hplain].
  destruct (pop_entries _ _ _ Hpop Hm) as [Hb Hl].
  cbn [notify withStacks undoStack]. apply Forall_snoc; [exact Hb|].
  apply P_merge; assumption.
Qed.

Lemma settle_entries :
  forall call (m : Manager World),
    Forall P (undoStack m) -> Forall P (redoStack m) -> P (entry call) ->
    Forall P (undoStack (fst (settle cfg call m))) /\
    Forall P (redoStack (fst (settle cfg call m))).
Proof.
  intros call m Hu Hr Hc. unfold settle, undoSettle, redoSettle.
  destruct (undoing call), (resolves call);
    cbn [fst notify withStacks undoStack redoStack]; split;
    try assumption; try (apply Forall_snoc; assumption).
  apply Forall_enforce, Forall_snoc; assumption.
Qed.

(** Every entry of the stacks and of the suspended calls keeps the
    property, whatever happens, as long as the actions pushed have it. *)
Lemma occur_entries :
  forall e (m : Manager World) w suspended,
    (forall action, e = Called (Push action) -> P action) ->
    Forall P (undoStack m) -> Forall P (redoStack m) ->
    Forall (fun c => P (entry c)) suspended ->
    Forall P (undoStack (fst (fst (occur cfg e (m, w, suspended))))) /\
    Forall P (redoStack (fst (fst (occur cfg e (m, w, suspended))))) /\
    Forall (fun c => P (entry c)) (snd (occur cfg e (m, w, suspended))).
Proof.
  intros e m w suspended He Hu Hr Hs.
  destruct e as [[action| | |]|n]; cbn [occur].
  - destruct (push_entries action m Hu (He action eq_refl)) as [H1 H2].
    cbn [fst snd]. repeat split; assumption.
  - unfold undoBegin.
    destruct (pop (undoStack m)) as [[below action]|] eqn:Hpop;
      [|cbn [suspend fst snd]; repeat split; assumption].
    destruct (pop_entries _ _ _ Hpop Hu) as [Hb Ha].
    cbv zeta. destruct (undo action w) as [w' resolved].
    cbn [suspend fst snd].
    rewrite (proj1 (navigate_stacks World cfg action _)),
      (proj2 (navigate_stacks World cfg action _)).
    cbn [withStacks undoStack redoStack].
    repeat split; try assumption. apply Forall_snoc; assumption.
  - unfold redoBegin.
    destruct (pop (redoStack m)) as [[below action]|] eqn:Hpop;
      [|cbn [suspend fst snd]; repeat split; assumption].
    destruct (pop_entries _ _ _ Hpop Hr) as [Hb Ha].
    cbv zeta. destruct (redo action w) as [w' resolved].
    cbn [suspend fst snd].
    rewrite (proj1 (navigate_stacks World cfg action _)),
      (proj2 (navigate_stacks World cfg action _)).
    cbn [withStacks undoStack redoStack].
    repeat split; try assumption. apply Forall_snoc; assumption.
  - cbn [fst snd clear notify withStacks undoStack redoStack].
    repeat split; try constructor. exact Hs.
  - destruct (nth_error suspended n) as [call|] eqn:Hn;
      [|cbn [fst snd]; repeat split; assumption].
    cbn [fst snd].
    assert (Hc : P (entry call)).
    { rewrite Forall_forall in Hs. exact (Hs call (nth_error_In _ _ Hn)). }
    destruct (settle_entries call m Hu Hr Hc) as [H1 H2].
    repeat split; try assumption. apply Forall_without. exact Hs.
Qed.

End Interleaving.

Lemma merge_alwaysResolves :
  forall (World : Type) (last action : Undo.UndoAction World),
    alwaysResolves World last -> alwaysResolves World action ->
    alwaysResolves World (Undo.merge last action).
Proof.
  intros World last action [Hlu Hlr] [Hau Har]. split; intros w;
    cbn [Undo.merge Undo.undo Undo.redo]; unfold Undo.andThen.
  - specialize (Hlu w). destruct (Undo.undo last w) as [w1 r].
    cbn [snd] in Hlu. subst r. apply Hau.
  - specialize (Har w). destruct (Undo.redo action w) as [w1 r].
    cbn [snd] in Har. subst r. apply Hlr.
Qed.

Lemma merge_undoResolves :
  forall (World : Type) (last action : Undo.UndoAction World),
    undoResolves World last -> undoResolves World action ->
    undoResolves World (Undo.merge last action).
Proof.
  intros World last action Hl Ha w.
  cbn [Undo.merge Undo.undo]. unfold Undo.andThen.
  specialize (Hl w). destruct (Undo.undo last w) as [w1 r].
  cbn [snd] in Hl. subst r. apply Ha.
Qed.

(** With procedures that always resolve, a suspended call resolves, and
    whenever no call is suspended the subscribers are up to date. *)
Lemma occur_current :
  forall (World : Type) cfg e (m : Undo.Manager World) w suspended,
    Forall (alwaysResolves World) (Undo.undoStack m) ->
    Forall (alwaysResolves World) (Undo.redoStack m) ->
    Forall (fun c => Undo.resolves c = true) suspended ->
    (suspended = [] -> upToDate World m) ->
    Forall (fun c => Undo.resolves c = true)
      (snd (Undo.occur cfg e (m, w, suspended))) /\
    (snd (Undo.occur cfg e (m, w, suspended)) = [] ->
     upToDate World (fst (fst (Undo.occur cfg e (m, w, suspended))))).
Proof.
  intros World cfg e m w suspended Hu Hr Hs Hup.
  destruct e as [[action| | |]|n]; cbn [Undo.occur].
  - cbn [fst snd]. split; [exact Hs|]. intros _. apply upToDate_push.
  - unfold Undo.undoBegin.
    destruct (Undo.pop (Undo.undoStack m)) as [[below action]|] eqn:Hpop;
      [|cbn [Undo.suspend fst snd]; split; assumption].
    destruct (pop_entries World (alwaysResolves World) _ _ _ Hpop Hu)
      as [_ [Ha _]].
    cbv zeta. specialize (Ha w).
    destruct (Undo.undo action w) as [w' resolved]. cbn [snd] in Ha.
    subst resolved. cbn [Undo.suspend fst snd]. split.
    + apply Forall_snoc; [exact Hs|reflexivity].
    + intros E. destruct suspended; discriminate.
  - unfold Undo.redoBegin.
    destruct (Undo.pop (Undo.redoStack m)) as [[below action]|] eqn:Hpop;
      [|cbn [Undo.suspend fst snd]; split; assumption].
    destruct (pop_entries World (alwaysResolves World) _ _ _ Hpop Hr)
      as [_ [_ Ha]].
    cbv zeta. specialize (Ha w).
    destruct (Undo.redo action w) as [w' resolved]. cbn [snd] in Ha.
    subst resolved. cbn [Undo.suspend fst snd]. split.
    + apply Forall_snoc; [exact Hs|reflexivity].
    + intros E. destruct suspended; discriminate.
  - cbn [fst snd]. split; [exact Hs|]. intros _. unfold Undo.clear.
    apply upToDate_notify.
  - destruct (nth_error suspended n) as [call|] eqn:Hn;
      [|cbn [fst snd]; split; assumption].
    cbn [fst snd]. split; [apply Forall_without; exact Hs|].
    intros _.
    assert (Hc : Undo.resolves call = true).
    { rewrite Forall_forall in Hs. exact (Hs call (nth_error_In _ _ Hn)). }
    unfold Undo.settle, Undo.undoSettle, Undo.redoSettle. rewrite Hc.
    destruct (Undo.undoing call); cbn [fst]; apply upToDate_notify.
Qed.

(** With undo procedures that always resolve, the undo stack stays within
    its bound whatever happens, calls that overlap included. *)
Lemma occur_bounded :
  forall (World : Type) cfg e (m : Undo.Manager World) w suspended,
    (0 <= Undo.maxLength cfg)%Z ->
    Forall (undoResolves World) (Undo.undoStack m) ->
    Forall (fun c => Undo.undoing c = true -> Undo.resolves c = true)
      suspended ->
    bounded World cfg m ->
    Forall (fun c => Undo.undoing c = true -> Undo.resolves c = true)
      (snd (Undo.occur cfg e (m, w, suspended))) /\
    bounded World cfg (fst (fst (Undo.occur cfg e (m, w, suspended)))).
Proof.
  intros World cfg e m w suspended H0 Hu Hs Hb.
  destruct e as [[action| | |]|n]; cbn [Undo.occur].
  - cbn [fst snd]. split; [exact Hs|]. apply push_bounded; assumption.
  - unfold Undo.undoBegin.
    destruct (Undo.pop (Undo.undoStack m)) as [[below action]|] eqn:Hpop;
      [|cbn [Undo.suspend fst snd]; split; assumption].
    destruct (pop_entries World (undoResolves World) _ _ _ Hpop Hu)
      as [_ Ha].
    cbv zeta. specialize (Ha w).
    destruct (Undo.undo action w) as [w' resolved]. cbn [snd] in Ha.
    subst resolved. cbn [Undo.suspend fst snd]. split.
    + apply Forall_snoc; [exact Hs|]. intros _. reflexivity.
    + unfold bounded in *.
      rewrite (proj1 (navigate_stacks World cfg action _)).
      cbn [Undo.withStacks Undo.undoStack].
      apply pop_some in Hpop. rewrite Hpop, length_app in Hb.
      cbn [List.length] in Hb. lia.
  - unfold Undo.redoBegin.
    destruct (Undo.pop (Undo.redoStack m)) as [[below action]|] eqn:Hpop;
      [|cbn [Undo.suspend fst snd]; split; assumption].
    cbv zeta. destruct (Undo.redo action w) as [w' resolved].
    cbn [Undo.suspend fst snd]. split.
    + apply Forall_snoc; [exact Hs|]. intros E. discriminate.
    + unfold bounded in *.
      rewrite (proj1 (navigate_stacks World cfg action _)).
      cbn [Undo.withStacks Undo.undoStack]. exact Hb.
  - cbn [fst snd]. split; [exact Hs|]. unfold bounded. cbn. exact H0.
  - destruct (nth_error suspended n) as [call|] eqn:Hn;
      [|cbn [fst snd]; split; assumption].
    cbn [fst snd]. split; [apply Forall_without; exact Hs|].
    assert (Hc : Undo.undoing call = true -> Undo.resolves call = true).
    { rewrite Forall_forall in Hs. exact (Hs call (nth_error_In _ _ Hn)). }
    unfold bounded in *.
    unfold Undo.settle, Undo.undoSettle, Undo.redoSettle.
    destruct (Undo.undoing call).
    + rewrite (Hc eq_refl). cbn. exact Hb.
    + destruct (Undo.resolves call); cbn; [|exact Hb].
      apply enforceMaxLength_bound; [exact H0|].
      rewrite length_app. cbn [List.length]. lia.
Qed.

Lemma pushedActions_cons :
  forall (World : Type) (e : Undo.event World) rest action,
    e = Undo.Called (Undo.Push action) ->
    In action (pushedActions World (e :: rest)).
Proof.
  intros World e rest action ->. cbn. left. reflexivity.
Qed.

Lemma pushedActions_tail :
  forall (World : Type) (e : Undo.event World) rest action,
    In action (pushedActions World rest) ->
    In action (pushedActions World (e :: rest)).
Proof.
  intros World e rest action Hin. unfold pushedActions in *.
  cbn [flat_map]. apply in_or_app. right. exact Hin.
Qed.

(** The bound in every interleaving: it can only be exceeded when an undo
    procedure rejects. *)
Lemma interleaved_undo_stack_is_bounded :
  forall (World : Type) (cfg : Undo.UndoManagerConfig) events (w : World),
    (0 <= Undo.maxLength cfg)%Z ->
    (forall action, In action (pushedActions World events) ->
                    undoResolves World action) ->
    bounded World cfg
      (fst (fst (Undo.interleave cfg events (Undo.create, w, [])))).
Proof.
  intros World cfg events w H0.
  assert (Hgen : forall evs m w suspended,
            (forall action, In action (pushedActions World evs) ->
                            undoResolves World action) ->
            Forall (undoResolves World) (Undo.undoStack m) ->
            Forall (undoResolves World) (Undo.redoStack m) ->
            Forall (fun c => undoResolves World (Undo.entry c)) suspended ->
            Forall (fun c => Undo.undoing c = true -> Undo.resolves c = true)
              suspended ->
            bounded World cfg m ->
            bounded World cfg
              (fst (fst (Undo.interleave cfg evs (m, w, suspended))))).
  { clear w. induction evs as [|e rest IH];
      intros m w suspended Hp Hu Hr He Hs Hb; [exact Hb|].
    unfold Undo.interleave. cbn [fold_left].
    destruct (occur_entries World cfg (undoResolves World)
                (merge_undoResolves World) e m w suspended
                (fun action E => Hp action (pushedActions_cons _ _ _ _ E))
                Hu Hr He) as (Hu' & Hr' & He').
    destruct (occur_bounded World cfg e m w suspended H0 Hu Hs Hb)
      as (Hs' & Hb').
    destruct (Undo.occur cfg e (m, w, suspended)) as [[m' w'] suspended'].
    apply IH; try assumption.
    intros action Hin. apply Hp. apply pushedActions_tail. exact Hin. }
  intros Hp.
  apply Hgen;
    [exact Hp|constructor|constructor|constructor|constructor|].
  unfold bounded. cbn. exact H0.
Qed.

(** A call made while a rejecting procedure is awaited leaves the
    subscribers stale: after [push(a)], [undo()], [clear()] and the
    rejection of [a]'s procedure, the last state sent says that nothing can
    be undone, while the stack holds [a]. *)
Example rejected_undo_leaves_subscribers_stale :
  let final :=
    Undo.interleave boundThree
      [Undo.Called (Undo.Push (failing "a")); Undo.Called Undo.UndoCall;
       Undo.Called Undo.Clear; Undo.Settled 0]
      (Undo.create, [], []) in
  snd final = [] /\
  map Undo.description (Undo.undoStack (fst (fst final))) = [Some "a"] /\
  rev (Undo.notified (fst (fst final))) =
    [(false, false); (true, false)].
Proof. repeat split. Qed.

(** X17. The subscribers of an undo manager are not left with a stale
    state by calls that are awaited, nor by calls that overlap when no
    procedure rejects.  After any sequence of [push], [undo], [redo] and
    [clear] calls on a fresh manager, each awaited before the next and
    whether procedures resolve or reject, the last [(canUndo, canRedo)]
    sent is the current one, and a manager that has sent nothing has empty
    stacks.  The same holds after any interleaving of calls and settling
    procedures that leaves no call suspended, when the procedures of every
    action pushed resolve. *)
Theorem undo_subscribers_see_current_state :
  forall (World : Type) (cfg : Undo.UndoManagerConfig),
    (forall calls (w : World),
       let m := fst (Undo.run cfg calls (Undo.create, w)) in
       match rev (Undo.notified m) with
       | [] => Undo.undoStack m = [] /\ Undo.redoStack m = []
       | latest :: _ =>
           latest = (Undo.nonEmpty (Undo.undoStack m),
                     Undo.nonEmpty (Undo.redoStack m))
       end) /\
    (forall events (w : World),
       (forall action, In action (pushedActions World events) ->
                       alwaysResolves World action) ->
       let final := Undo.interleave cfg events (Undo.create, w, []) in
       snd final = [] ->
       match rev (Undo.notified (fst (fst final))) with
       | [] =>
           Undo.undoStack (fst (fst final)) = [] /\
           Undo.redoStack (fst (fst final)) = []
       | latest :: _ =>
           latest = (Undo.nonEmpty (Undo.undoStack (fst (fst final))),
                     Undo.nonEmpty (Undo.redoStack (fst (fst final))))
       end).
Proof.
  intros World cfg. split.
  - intros calls w.
    assert (Hgen : forall calls (mw : Undo.Manager World * World),
              upToDate World (fst mw) ->
              upToDate World (fst (Undo.run cfg calls mw))).
    { clear. induction calls as [|c rest IH]; intros mw Hup; [exact Hup|].
      unfold Undo.run. cbn [fold_left]. apply IH.
      apply upToDate_step. exact Hup. }
    apply (Hgen calls (Undo.create, w)). unfold upToDate. cbn. auto.
  - intros events w Hp final Hnone.
    assert (Hgen : forall evs m w suspended,
              (forall action, In action (pushedActions World evs) ->
                              alwaysResolves World action) ->
              Forall (alwaysResolves World) (Undo.undoStack m) ->
              Forall (alwaysResolves World) (Undo.redoStack m) ->
              Forall (fun c => alwaysResolves World (Undo.entry c))
                suspended ->
              Forall (fun c => Undo.resolves c = true) suspended ->
              (suspended = [] -> upToDate World m) ->
              snd (Undo.interleave cfg evs (m, w, suspended)) = [] ->
              upToDate World
                (fst (fst (Undo.interleave cfg evs (m, w, suspended))))).
    { clear. induction evs as [|e rest IH];
        intros m w suspended Hp Hu Hr He Hs Hup Hnone;
        [exact (Hup Hnone)|].
      unfold Undo.interleave in *. cbn [fold_left] in *.
      destruct (occur_entries World cfg (alwaysResolves World)
                  (merge_alwaysResolves World) e m w suspended
                  (fun action E => Hp action (pushedActions_cons _ _ _ _ E))
                  Hu Hr He) as (Hu' & Hr' & He').
      destruct (occur_current World cfg e m w suspended Hu Hr Hs Hup)
        as (Hs' & Hup').
      destruct (Undo.occur cfg e (m, w, suspended)) as [[m' w'] suspended'].
      apply IH; try assumption.
      intros action Hin. apply Hp. apply pushedActions_tail. exact Hin. }
    apply (Hgen events Undo.create w []);
      [exact Hp|constructor|constructor|constructor|constructor|
       |exact Hnone].
    intros _. unfold upToDate. cbn. auto.
Qed.

Lemma undo_subscribers_see_current_state_witness :
  let final :=
    Undo.interleave boundThree
      [Undo.Called (Undo.Push (traced "a" None)); Undo.Called Undo.UndoCall;
       Undo.Called (Undo.Push (traced "b" None)); Undo.Settled 0]
      (Undo.create, [], []) in
  rev (Undo.notified (fst (fst final))) =
    (Undo.nonEmpty (Undo.undoStack (fst (fst final))),
     Undo.nonEmpty (Undo.redoStack (fst (fst final))))
    :: [(true, false); (true, false)].
Proof.
  intros final.
  pose proof (proj2 (undo_subscribers_see_current_state (list string)
                       boundThree)
                [Undo.Called (Undo.Push (traced "a" None));
                 Undo.Called Undo.UndoCall;
                 Undo.Called (Undo.Push (traced "b" None)); Undo.Settled 0]
                []) as H.
  cbv zeta in H. fold final in H.
  assert (Hp : forall action,
            In action
              (pushedActions (list string)
                 [Undo.Called (Undo.Push (traced "a" None));
                  Undo.Called Undo.UndoCall;
                  Undo.Called (Undo.Push (traced "b" None));
                  Undo.Settled 0]) ->
            alwaysResolves (list string) action).
  { intros action [<-|[<-|[]]]; split; intros w; reflexivity. }
  specialize (H Hp eq_refl).
  destruct (rev (Undo.notified (fst (fst final)))) as [|latest rest] eqn:E.
  - discriminate E.
  - rewrite <- H. subst final. cbn in E. injection E as <- <-. reflexivity.
Defined.

(** * Properties of the store *)

Lemma get_set_eq :
  forall key b m, Store.get key (Store.set key b m) = Some b.
Proof.
  intros key b m. induction m as [|[k b'] rest IH]; cbn.
  - rewrite String.eqb_refl. reflexivity.
  - destruct (String.eqb key k) eqn:E; cbn; rewrite ?String.eqb_refl, ?E;
      [reflexivity|exact IH].
Qed.

Lemma get_set_neq :
  forall key key' b m,
    key' <> key -> Store.get key' (Store.set key b m) = Store.get key' m.
Proof.
  intros key key' b m Hne. apply String.eqb_neq in Hne.
  induction m as [|[k b'] rest IH]; cbn.
  - rewrite Hne. reflexivity.
  - destruct (String.eqb key k) eqn:E; cbn.
    + apply String.eqb_eq in E. subst k. rewrite Hne. reflexivity.
    + destruct (String.eqb key' k); [reflexivity|exact IH].
Qed.

Lemma get_None :
  forall key m, ~ In key (map fst m) -> Store.get key m = None.
Proof.
  intros key m. induction m as [|[k b] rest IH]; intros H; [reflexivity|].
  cbn in *. destruct (String.eqb key k) eqn:E.
  - apply String.eqb_eq in E. subst k. exfalso. apply H. left. reflexivity.
  - apply IH. intros Hin. apply H. right. exact Hin.
Qed.

Lemma In_keys_set :
  forall key b m k,
    In k (map fst (Store.set key b m)) -> k = key \/ In k (map fst m).
Proof.
  intros key b m k. induction m as [|[k' b'] rest IH]; cbn.
  - intros [<-|[]]. left. reflexivity.
  - destruct (String.eqb key k') eqn:E; cbn.
    + intros [<-|H]; [left; reflexivity|right; right; exact H].
    + intros [<-|H]; [right; left; reflexivity|].
      destruct (IH H) as [->|H']; [left; reflexivity|right; right; exact H'].
Qed.

Lemma NoDup_set :
  forall key b m,
    NoDup (map fst m) -> NoDup (map fst (Store.set key b m)).
Proof.
  intros key b m. induction m as [|[k b'] rest IH]; intros Hnd; cbn.
  - constructor; [intros []|constructor].
  - cbn in Hnd. inversion Hnd as [|? ? Hnotin Hnd']; subst.
    destruct (String.eqb key k) eqn:E; cbn.
    + apply String.eqb_eq in E. subst k. constructor; assumption.
    + constructor; [|apply IH; exact Hnd'].
      intros Hin. apply In_keys_set in Hin. destruct Hin as [->|Hin].
      * rewrite String.eqb_refl in E. discriminate.
      * contradiction.
Qed.

Lemma allSynced_get :
  forall m,
    NoDup (map fst m) ->
    (Store.allSynced (map snd m) = true <->
     forall key, Store.get key m <> Some false).
Proof.
  induction m as [|[k b] rest IH]; intros Hnd.
  - cbn. split; [intros _ key; discriminate|reflexivity].
  - cbn in Hnd. inversion Hnd as [|? ? Hnotin Hnd']; subst.
    cbn [map snd Store.allSynced Store.get]. split.
    + intros H key. destruct b; [|discriminate]. cbn in H.
      destruct (String.eqb key k); [discriminate|].
      apply (proj1 (IH Hnd') H).
    + intros H. pose proof (H k) as Hk. rewrite String.eqb_refl in Hk.
      destruct b; [|exfalso; apply Hk; reflexivity]. cbn.
      apply (proj2 (IH Hnd')). intros key.
      destruct (String.eqb key k) eqn:E.
      * apply String.eqb_eq in E. subst key.
        rewrite (get_None k rest Hnotin). discriminate.
      * specialize (H key). rewrite E in H. exact H.
Qed.

Lemma store_report_get :
  forall key b st key',
    Store.get key'
      (Store.syncStates (fst (Store.reportSyncState key b st))) =
    if String.eqb key' key then Some b
    else Store.get key' (Store.syncStates st).
Proof.
  intros key b st key'. unfold Store.reportSyncState.
  destruct (Store.differs (Store.get key (Store.syncStates st)) b) eqn:D;
    cbn [fst Store.syncStates].
  - destruct (String.eqb key' key) eqn:E.
    + apply String.eqb_eq in E. subst key'. apply get_set_eq.
    + apply String.eqb_neq in E. apply get_set_neq. exact E.
  - destruct (String.eqb key' key) eqn:E; [|reflexivity].
    apply String.eqb_eq in E. subst key'.
    unfold Store.differs in D.
    destruct (Store.get key (Store.syncStates st)) as [p|]; [|discriminate].
    apply negb_false_iff, Bool.eqb_prop in D. congruence.
Qed.

Lemma store_step_get :
  forall st e key,
    Store.get key (Store.syncStates (fst (storeStep st e))) =
    match e with
    | StoreReport k b =>
        if String.eqb key k then Some b
        else Store.get key (Store.syncStates st)
    | _ => Store.get key (Store.syncStates st)
    end.
Proof.
  intros st e key. destruct e; cbn [storeStep]; try reflexivity.
  apply store_report_get.
Qed.

Lemma store_step_NoDup :
  forall st e,
    NoDup (map fst (Store.syncStates st)) ->
    NoDup (map fst (Store.syncStates (fst (storeStep st e)))).
Proof.
  intros st e Hnd. destruct e; cbn [storeStep]; try exact Hnd.
  unfold Store.reportSyncState.
  destruct (Store.differs _ _); cbn [fst Store.syncStates]; [|exact Hnd].
  apply NoDup_set. exact Hnd.
Qed.

Lemma store_run_get :
  forall events st key,
    Store.get key (Store.syncStates (fst (storeRun events st))) =
    match latestReport key events with
    | Some b => Some b
    | None => Store.get key (Store.syncStates st)
    end.
Proof.
  induction events as [|e rest IH]; intros st key; [reflexivity|].
  cbn [storeRun fst latestReport]. rewrite IH.
  destruct (latestReport key rest); [reflexivity|].
  rewrite store_step_get. destruct e; try reflexivity.
  destruct (String.eqb key key0); reflexivity.
Qed.

Lemma store_run_NoDup :
  forall events st,
    NoDup (map fst (Store.syncStates st)) ->
    NoDup (map fst (Store.syncStates (fst (storeRun events st)))).
Proof.
  induction events as [|e rest IH]; intros st Hnd; [exact Hnd|].
  cbn [storeRun fst]. apply IH. apply store_step_NoDup. exact Hnd.
Qed.

(** X18. The store remembers, for every key, the value of the last
    report made for it, and it is synced exactly when no key's last report
    is [false].  Keys are never forgotten. *)
Theorem store_tracks_latest_reports :
  forall events,
    let st := fst (storeRun events Store.create) in
    (forall key,
       Store.get key (Store.syncStates st) = latestReport key events) /\
    (Store.computeIsSynced st = true <->
     forall key, latestReport key events <> Some false).
Proof.
  intros events st.
  assert (Hget : forall key,
            Store.get key (Store.syncStates st) = latestReport key events).
  { intros key. subst st. rewrite store_run_get.
    destruct (latestReport key events); reflexivity. }
  split; [exact Hget|].
  unfold Store.computeIsSynced. rewrite allSynced_get.
  - split; intros H key; specialize (H key);
      [rewrite <- Hget|rewrite Hget]; exact H.
  - subst st. apply store_run_NoDup. constructor.
Qed.

Lemma lastDelivered_app :
  forall fn log log',
    lastDelivered fn (log ++ log') =
    match lastDelivered fn log' with
    | Some b => Some b
    | None => lastDelivered fn log
    end.
Proof.
  intros fn log log'. induction log as [|e rest IH]; cbn [app lastDelivered].
  - destruct (lastDelivered fn log'); reflexivity.
  - rewrite IH. destruct (lastDelivered fn log'); reflexivity.
Qed.

Lemma lastDelivered_all :
  forall fn b subscribers,
    lastDelivered fn (map (fun g => Store.Delivered g b) subscribers) =
    if existsb (Nat.eqb fn) subscribers then Some b else None.
Proof.
  intros fn b subscribers. induction subscribers as [|g rest IH];
    [reflexivity|].
  cbn [map lastDelivered existsb]. rewrite IH.
  destruct (existsb (Nat.eqb fn) rest); [rewrite orb_true_r; reflexivity|].
  rewrite orb_false_r. reflexivity.
Qed.

Lemma existsb_In_nat :
  forall fn l, existsb (Nat.eqb fn) l = true <-> In fn l.
Proof.
  intros fn l. rewrite existsb_exists. split.
  - intros [g [Hin E]]. apply Nat.eqb_eq in E. subst g. exact Hin.
  - intros Hin. exists fn. split; [exact Hin|apply Nat.eqb_refl].
Qed.

Lemma In_add :
  forall fn g l, In g (Store.add fn l) <-> g = fn \/ In g l.
Proof.
  intros fn g l. unfold Store.add.
  destruct (existsb (Nat.eqb fn) l) eqn:E.
  - apply existsb_In_nat in E. split; [intros H; right; exact H|].
    intros [->|H]; assumption.
  - rewrite in_app_iff. cbn. split.
    + intros [H|[<-|[]]]; [right; exact H|left; reflexivity].
    + intros [->|H]; [right; left; reflexivity|left; exact H].
Qed.

Lemma In_delete :
  forall fn g l, In g (Store.delete fn l) <-> g <> fn /\ In g l.
Proof.
  intros fn g l. unfold Store.delete. rewrite filter_In, negb_true_iff.
  rewrite Nat.eqb_neq. split; intros [H1 H2]; split; auto.
Qed.

(** Every subscriber was last called with the current aggregate. *)
Lemma store_step_current :
  forall st e log,
    (forall fn, In fn (Store.syncSubscribers st) ->
                lastDelivered fn log = Some (Store.computeIsSynced st)) ->
    forall fn,
      In fn (Store.syncSubscribers (fst (storeStep st e))) ->
      lastDelivered fn (log ++ snd (storeStep st e)) =
        Some (Store.computeIsSynced (fst (storeStep st e))).
Proof.
  intros st e log Hinv fn Hin. rewrite lastDelivered_app.
  destruct e as [key b|g|g]; cbn [storeStep] in *.
  - unfold Store.reportSyncState in *.
    destruct (Store.differs (Store.get key (Store.syncStates st)) b);
      cbn [fst snd] in *; [|cbn; apply Hinv; exact Hin].
    unfold Store.notifySyncSubscribers. cbn [Store.syncSubscribers] in *.
    rewrite lastDelivered_all.
    rewrite (proj2 (existsb_In_nat fn _) Hin). reflexivity.
  - cbn [Store.subscribeToSyncState fst snd Store.syncSubscribers] in *.
    unfold Store.subscribeToSyncState in *. cbn [fst snd] in *.
    cbn [lastDelivered]. unfold Store.computeIsSynced at 2.
    cbn [Store.syncStates].
    destruct (Nat.eqb fn g) eqn:E; [reflexivity|].
    apply Nat.eqb_neq in E. cbn [Store.syncSubscribers] in Hin.
    apply In_add in Hin. destruct Hin as [->|Hin]; [contradiction|].
    apply Hinv. exact Hin.
  - cbn [fst snd lastDelivered] in *. unfold Store.unsubscribe in *.
    cbn [Store.syncSubscribers] in Hin. apply In_delete in Hin.
    unfold Store.computeIsSynced. cbn [Store.syncStates].
    apply Hinv. exact (proj2 Hin).
Qed.

Lemma store_run_current :
  forall events st log,
    (forall fn, In fn (Store.syncSubscribers st) ->
                lastDelivered fn log = Some (Store.computeIsSynced st)) ->
    forall fn,
      In fn (Store.syncSubscribers (fst (storeRun events st))) ->
      lastDelivered fn (log ++ snd (storeRun events st)) =
        Some (Store.computeIsSynced (fst (storeRun events st))).
Proof.
  induction events as [|e rest IH]; intros st log Hinv fn Hin.
  - cbn in *. rewrite app_nil_r. apply Hinv. exact Hin.
  - cbn [storeRun fst snd] in *. rewrite app_assoc.
    apply IH; [|exact Hin]. apply store_step_current. exact Hinv.
Qed.

Lemma store_run_silent :
  forall events st fn b,
    ~ In fn (Store.syncSubscribers st) ->
    (forall e, In e events -> e <> StoreSubscribe fn) ->
    ~ In (Store.Delivered fn b) (snd (storeRun events st)).
Proof.
  induction events as [|e rest IH]; intros st fn b Hout Hnever Hin;
    [exact Hin|].
  cbn [storeRun snd] in Hin. apply in_app_or in Hin.
  assert (Hstep : ~ In fn (Store.syncSubscribers (fst (storeStep st e))) /\
                  ~ In (Store.Delivered fn b) (snd (storeStep st e))).
  { destruct e as [key b'|g|g]; cbn [storeStep].
    - unfold Store.reportSyncState.
      destruct (Store.differs _ _); cbn [fst snd Store.syncSubscribers];
        [|split; [exact Hout|intros []]].
      split; [exact Hout|].
      unfold Store.notifySyncSubscribers. cbn [Store.syncSubscribers].
      intros H. apply in_map_iff in H. destruct H as [g [Hg Hing]].
      injection Hg as -> _. contradiction.
    - unfold Store.subscribeToSyncState. cbn [fst snd Store.syncSubscribers].
      assert (Hne : g <> fn).
      { intros ->. exact (Hnever _ (or_introl eq_refl) eq_refl). }
      split.
      + intros H. apply In_add in H. destruct H as [->|H]; contradiction.
      + intros [H|[]]. injection H as H _. contradiction.
    - cbn [fst snd]. unfold Store.unsubscribe. cbn [Store.syncSubscribers].
      split; [|intros []].
      intros H. apply In_delete in H. destruct H as [_ H]. contradiction. }
  destruct Hstep as [Hout' Hquiet].
  destruct Hin as [Hin|Hin]; [contradiction|].
  apply (IH (fst (storeStep st e)) fn b Hout'); [|exact Hin].
  intros e' He'. apply Hnever. right. exact He'.
Qed.

(** X19. The subscribers of the store's sync state are never stale and
    never called after they left: after any sequence of reports,
    subscriptions and unsubscriptions on a fresh store, every current
    subscriber was last called with the store's current [isSynced]; and a
    callback that is not subscribed is not called by anything but its own
    subscription. *)
Theorem store_subscribers_are_current :
  (forall events fn,
     let result := storeRun events Store.create in
     In fn (Store.syncSubscribers (fst result)) ->
     lastDelivered fn (snd result) =
       Some (Store.computeIsSynced (fst result))) /\
  (forall events st fn b,
     ~ In fn (Store.syncSubscribers st) ->
     (forall e, In e events -> e <> StoreSubscribe fn) ->
     ~ In (Store.Delivered fn b) (snd (storeRun events st))).
Proof.
  split.
  - intros events fn result Hin.
    apply (store_run_current events Store.create [] (fun _ H => match H with end)
             fn Hin).
  - apply store_run_silent.
Qed.

Lemma store_subscribers_are_current_witness :
  lastDelivered 1
    (snd (storeRun [StoreSubscribe 1; StoreReport "doc:projects/p1" false;
                    StoreSubscribe 2; StoreReport "col:tasks" true;
                    StoreUnsubscribe 2; StoreReport "doc:projects/p1" true]
            Store.create)) = Some true /\
  ~ In (Store.Delivered 2 true)
       (snd (storeRun [StoreReport "doc:projects/p1" true]
               (fst (storeRun [StoreSubscribe 2;
                               StoreReport "doc:projects/p1" false;
                               StoreUnsubscribe 2] Store.create)))).
Proof.
  split.
  - apply (proj1 store_subscribers_are_current
             [StoreSubscribe 1; StoreReport "doc:projects/p1" false;
              StoreSubscribe 2; StoreReport "col:tasks" true;
              StoreUnsubscribe 2; StoreReport "doc:projects/p1" true] 1).
    left. reflexivity.
  - apply (proj2 store_subscribers_are_current).
    + intros [].
    + intros e [<-|[]]. discriminate.
Defined.

(** * Further properties of the subscriptions *)

(** ** Read-only subscriptions *)

Lemma readOnly_document_error :
  forall options message st,
    Document.localState st = None ->
    Document.localState (fst (Document.handleError options message st))
      = None /\
    forall eff, In eff (snd (Document.handleError options message st)) ->
                isWrite eff = false /\ isPush eff = false.
Proof.
  intros options message st Hl. unfold Document.handleError.
  destruct (Document.retryOnError options); cbn [fst snd].
  - split; [exact Hl|intros ? []].
  - split; [exact Hl|]. unfold Document.notify.
    intros eff [<-|[<-|[<-|[]]]]; split; reflexivity.
Qed.

Lemma readOnly_document_step :
  forall sameInstance options st e,
    Document.isReadOnly options = true ->
    Document.localState st = None ->
    Document.localState (fst (documentStep sameInstance options st e)) = None /\
    forall eff, In eff (snd (documentStep sameInstance options st e)) ->
                isWrite eff = false /\ isPush eff = false.
Proof.
  intros sameInstance options st e Hro Hl.
  destruct e; cbn [documentStep].
  - unfold Document.updateState. rewrite Hro. split; [exact Hl|intros ? []].
  - unfold Document.setData. rewrite Hro. split; [exact Hl|intros ? []].
  - unfold Document.deleteDocument. rewrite Hro.
    split; [exact Hl|intros ? []].
  - split; [exact Hl|]. intros eff [<-|[]]. split; reflexivity.
  - unfold Document.sync. rewrite Hl. split; [exact Hl|intros ? []].
  - split; [exact Hl|]. intros eff [<-|[]]. split; reflexivity.
  - unfold Document.autosaveFires.
    destruct (Document.autosavePending st); [|split; [exact Hl|intros ? []]].
    unfold Document.sync. cbn [Document.localState]. rewrite Hl.
    split; [reflexivity|intros ? []].
  - unfold Document.snapshotCallback.
    destruct snapshot as [data|];
      [|destruct (negb fromCache);
        [apply readOnly_document_error; exact Hl
        |split; [exact Hl|intros ? []]]].
    unfold Document.handleSnapshot. cbn [fst snd Document.localState].
    split.
    + rewrite Hl. destruct (Document.waitingForUpdate st); [|reflexivity].
      destruct (Document.inflightLocalState st); reflexivity.
    + unfold Document.notify. intros eff [<-|[<-|[]]]; split; reflexivity.
  - unfold Document.minLoadTimeFires. cbn [fst snd Document.localState].
    split; [exact Hl|].
    destruct (Document.loaded st); [|intros ? []].
    unfold Document.notify. intros eff [<-|[<-|[]]]; split; reflexivity.
  - apply readOnly_document_error. exact Hl.
Qed.

Lemma readOnly_collection_step :
  forall sameInstance options st e,
    Collection.isReadOnly options = true ->
    Collection.localState st = None ->
    Collection.localState (fst (collectionAct sameInstance options st e))
      = None /\
    forall eff, In eff (snd (collectionAct sameInstance options st e)) ->
                isCommit eff = false.
Proof.
  intros sameInstance options st e Hro Hl.
  destruct e; cbn [collectionAct].
  - unfold Collection.updateState. rewrite Hro.
    split; [exact Hl|intros ? []].
  - unfold Collection.addDocument. rewrite Hro.
    split; [exact Hl|intros ? []].
  - unfold Collection.removeDocument. rewrite Hro.
    split; [exact Hl|intros ? []].
  - unfold Collection.handleSnapshot. cbn [fst snd Collection.localState].
    split.
    + rewrite Hl. destruct (Collection.waitingForUpdate st); [|reflexivity].
      destruct (Collection.inflightLocalState st); reflexivity.
    + unfold Collection.notify. intros eff [<-|[<-|[]]]; reflexivity.
  - unfold Collection.sync. rewrite Hl. split; [exact Hl|intros ? []].
  - split; [exact Hl|]. intros eff [<-|[]]. reflexivity.
Qed.

(** X20. A read-only subscription never writes: whatever calls and
    callbacks a read-only document or collection subscription receives, it
    never holds a local state, never dispatches [setDoc], [updateDoc],
    [deleteDoc] or a batch, and never pushes an undo action. *)
Theorem read_only_subscriptions_never_write :
  (forall sameInstance options events,
     Document.isReadOnly options = true ->
     let result := documentRun sameInstance options events Document.initial in
     Document.localState (fst result) = None /\
     forall eff, In eff (snd result) ->
                 isWrite eff = false /\ isPush eff = false) /\
  (forall sameInstance options events,
     Collection.isReadOnly options = true ->
     let result :=
       collectionTrace sameInstance options events
         (Collection.initial options) in
     Collection.localState (fst result) = None /\
     forall eff, In eff (snd result) -> isCommit eff = false).
Proof.
  split.
  - intros sameInstance options events Hro.
    assert (Hgen : forall events st,
              Document.localState st = None ->
              Document.localState
                (fst (documentRun sameInstance options events st)) = None /\
              forall eff,
                In eff (snd (documentRun sameInstance options events st)) ->
                isWrite eff = false /\ isPush eff = false).
    { clear events. induction events as [|e rest IH]; intros st Hl.
      - split; [exact Hl|intros ? []].
      - cbn [documentRun fst snd].
        destruct (readOnly_document_step sameInstance options st e Hro Hl)
          as [Hl' Heff].
        destruct (IH _ Hl') as [Hl'' Heff'].
        split; [exact Hl''|].
        intros eff Hin. apply in_app_or in Hin.
        destruct Hin as [Hin|Hin]; [exact (Heff eff Hin)|exact (Heff' eff Hin)]. }
    apply Hgen. reflexivity.
  - intros sameInstance options events Hro.
    assert (Hgen : forall events st,
              Collection.localState st = None ->
              Collection.localState
                (fst (collectionTrace sameInstance options events st)) = None /\
              forall eff,
                In eff (snd (collectionTrace sameInstance options events st)) ->
                isCommit eff = false).
    { clear events. induction events as [|e rest IH]; intros st Hl.
      - split; [exact Hl|intros ? []].
      - cbn [collectionTrace fst snd].
        destruct (readOnly_collection_step sameInstance options st e Hro Hl)
          as [Hl' Heff].
        destruct (IH _ Hl') as [Hl'' Heff'].
        split; [exact Hl''|].
        intros eff Hin. apply in_app_or in Hin.
        destruct Hin as [Hin|Hin]; [exact (Heff eff Hin)|exact (Heff' eff Hin)]. }
    apply Hgen. reflexivity.
Qed.

Lemma read_only_subscriptions_never_write_witness :
  Document.localState
    (fst (documentRun distinctInstances readOnlyDocument
            [DocSnapshot epoch (Some [("name", VStr "Foo")]) false;
             DocUpdate epoch (VObj [("name", VStr "Bar")]) noOptions;
             DocSet [("name", VStr "Baz")] noOptions;
             DocDelete noOptions; DocSync; DocAutosave]
            Document.initial)) = None /\
  Collection.localState
    (fst (collectionTrace distinctInstances readOnlyTasks
            [EvSnapshot epoch [("t1", [("title", VStr "a")])];
             EvAdd "t2" [("title", VStr "b")] noOptions;
             EvRemove "t1" noOptions; EvSync]
            (Collection.initial readOnlyTasks))) = None.
Proof.
  split.
  - exact (proj1 (proj1 read_only_subscriptions_never_write
                    distinctInstances readOnlyDocument _ eq_refl)).
  - exact (proj1 (proj2 read_only_subscriptions_never_write
                    distinctInstances readOnlyTasks _ eq_refl)).
Defined.

(** ** The store's view of a subscription *)

Lemma tracked_report :
  forall key before isSynced store,
    tracked key before store ->
    tracked key isSynced (fst (Store.reportSyncState key isSynced store)).
Proof.
  intros key before isSynced store [[Hs _]|Hs]; right;
    unfold Store.reportSyncState; rewrite Hs; cbn [Store.get].
  - reflexivity.
  - rewrite String.eqb_refl. unfold Store.differs.
    destruct (Bool.eqb before isSynced) eqn:E; cbn [negb fst].
    + apply Bool.eqb_prop in E. subst before. exact Hs.
    + cbn. rewrite String.eqb_refl. reflexivity.
Qed.

Lemma tracked_synced :
  forall key isSynced store,
    tracked key isSynced store -> Store.computeIsSynced store = isSynced.
Proof.
  intros key isSynced store [[Hs ->]|Hs]; unfold Store.computeIsSynced;
    rewrite Hs; [reflexivity|]. destruct isSynced; reflexivity.
Qed.

Lemma absorb_notify :
  forall options st store,
    absorb (Document.notify options st) store =
    fst (Store.reportSyncState (Document.syncKey options)
           (Document.isSynced st) store).
Proof.
  reflexivity.
Qed.

Lemma tracked_document_sync :
  forall sameInstance options st store,
    tracked (Document.syncKey options) (Document.isSynced st) store ->
    tracked (Document.syncKey options)
      (Document.isSynced (fst (Document.sync sameInstance options st)))
      (absorb (snd (Document.sync sameInstance options st)) store).
Proof.
  intros sameInstance options st store Ht. unfold Document.sync.
  destruct (Document.localState st) as [l|] eqn:Hl; [|exact Ht].
  destruct (Document.syncState st) as [s|]; [|exact Ht].
  destruct (isDeepEqual sameInstance (VObj l) (VObj s)).
  - cbn [fst snd]. rewrite absorb_notify.
    exact (tracked_report _ _ _ _ Ht).
  - cbn [fst snd]. unfold Document.isSynced in *.
    cbn [Document.withEdit Document.withFlight Document.localState].
    rewrite Hl in Ht.
    destruct (undoEnabled _ && Document.onPushUndo options);
      destruct (Document.isSetOperation st); exact Ht.
Qed.

Lemma tracked_document_error :
  forall options message st store,
    tracked (Document.syncKey options) (Document.isSynced st) store ->
    tracked (Document.syncKey options)
      (Document.isSynced (fst (Document.handleError options message st)))
      (absorb (snd (Document.handleError options message st)) store).
Proof.
  intros options message st store Ht. unfold Document.handleError.
  destruct (Document.retryOnError options); cbn [fst snd]; [exact Ht|].
  match goal with
  | |- tracked _ _ (absorb (_ :: Document.notify options ?st') store) =>
      change (absorb (Document.ReportedError message
                        (Document.readContext options)
                      :: Document.notify options st') store)
        with (absorb (Document.notify options st') store)
  end.
  rewrite absorb_notify. exact (tracked_report _ _ _ _ Ht).
Qed.

Lemma tracked_document_step :
  forall sameInstance options st e store,
    tracked (Document.syncKey options) (Document.isSynced st) store ->
    tracked (Document.syncKey options)
      (Document.isSynced (fst (documentStep sameInstance options st e)))
      (absorb (snd (documentStep sameInstance options st e)) store).
Proof.
  intros sameInstance options st e store Ht.
  destruct e; cbn [documentStep].
  - unfold Document.updateState.
    destruct (Document.isReadOnly options); [exact Ht|].
    destruct (Document.getMergedData st); [|exact Ht].
    cbn [fst snd]. rewrite absorb_notify.
    exact (tracked_report _ _ _ _ Ht).
  - unfold Document.setData.
    destruct (Document.isReadOnly options); [exact Ht|].
    cbn [fst snd]. rewrite absorb_notify.
    exact (tracked_report _ _ _ _ Ht).
  - unfold Document.deleteDocument.
    destruct (Document.isReadOnly options); [exact Ht|].
    cbn [fst snd].
    destruct (Document.getMergedData st);
      [destruct (undoEnabled _ && Document.onPushUndo options)|]; exact Ht.
  - exact Ht.
  - apply tracked_document_sync. exact Ht.
  - exact Ht.
  - unfold Document.autosaveFires.
    destruct (Document.autosavePending st); [|exact Ht].
    apply tracked_document_sync. exact Ht.
  - unfold Document.snapshotCallback.
    destruct snapshot as [data|];
      [|destruct (negb fromCache);
        [apply tracked_document_error; exact Ht|exact Ht]].
    unfold Document.handleSnapshot. cbn [fst snd]. rewrite absorb_notify.
    exact (tracked_report _ _ _ _ Ht).
  - unfold Document.minLoadTimeFires. cbn [fst snd].
    destruct (Document.loaded st); [|exact Ht].
    rewrite absorb_notify. exact (tracked_report _ _ _ _ Ht).
  - apply tracked_document_error. exact Ht.
Qed.

Lemma absorbCollection_notify :
  forall options st store,
    absorbCollection (Collection.notify options st) store =
    fst (Store.reportSyncState (Collection.syncKey options)
           (Collection.isSynced st) store).
Proof.
  reflexivity.
Qed.

Lemma tracked_collection_step :
  forall sameInstance options st e store,
    tracked (Collection.syncKey options) (Collection.isSynced st) store ->
    tracked (Collection.syncKey options)
      (Collection.isSynced (fst (collectionAct sameInstance options st e)))
      (absorbCollection (snd (collectionAct sameInstance options st e)) store).
Proof.
  intros sameInstance options st e store Ht.
  destruct e; cbn [collectionAct].
  - unfold Collection.updateState.
    destruct (Collection.isReadOnly options); [exact Ht|].
    exact (tracked_report _ _ false _ Ht).
  - unfold Collection.addDocument.
    destruct (Collection.isReadOnly options); [exact Ht|].
    exact (tracked_report _ _ false _ Ht).
  - unfold Collection.removeDocument.
    destruct (Collection.isReadOnly options); [exact Ht|].
    destruct (negb (isIn id (Collection.getMergedData st))); [exact Ht|].
    exact (tracked_report _ _ false _ Ht).
  - unfold Collection.handleSnapshot. cbn [fst snd].
    rewrite absorbCollection_notify. exact (tracked_report _ _ _ _ Ht).
  - unfold Collection.sync.
    destruct (Collection.localState st) as [l|] eqn:Hl; [|exact Ht].
    destruct (Collection.syncState st) as [s|]; [|exact Ht].
    destruct (isDeepEqual sameInstance (VObj l) (VObj s)).
    + cbn [fst snd]. rewrite absorbCollection_notify.
      exact (tracked_report _ _ _ _ Ht).
    + cbn [fst snd]. unfold Collection.isSynced in *.
      cbn [Collection.withFlight Collection.localState]. rewrite Hl in Ht.
      destruct (undoEnabled _ && Collection.onPushUndo options); exact Ht.
  - exact Ht.
Qed.

(** X21. The store always knows whether a subscription is synced: after
    any sequence of calls and callbacks on a fresh document or collection
    subscription whose notifications reach a fresh store, the store's
    [isSynced] equals the subscription's own. *)
Theorem store_follows_subscription :
  (forall sameInstance options events,
     let result := documentRun sameInstance options events Document.initial in
     Store.computeIsSynced (absorb (snd result) Store.create) =
       Document.isSynced (fst result)) /\
  (forall sameInstance options events,
     let result :=
       collectionTrace sameInstance options events
         (Collection.initial options) in
     Store.computeIsSynced (absorbCollection (snd result) Store.create) =
       Collection.isSynced (fst result)).
Proof.
  split.
  - intros sameInstance options events result.
    apply (tracked_synced (Document.syncKey options)).
    assert (Hgen : forall events st store,
              tracked (Document.syncKey options) (Document.isSynced st) store ->
              tracked (Document.syncKey options)
                (Document.isSynced
                   (fst (documentRun sameInstance options events st)))
                (absorb (snd (documentRun sameInstance options events st))
                   store)).
    { clear. induction events as [|e rest IH]; intros st store Ht;
        [exact Ht|].
      cbn [documentRun fst snd]. unfold absorb. rewrite fold_left_app.
      apply IH. apply tracked_document_step. exact Ht. }
    apply Hgen. left. split; reflexivity.
  - intros sameInstance options events result.
    apply (tracked_synced (Collection.syncKey options)).
    assert (Hgen : forall events st store,
              tracked (Collection.syncKey options) (Collection.isSynced st)
                store ->
              tracked (Collection.syncKey options)
                (Collection.isSynced
                   (fst (collectionTrace sameInstance options events st)))
                (absorbCollection
                   (snd (collectionTrace sameInstance options events st))
                   store)).
    { clear. induction events as [|e rest IH]; intros st store Ht;
        [exact Ht|].
      cbn [collectionTrace fst snd]. unfold absorbCollection.
      rewrite fold_left_app. apply IH. apply tracked_collection_step.
      exact Ht. }
    apply Hgen. left. split; reflexivity.
Qed.

(** ** Rebase, undo and no-op edits of a document *)








(** ** What a collection writes *)




Section Batch.

Variable sameInstance : value -> value -> bool.



End Batch.



(** * Further properties: cloning and the flushed payload *)




Lemma digitsOnly_dotFree :
  forall s, digitsOnly s = true -> dotFree s = true.
Proof.
  induction s as [|c s IH]; intros H; [reflexivity|].
  cbn [digitsOnly dotFree] in *. apply andb_true_iff in H.
  destruct H as [Hc Hs]. rewrite (IH Hs), andb_true_r.
  destruct (Ascii.eqb c "."%char) eqn:E; [|reflexivity].
  apply Ascii.eqb_eq in E. subst c. discriminate.
Qed.

Lemma revapp_not_nil :
  forall d acc, acc <> Decimal.Nil -> Decimal.revapp d acc <> Decimal.Nil.
Proof.
  induction d; intros acc Hacc; cbn [Decimal.revapp]; try exact Hacc;
    apply IHd; discriminate.
Qed.

Lemma little_succ_not_nil :
  forall d, Decimal.Little.succ d <> Decimal.Nil.
Proof.
  destruct d; discriminate.
Qed.

Lemma to_little_uint_not_nil :
  forall n acc, acc <> Decimal.Nil -> Nat.to_little_uint n acc <> Decimal.Nil.
Proof.
  induction n as [|n IH]; intros acc Hacc; cbn [Nat.to_little_uint];
    [exact Hacc|].
  apply IH. apply little_succ_not_nil.
Qed.

Lemma indexKey_pathKey : forall i, pathKey (indexKey i) = true.
Proof.
  intros i. unfold pathKey, indexKey.
  rewrite (digitsOnly_dotFree _ (digitsOnly_uint (Nat.to_uint i))),
    andb_true_r.
  assert (Hnn : Nat.to_uint i <> Decimal.Nil).
  { unfold Nat.to_uint, Decimal.rev. 
    pose proof (to_little_uint_not_nil i Decimal.zero) as H.
    destruct (Nat.to_little_uint i Decimal.zero) eqn:E;
      try (cbn [Decimal.revapp]; apply revapp_not_nil; discriminate).
    exfalso. apply H; [discriminate|reflexivity]. }
  destruct (Nat.to_uint i); try reflexivity. contradiction.
Qed.

Lemma keyed_record :
  forall fs,
    keyed (VObj fs) = true ->
    forallb pathKey (keys fs) = true /\
    forall k v, In (k, v) fs -> keyed v = true.
Proof.
  intros fs H. cbn [keyed] in H. apply andb_true_iff in H.
  destruct H as [Hk Hv]. split; [exact Hk|].
  intros k v Hin. rewrite forallb_forall in Hv. exact (Hv (k, v) Hin).
Qed.

Lemma keyed_objectKeys :
  forall v k, keyed v = true -> In k (objectKeys v) -> pathKey k = true.
Proof.
  intros v k Hv Hin. destruct v; cbn [objectKeys] in Hin;
    try contradiction.
  - apply in_map_iff in Hin. destruct Hin as [i [<- _]].
    apply indexKey_pathKey.
  - destruct Hin as [<-|[<-|[]]]; reflexivity.
  - destruct Hin as [<-|[]]. reflexivity.
  - destruct Hin as [<-|[]]. reflexivity.
  - apply in_map_iff in Hin. destruct Hin as [i [<- _]].
    apply indexKey_pathKey.
  - destruct (keyed_record fields Hv) as [Hk _].
    exact (pathKey_In k _ Hk Hin).
Qed.

Lemma keyed_getProp :
  forall v k x, keyed v = true -> getProp v k = Some x -> keyed x = true.
Proof.
  intros v k x Hv Hx. destruct v; cbn [getProp] in Hx; try discriminate.
  - destruct (String.eqb k "length"); [injection Hx as <-; reflexivity|].
    destruct (findIndex k 0 (String.length s)); [|discriminate].
    unfold charAt in Hx. destruct (String.get n s); [|discriminate].
    injection Hx as <-. reflexivity.
  - destruct (String.eqb k "seconds"); [injection Hx as <-; reflexivity|].
    destruct (String.eqb k "nanoseconds"); [|discriminate].
    injection Hx as <-. reflexivity.
  - destruct (String.eqb k "_methodName"); [|discriminate].
    injection Hx as <-. reflexivity.
  - destruct (String.eqb k "_methodName"); [|discriminate].
    injection Hx as <-. reflexivity.
  - destruct (String.eqb k "length"); [injection Hx as <-; reflexivity|].
    destruct (findIndex k 0 (List.length items)); [|discriminate].
    cbn [keyed] in Hv. rewrite forallb_forall in Hv.
    apply Hv. exact (nth_error_In _ _ Hx).
  - destruct (keyed_record fields Hv) as [_ Hall].
    exact (Hall k x (lookup_In _ _ _ Hx)).
Qed.

Lemma keyed_orEmpty :
  forall v k, keyed v = true -> keyed (orEmpty (getProp v k)) = true.
Proof.
  intros v k Hv. destruct (getProp v k) as [x|] eqn:E; [|reflexivity].
  pose proof (keyed_getProp v k x Hv E) as Hx.
  destruct x; exact Hx.
Qed.

Lemma flattenable_intro :
  forall fs,
    NoDup (keys fs) ->
    forallb pathKey (keys fs) = true ->
    (forall k v, In (k, v) fs -> v <> VObj [] /\ flattenable v = true) ->
    flattenable (VObj fs) = true.
Proof.
  intros fs Hnd Hk Hall. cbn [flattenable].
  rewrite (proj2 (distinct_NoDup (keys fs)) Hnd), Hk. cbn [andb].
  apply forallb_forall. intros [k v] Hin. cbn [snd].
  destruct (Hall k v Hin) as [Hne Hf].
  destruct v; try reflexivity.
  destruct fields; [contradiction|exact Hf].
Qed.

Section Payload.

Variable sameInstance : value -> value -> bool.

(** The diff towards Firestore data never holds an empty nested record,
    and its keys are those of the two values. *)
Lemma diff_flattenable :
  forall y from,
    isData y = true -> keyed y = true -> keyed from = true ->
    flattenable (VObj (computeDiffValue sameInstance from y)) = true.
Proof.
  induction y as [|flag|num|str|sec nano| | |items IH|fields IH]
    using value_induction; intros from Hd Hk Hf; try reflexivity.
  rewrite computeDiffValue_eq.
  destruct (isData_record fields Hd) as [Hnd Hall].
  destruct (keyed_record fields Hk) as [Hkeys Hkall].
  apply flattenable_intro.
  - apply NoDup_markRemoved, NoDup_changed. constructor.
  - apply forallb_forall. intros k Hin.
    apply In_keys_markRemoved in Hin. destruct Hin as [Hin|Hin].
    + unfold keys in Hin. apply in_map_iff in Hin.
      destruct Hin as [[k' v] [Hk' Hin]]. cbn [fst] in Hk'. subst k'.
      apply In_changed in Hin. destruct Hin as [[]|[yv [Hy _]]].
      exact (pathKey_In k _ Hkeys (In_keys _ _ _ Hy)).
    + exact (keyed_objectKeys from k Hf Hin).
  - intros k v Hin. apply In_markRemoved in Hin.
    destruct Hin as [->|Hin]; [split; [discriminate|reflexivity]|].
    apply In_changed in Hin. destruct Hin as [[]|[yv [Hy Hc]]].
    rewrite Forall_forall in IH. specialize (IH (k, yv) Hy).
    cbn [snd] in IH. unfold changeOf in Hc.
    destruct yv as [|flag|num|str|sec nano| | |items|nested];
      try (destruct (strictEqU sameInstance _ _); [discriminate|];
           injection Hc as <-; split; [discriminate|reflexivity]).
    + destruct (isDeepEqualU sameInstance _ _); [discriminate|].
      injection Hc as <-. split; [discriminate|reflexivity].
    + destruct (isDeepEqualU sameInstance _ _); [discriminate|].
      destruct (computeDiffValue sameInstance (orEmpty (getProp from k))
                  (VObj nested)) as [|e rest] eqn:E; [discriminate|].
      injection Hc as <-. split; [discriminate|].
      rewrite <- E. apply IH.
      * exact (Hall k _ Hy).
      * exact (Hkall k _ Hy).
      * apply keyed_orEmpty. exact Hf.
Qed.

End Payload.

(** X28. Every diff the library computes survives flattening: for two
    records of Firestore data whose field names, at any depth, are
    non-empty and free of dots, [unflattenDiff(flattenDiff(computeDiff(a,
    b)))] is [computeDiff(a, b)] again.  The diff never holds an empty nested
    record, the one shape flattening would lose. *)
Theorem computed_diff_survives_flattening :
  forall sameInstance a b,
    isData (VObj b) = true ->
    keyed (VObj a) = true ->
    keyed (VObj b) = true ->
    flattenable (computeDiff sameInstance a (Some b)) = true /\
    unflattenDiff (flattenDiff (computeDiff sameInstance a (Some b)) "") =
      Ok (entries (computeDiff sameInstance a (Some b))).
Proof.
  intros sameInstance a b Db Ka Kb.
  assert (Hf : flattenable (computeDiff sameInstance a (Some b)) = true).
  { cbn [computeDiff]. apply diff_flattenable; assumption. }
  split; [exact Hf|].
  cbn [computeDiff] in *.
  set (d := computeDiffValue sameInstance (VObj a) (VObj b)) in *.
  unfold unflattenDiff, flattenDiff. cbn [entries].
  change "" with (joinPath []).
  rewrite (flatten_leaves (VObj d) [] Hf eq_refl).
  rewrite unflattenInto_insertAll.
  - exact (insert_leaves (VObj d) d Hf eq_refl).
  - intros e He.
    destruct (leaves_shape (VObj d) [] e Hf eq_refl He)
      as [[k [r [Hs _]]] Hall].
    split; [rewrite Hs; discriminate|exact Hall].
Qed.

Lemma computed_diff_survives_flattening_witness :
  unflattenDiff
    (flattenDiff
       (computeDiff distinctInstances
          [("name", VStr "Foo"); ("building", VObj [("floors", VNum 2)]);
           ("tags", VArr [VStr "a"])]
          (Some [("name", VStr "Foo");
                 ("building", VObj [("floors", VNum 3); ("roof", VObj [])]);
                 ("owner", VObj [("id", VStr "u1")])])) "") =
  Ok [("building", VObj [("floors", VNum 3)]);
      ("owner", VObj [("id", VStr "u1")]);
      ("tags", VDeleteField)].
Proof.
  apply (proj2 (computed_diff_survives_flattening distinctInstances
                  [("name", VStr "Foo");
                   ("building", VObj [("floors", VNum 2)]);
                   ("tags", VArr [VStr "a"])]
                  [("name", VStr "Foo");
                   ("building", VObj [("floors", VNum 3); ("roof", VObj [])]);
                   ("owner", VObj [("id", VStr "u1")])]
                  eq_refl eq_refl eq_refl)).
Defined.

(** * The loading indicator of a document *)

Lemma loading_sync :
  forall sameInstance options st,
    let st' := fst (Document.sync sameInstance options st) in
    Document.loaded st' = Document.loaded st /\
    Document.minLoadTimeElapsed st' = Document.minLoadTimeElapsed st /\
    Document.isLoading st' = Document.isLoading st.
Proof.
  intros sameInstance options st. unfold Document.sync.
  destruct (Document.localState st) as [l|]; [|auto].
  destruct (Document.syncState st) as [s|]; [|auto].
  destruct (isDeepEqual sameInstance (VObj l) (VObj s)); cbn; auto.
Qed.

Lemma loading_error :
  forall options message st,
    let st' := fst (Document.handleError options message st) in
    Document.loaded st' = Document.loaded st /\
    Document.minLoadTimeElapsed st' = Document.minLoadTimeElapsed st /\
    Document.isLoading st' = Document.isLoading st.
Proof.
  intros options message st. unfold Document.handleError.
  destruct (Document.retryOnError options); cbn; auto.
Qed.

Lemma loading_step :
  forall sameInstance options st e,
    let st' := fst (documentStep sameInstance options st e) in
    Document.loaded st' = Document.loaded st || arrives e /\
    Document.minLoadTimeElapsed st' =
      Document.minLoadTimeElapsed st || elapses e /\
    (Document.isLoading st =
       negb (Document.loaded st && Document.minLoadTimeElapsed st) ->
     Document.isLoading st' =
       negb (Document.loaded st' && Document.minLoadTimeElapsed st')).
Proof.
  intros sameInstance options st e.
  assert (Hsame : forall st',
            Document.loaded st' = Document.loaded st /\
            Document.minLoadTimeElapsed st' = Document.minLoadTimeElapsed st /\
            Document.isLoading st' = Document.isLoading st ->
            Document.loaded st' = Document.loaded st || false /\
            Document.minLoadTimeElapsed st' =
              Document.minLoadTimeElapsed st || false /\
            (Document.isLoading st =
               negb (Document.loaded st && Document.minLoadTimeElapsed st) ->
             Document.isLoading st' =
               negb (Document.loaded st' && Document.minLoadTimeElapsed st'))).
  { intros st' (H1 & H2 & H3). rewrite !orb_false_r, H1, H2, H3. auto. }
  destruct e; cbn [documentStep arrives elapses]; cbv zeta.
  - apply Hsame. unfold Document.updateState.
    destruct (Document.isReadOnly options); [auto|].
    destruct (Document.getMergedData st); cbn; auto.
  - apply Hsame. unfold Document.setData.
    destruct (Document.isReadOnly options); cbn; auto.
  - apply Hsame. unfold Document.deleteDocument.
    destruct (Document.isReadOnly options); cbn; auto.
  - apply Hsame. cbn. auto.
  - apply Hsame. apply loading_sync.
  - apply Hsame. cbn. auto.
  - apply Hsame. unfold Document.autosaveFires.
    destruct (Document.autosavePending st); [|auto].
    match goal with
    | |- context [Document.sync _ _ ?cleared] =>
        exact (loading_sync sameInstance options cleared)
    end.
  - unfold Document.snapshotCallback. destruct snapshot as [data|].
    + unfold Document.handleSnapshot.
      cbn [fst Document.loaded Document.minLoadTimeElapsed Document.isLoading].
      rewrite orb_true_r. split; [reflexivity|].
      split; [rewrite orb_false_r; reflexivity|].
      destruct (Document.loaded st), (Document.minLoadTimeElapsed st);
        cbn; auto.
    + apply Hsame. destruct (negb fromCache); [|auto].
      apply loading_error.
  - unfold Document.minLoadTimeFires.
    cbn [fst Document.loaded Document.minLoadTimeElapsed Document.isLoading].
    rewrite orb_true_r, orb_false_r. split; [reflexivity|].
    split; [reflexivity|].
    destruct (Document.loaded st), (Document.minLoadTimeElapsed st);
      cbn; auto.
  - apply Hsame. apply loading_error.
Qed.

Lemma loading_run :
  forall sameInstance options events st,
    let st' := fst (documentRun sameInstance options events st) in
    Document.loaded st' = Document.loaded st || existsb arrives events /\
    Document.minLoadTimeElapsed st' =
      Document.minLoadTimeElapsed st || existsb elapses events /\
    (Document.isLoading st =
       negb (Document.loaded st && Document.minLoadTimeElapsed st) ->
     Document.isLoading st' =
       negb (Document.loaded st' && Document.minLoadTimeElapsed st')).
Proof.
  intros sameInstance options events.
  induction events as [|e rest IH]; intros st; cbv zeta.
  - cbn. rewrite !orb_false_r. auto.
  - cbn [documentRun fst existsb].
    destruct (loading_step sameInstance options st e) as (H1 & H2 & H3).
    destruct (IH (fst (documentStep sameInstance options st e)))
      as (K1 & K2 & K3).
    rewrite K1, K2, H1, H2, !orb_assoc.
    split; [reflexivity|]. split; [reflexivity|].
    intros Hinv. rewrite <- H1, <- H2, <- K1, <- K2.
    apply K3, H3, Hinv.
Qed.

(** X29. Within one listener session of a fresh document subscription,
    [isLoading] is true exactly until both a snapshot of the existing
    document has arrived and the minimum-load-time timer has fired, in either
    order: no edit, write, missing document or listener error ends it, and
    nothing turns it on again. *)
Theorem document_loading_indicator :
  forall sameInstance options events,
    Document.isLoading
      (fst (documentRun sameInstance options events Document.initial)) =
    negb (existsb arrives events && existsb elapses events).
Proof.
  intros sameInstance options events.
  destruct (loading_run sameInstance options events Document.initial)
    as (H1 & H2 & H3).
  rewrite (H3 eq_refl), H1, H2. reflexivity.
Qed.
